(** * TouchID: the event emitter, the service and the native cache

    A shallow embedding of
      - [src/utils/event-emitter.ts]  (class [TouchIDEventEmitterImpl]),
      - [src/touchid.ts]              (class [TouchIDService]),
      - [src/native/touchid.mm]       (the cache logic of [PromptTouchID]),
    followed by the properties proved about them.

    Conventions of the embedding.
      - A JavaScript string is its sequence of UTF-16 code units.
      - A JavaScript number that the code uses as a count of milliseconds
        (timestamps, durations, [ttl]) is an integer of [Z].
      - The native code keeps its times in seconds, as IEEE 754 doubles
        ([NSTimeInterval], the time of an [NSDate]); they are the binary64
        numbers of the standard library's [SpecFloat], with its
        operations.
      - Effects are threaded through a state monad with completions: a
        computation ends normally, ends by throwing, or is still waiting
        when the bound on the polling loop of [waitForInit] is reached.
      - What is outside the repository (the handlers registered by the
        user, the LocalAuthentication framework, the module loader) is an
        explicit input of the model. *)

From Stdlib Require Import ZArith NArith List Bool String Ascii Lia.
From Stdlib Require Import SpecFloat.
Import ListNotations.
Open Scope Z_scope.

Set Implicit Arguments.

(** ** JavaScript strings *)

Definition jsstring := list N.

Definition str (s : string) : jsstring :=
  List.map N_of_ascii (list_ascii_of_string s).

Definition jsstring_eq_dec : forall a b : jsstring, {a = b} + {a <> b} :=
  list_eq_dec N.eq_dec.

(** WhiteSpace and LineTerminator code points of ECMAScript, which are
    what [String.prototype.trim] removes; all of them are single code
    units. *)
Definition isWhiteSpace (c : N) : bool :=
  ((9 <=? c) && (c <=? 13)         (* TAB, LF, VT, FF, CR *)
   || (c =? 32)                    (* SPACE *)
   || (c =? 160)                   (* NO-BREAK SPACE *)
   || (c =? 5760)                  (* U+1680 *)
   || ((8192 <=? c) && (c <=? 8202)) (* U+2000 .. U+200A *)
   || (c =? 8232) || (c =? 8233)   (* U+2028, U+2029 *)
   || (c =? 8239)                  (* U+202F *)
   || (c =? 8287)                  (* U+205F *)
   || (c =? 12288)                 (* U+3000 *)
   || (c =? 65279))%N.             (* U+FEFF *)

Fixpoint trimStart (s : jsstring) : jsstring :=
  match s with
  | [] => []
  | c :: r => if isWhiteSpace c then trimStart r else s
  end.

Definition trimEnd (s : jsstring) : jsstring := rev (trimStart (rev s)).

Definition trim (s : jsstring) : jsstring := trimEnd (trimStart s).

Fixpoint startsWith (s p : jsstring) : bool :=
  match p, s with
  | [], _ => true
  | _ :: _, [] => false
  | a :: p', b :: s' => (a =? b)%N && startsWith s' p'
  end.

(** [s.includes(sub)] *)
Fixpoint includes (s sub : jsstring) : bool :=
  startsWith s sub ||
  match s with
  | [] => false
  | _ :: r => includes r sub
  end.

(** Truthiness of a string: the empty string is falsy. *)
Definition truthy_string (s : jsstring) : bool :=
  match s with [] => false | _ :: _ => true end.

(** [s || dflt] for an optional string ([undefined] and [''] are falsy). *)
Definition string_or (s : option jsstring) (dflt : jsstring) : jsstring :=
  match s with
  | Some v => if truthy_string v then v else dflt
  | None => dflt
  end.

(** ** Values thrown and caught *)

(** What a [catch (error)] clause can receive.  The code only asks
    [error instanceof Error] and then reads [error.message]. *)
Inductive Thrown :=
| ErrorObject (message : jsstring)   (* an instance of Error *)
| ThrownString (s : jsstring)        (* a bare string, as N-API rejects with *)
| ThrownOther.                       (* any other value *)

(** [error instanceof Error ? error.message : dflt] *)
Definition message_or (error : Thrown) (dflt : jsstring) : jsstring :=
  match error with
  | ErrorObject m => m
  | _ => dflt
  end.

(** ** types/touchid.ts *)

Record DeviceData := {
  dd_biometryType : jsstring;
  dd_hardwareUUID : jsstring;
  dd_deviceSerial : jsstring;
  dd_deviceModel : jsstring;
  dd_systemVersion : jsstring
}.

Record TouchIDResult := {
  success : bool;
  error : option jsstring;
  data : option DeviceData
}.

Inductive TouchIDMethod := direct | cached.

Record TouchIDOptions := {
  reason : option jsstring;
  method : option TouchIDMethod;
  ttl : option Z
}.

Record BiometricInfo := {
  bi_biometricsAvailable : bool;
  bi_biometryType : jsstring;
  bi_deviceSerial : jsstring;
  bi_deviceModel : jsstring;
  bi_systemVersion : jsstring;
  bi_hardwareUUID : jsstring
}.

(** enum TouchIDError *)
Definition NOT_AVAILABLE : jsstring := str "Touch ID not available".
Definition NOT_ENROLLED : jsstring := str "No Touch ID enrolled".
Definition LOCKOUT : jsstring := str "Touch ID is locked out".
Definition USER_CANCEL : jsstring := str "User cancelled authentication".
Definition SYSTEM_CANCEL : jsstring := str "System cancelled authentication".
Definition AUTHENTICATION_FAILED : jsstring := str "Authentication failed".
Definition PASSCODE_NOT_SET : jsstring := str "Passcode not set".
Definition NOT_INTERACTIVE : jsstring := str "Not interactive".

Inductive TouchIDEventType :=
| authentication_start
| authentication_success
| authentication_failure
| authentication_cancel
| device_lockout
| device_available
| device_unavailable
| cache_created
| cache_used
| cache_expired
| initialization_start
| initialization_complete
| initialization_error.

Definition TouchIDEventType_eq_dec :
  forall a b : TouchIDEventType, {a = b} + {a <> b}.
Proof. decide equality. Defined.

Definition event_eqb (a b : TouchIDEventType) : bool :=
  if TouchIDEventType_eq_dec a b then true else false.

(** interface TouchIDEventData: one payload per event type, as a tagged
    union.  Every payload starts with its [timestamp]. *)
Inductive EventData :=
| AuthenticationStart (timestamp : Z) (m : TouchIDMethod) (why : jsstring)
| AuthenticationSuccess (timestamp : Z) (m : TouchIDMethod) (duration : Z)
    (d : option DeviceData)
| AuthenticationFailure (timestamp : Z) (m : TouchIDMethod) (err : jsstring)
    (duration : Z)
| AuthenticationCancel (timestamp : Z) (m : TouchIDMethod) (duration : Z)
| DeviceLockout (timestamp : Z) (duration : Z) (why : jsstring)
| DeviceAvailable (timestamp : Z) (biometry : jsstring)
| DeviceUnavailable (timestamp : Z) (why : jsstring)
| CacheCreated (timestamp : Z) (ttl_ms : Z)
| CacheUsed (timestamp : Z) (remainingTtl : Z)
| CacheExpired (timestamp : Z) (originalTtl : Z)
| InitializationStart (timestamp : Z)
| InitializationComplete (timestamp : Z) (duration : Z)
| InitializationError (timestamp : Z) (err : jsstring).

(** The event type under which the service emits a payload. *)
Definition event_of (d : EventData) : TouchIDEventType :=
  match d with
  | AuthenticationStart _ _ _ => authentication_start
  | AuthenticationSuccess _ _ _ _ => authentication_success
  | AuthenticationFailure _ _ _ _ => authentication_failure
  | AuthenticationCancel _ _ _ => authentication_cancel
  | DeviceLockout _ _ _ => device_lockout
  | DeviceAvailable _ _ => device_available
  | DeviceUnavailable _ _ => device_unavailable
  | CacheCreated _ _ => cache_created
  | CacheUsed _ _ => cache_used
  | CacheExpired _ _ => cache_expired
  | InitializationStart _ => initialization_start
  | InitializationComplete _ _ => initialization_complete
  | InitializationError _ _ => initialization_error
  end.

Definition is_cache_event (e : TouchIDEventType) : bool :=
  match e with
  | cache_created | cache_used | cache_expired => true
  | _ => false
  end.

(** ** Computations: state and completions *)

Inductive Completion (A : Type) :=
| Normal (a : A)        (* returned, or the promise resolved *)
| Throw (e : Thrown)    (* threw, or the promise rejected *)
| Waiting.              (* still polling when the bound was reached *)

Arguments Normal {A} a.
Arguments Throw {A} e.
Arguments Waiting {A}.

Definition M (S A : Type) : Type := S -> Completion A * S.

Definition ret {S A} (a : A) : M S A := fun s => (Normal a, s).

Definition bind {S A B} (c : M S A) (k : A -> M S B) : M S B :=
  fun s =>
    match c s with
    | (Normal a, s') => k a s'
    | (Throw e, s') => (Throw e, s')
    | (Waiting, s') => (Waiting, s')
    end.

Definition throw {S A} (e : Thrown) : M S A := fun s => (Throw e, s).

(** [try { body } catch (error) { handler error }] *)
Definition try_catch {S A} (body : M S A) (handler : Thrown -> M S A) : M S A :=
  fun s =>
    match body s with
    | (Throw e, s') => handler e s'
    | r => r
    end.

Definition gets {S A} (f : S -> A) : M S A := fun s => (Normal (f s), s).

Definition modify {S} (f : S -> S) : M S unit := fun s => (Normal tt, f s).

Declare Scope js_scope.
Delimit Scope js_scope with js.
Notation "x <- c1 ;; c2" := (bind c1 (fun x => c2))
  (at level 61, c1 at next level, right associativity) : js_scope.
Notation "c1 ;; c2" := (bind c1 (fun _ => c2))
  (at level 61, right associativity) : js_scope.
Open Scope js_scope.

(** [for (const x of l) { body x }] *)
Fixpoint for_of {S A} (l : list A) (body : A -> M S unit) : M S unit :=
  match l with
  | [] => ret tt
  | x :: r => body x ;; for_of r body
  end.

(** ** utils/event-emitter.ts *)

(** A handler is a JavaScript function; the registry compares handlers
    by identity ([===]), so a handler is named by an identifier. *)
Definition HandlerId := nat.

(** interface EventListener *)
Record EventListener := {
  handler : HandlerId;
  once : bool
}.

(** [Map<TouchIDEventType, EventListener[]>]: a JavaScript Map keeps its
    keys in insertion order, and [eventNames] exposes that order. *)
Definition Registry := list (TouchIDEventType * list EventListener).

Fixpoint Map_get (k : TouchIDEventType) (m : Registry)
  : option (list EventListener) :=
  match m with
  | [] => None
  | (k', v) :: r => if event_eqb k k' then Some v else Map_get k r
  end.

Definition Map_has (k : TouchIDEventType) (m : Registry) : bool :=
  match Map_get k m with Some _ => true | None => false end.

(** [set] keeps the position of a key that is present and appends a new
    key. *)
Fixpoint Map_set (k : TouchIDEventType) (v : list EventListener)
  (m : Registry) : Registry :=
  match m with
  | [] => [(k, v)]
  | (k', v') :: r =>
      if event_eqb k k' then (k, v) :: r else (k', v') :: Map_set k v r
  end.

Definition Map_delete (k : TouchIDEventType) (m : Registry) : Registry :=
  filter (fun kv => negb (event_eqb k (fst kv))) m.

Definition Map_clear (m : Registry) : Registry := [].

Definition Map_keys (m : Registry) : list TouchIDEventType := List.map fst m.

(** [Array.prototype.findIndex]; [None] is the source's [-1]. *)
Fixpoint findIndex {A} (p : A -> bool) (l : list A) : option nat :=
  match l with
  | [] => None
  | x :: r =>
      if p x then Some O
      else match findIndex p r with
           | Some i => Some (S i)
           | None => None
           end
  end.

(** [l.splice(index, 1)] *)
Fixpoint splice1 {A} (index : nat) (l : list A) : list A :=
  match l, index with
  | [], _ => []
  | _ :: r, O => r
  | x :: r, S i => x :: splice1 i r
  end.

(** What a handler does when it is called, as far as the emitter can
    tell: the calls it makes on the registry of the emitter that invoked
    it, in order, and whether it then throws.  (A handler that calls
    [emit] again from inside a dispatch is not modelled.) *)
Inductive EmitterCall :=
| CallOn (event : TouchIDEventType) (h : HandlerId)
| CallOnce (event : TouchIDEventType) (h : HandlerId)
| CallOff (event : TouchIDEventType) (h : HandlerId)
| CallRemoveAllListeners (event : option TouchIDEventType).

Record HandlerRun := {
  emitter_calls : list EmitterCall;
  throws : option Thrown
}.

Inductive ConsoleLine :=
| console_warn_line (msg : jsstring)
| console_error_line (msg : jsstring) (err : Thrown)
| console_handler_error (event : TouchIDEventType) (err : Thrown).

(** The part of the JavaScript world that the emitter reads and writes:
    its [listeners] map, the record of handler invocations, and the
    console. *)
Record JsEnv := {
  listeners : Registry;
  invoked : list (HandlerId * EventData);
  console : list ConsoleLine
}.

(** A handler is any deterministic function of what it can observe of
    the emitter when it is invoked and of the payload. *)
Definition Behaviour := JsEnv -> HandlerId -> EventData -> HandlerRun.

Definition set_listeners (f : Registry -> Registry) (s : JsEnv) : JsEnv :=
  {| listeners := f (listeners s); invoked := invoked s; console := console s |}.

Definition log_invoked (h : HandlerId) (d : EventData) (s : JsEnv) : JsEnv :=
  {| listeners := listeners s; invoked := invoked s ++ [(h, d)];
     console := console s |}.

Definition log_console (c : ConsoleLine) (s : JsEnv) : JsEnv :=
  {| listeners := listeners s; invoked := invoked s;
     console := console s ++ [c] |}.

Definition new_TouchIDEventEmitterImpl : JsEnv :=
  {| listeners := []; invoked := []; console := [] |}.

(** [this.listeners.get(event)!.push(l)] *)
Definition push_listener (event : TouchIDEventType) (l : EventListener)
  (m : Registry) : Registry :=
  match Map_get event m with
  | Some a => Map_set event (a ++ [l]) m
  | None => m
  end.

Definition on (event : TouchIDEventType) (h : HandlerId) : M JsEnv unit :=
  (if_absent <- gets (fun s => negb (Map_has event (listeners s))) ;;
   (if if_absent then modify (set_listeners (Map_set event []))
    else ret tt) ;;
   modify (set_listeners
             (push_listener event {| handler := h; once := false |}))).

Definition off (event : TouchIDEventType) (h : HandlerId) : M JsEnv unit :=
  (found <- gets (fun s => Map_get event (listeners s)) ;;
   match found with
   | None => ret tt
   | Some eventListeners =>
       let index := findIndex (fun l => Nat.eqb (handler l) h) eventListeners in
       let eventListeners' :=
         match index with
         | Some i => splice1 i eventListeners
         | None => eventListeners
         end in
       modify (set_listeners (Map_set event eventListeners')) ;;
       if Nat.eqb (List.length eventListeners') 0
       then modify (set_listeners (Map_delete event))
       else ret tt
   end).

Definition once_ (event : TouchIDEventType) (h : HandlerId) : M JsEnv unit :=
  (if_absent <- gets (fun s => negb (Map_has event (listeners s))) ;;
   (if if_absent then modify (set_listeners (Map_set event []))
    else ret tt) ;;
   modify (set_listeners
             (push_listener event {| handler := h; once := true |}))).

Definition removeAllListeners (event : option TouchIDEventType)
  : M JsEnv unit :=
  match event with
  | Some e => modify (set_listeners (Map_delete e))
  | None => modify (set_listeners Map_clear)
  end.

Definition perform (c : EmitterCall) : M JsEnv unit :=
  match c with
  | CallOn e h => on e h
  | CallOnce e h => once_ e h
  | CallOff e h => off e h
  | CallRemoveAllListeners e => removeAllListeners e
  end.

(** [listener.handler(data)] *)
Definition call_handler (behaviour : Behaviour) (l : EventListener)
  (d : EventData) : M JsEnv unit :=
  (run <- gets (fun s => behaviour s (handler l) d) ;;
   modify (log_invoked (handler l) d) ;;
   for_of (emitter_calls run) perform ;;
   match throws run with
   | Some e => throw e
   | None => ret tt
   end).

Definition emit (behaviour : Behaviour) (event : TouchIDEventType)
  (d : EventData) : M JsEnv unit :=
  (found <- gets (fun s => Map_get event (listeners s)) ;;
   match found with
   | None => ret tt
   | Some eventListeners =>
       if Nat.eqb (List.length eventListeners) 0 then ret tt
       else
         let listenersToExecute := eventListeners in
         let remainingListeners :=
           filter (fun listener => negb (once listener)) eventListeners in
         modify (set_listeners (Map_set event remainingListeners)) ;;
         for_of listenersToExecute (fun listener =>
           try_catch (call_handler behaviour listener d)
             (fun err =>
                modify (log_console (console_handler_error event err))))
   end).

Definition listenerCount (event : TouchIDEventType) (s : JsEnv) : nat :=
  match Map_get event (listeners s) with
  | Some eventListeners => List.length eventListeners
  | None => O
  end.

Definition eventNames (s : JsEnv) : list TouchIDEventType :=
  Map_keys (listeners s).

(** ** The Biometric Provider: the loaded native module *)

(** The value a provider promise resolves with.  [result.success] and
    [result.error] are read for their truthiness; reading a property of
    [undefined] or [null] throws a TypeError. *)
Inductive JsResult :=
| Nullish
| ResultObject (r_success : bool) (r_data : option DeviceData)
    (r_error : option jsstring).

Inductive Settled (A : Type) :=
| Resolved (a : A)
| Rejected (e : Thrown).

Arguments Resolved {A} a.
Arguments Rejected {A} e.

(** The argument object [{ reason, method, ttl }] of [promptTouchID]. *)
Record PromptArgs := {
  p_reason : jsstring;
  p_method : TouchIDMethod;
  p_ttl : Z
}.

(** A native module with private state [P].  A member that is not a
    function is [None]; a member that is one takes the provider state and
    the time of the call, and gives how the returned promise settles,
    the next provider state, and the time at which it settles.  A call
    that throws before returning a promise is a rejection for the
    [await] that receives it.  [canPromptTouchID] answers with a boolean
    ([Napi::Boolean]), and every call settles. *)
Record Provider (P : Type) := {
  canPromptTouchID : option (P -> Z -> Settled bool * P * Z);
  promptTouchID : option (PromptArgs -> P -> Z -> Settled JsResult * P * Z);
  getBiometricInfo : option (P -> Z -> Settled BiometricInfo * P * Z)
}.

Inductive ProviderCall :=
| called_canPromptTouchID
| called_promptTouchID (args : PromptArgs)
| called_getBiometricInfo.

(** ** touchid.ts *)

(** [_init] suspended at [await import('module')]: its [startTime], the
    number of timer turns of a polling caller that pass before it is
    resumed, and whether loading the native addon then throws. *)
Record PendingInit := {
  startTime : Z;
  turns_left : nat;
  load_failure : option Thrown
}.

Record World (P : Type) := {
  darwin : bool;                      (* os.platform() === 'darwin' *)
  clock : Z;                          (* Date.now() *)
  nativeModule : bool;                (* this.nativeModule is not null *)
  initialized : bool;                 (* this.initialized *)
  pending : option PendingInit;
  provider : P;
  provider_calls : list ProviderCall;
  emitted : list EventData;           (* arguments of eventEmitter.emit *)
  js : JsEnv                          (* this.eventEmitter and the console *)
}.

Section Setters.
Context {P : Type}.

Definition set_clock (t : Z) (w : World P) : World P :=
  {| darwin := darwin w; clock := t; nativeModule := nativeModule w;
     initialized := initialized w; pending := pending w;
     provider := provider w; provider_calls := provider_calls w;
     emitted := emitted w; js := js w |}.

Definition set_nativeModule (b : bool) (w : World P) : World P :=
  {| darwin := darwin w; clock := clock w; nativeModule := b;
     initialized := initialized w; pending := pending w;
     provider := provider w; provider_calls := provider_calls w;
     emitted := emitted w; js := js w |}.

Definition set_initialized (b : bool) (w : World P) : World P :=
  {| darwin := darwin w; clock := clock w; nativeModule := nativeModule w;
     initialized := b; pending := pending w;
     provider := provider w; provider_calls := provider_calls w;
     emitted := emitted w; js := js w |}.

Definition set_pending (p : option PendingInit) (w : World P) : World P :=
  {| darwin := darwin w; clock := clock w; nativeModule := nativeModule w;
     initialized := initialized w; pending := p;
     provider := provider w; provider_calls := provider_calls w;
     emitted := emitted w; js := js w |}.

Definition set_provider (p : P) (c : ProviderCall) (t : Z) (w : World P)
  : World P :=
  {| darwin := darwin w; clock := t; nativeModule := nativeModule w;
     initialized := initialized w; pending := pending w;
     provider := p; provider_calls := provider_calls w ++ [c];
     emitted := emitted w; js := js w |}.

Definition set_js (e : option EventData) (j : JsEnv) (w : World P)
  : World P :=
  {| darwin := darwin w; clock := clock w; nativeModule := nativeModule w;
     initialized := initialized w; pending := pending w;
     provider := provider w; provider_calls := provider_calls w;
     emitted := match e with
                | Some d => emitted w ++ [d]
                | None => emitted w
                end;
     js := j |}.
End Setters.

(** function isMacOs *)
Definition isMacOs {P} : M (World P) bool := gets (@darwin P).

Definition Date_now {P} : M (World P) Z := gets (@clock P).

Definition console_warn {P} (msg : jsstring) : M (World P) unit :=
  fun w => (Normal tt, set_js None (log_console (console_warn_line msg) (js w)) w).

Definition console_error {P} (msg : jsstring) (err : Thrown)
  : M (World P) unit :=
  fun w =>
    (Normal tt, set_js None (log_console (console_error_line msg err) (js w)) w).

(** Validation result of [validateOptions] *)
Record Validation := {
  valid : bool;
  v_error : option jsstring
}.

Definition validateOptions (options : TouchIDOptions) : Validation :=
  if match ttl options with
     | Some t => (t <? 1000) || (t >? 300000)
     | None => false
     end
  then {| valid := false;
          v_error := Some (str "TTL must be between 1000 and 300000 milliseconds") |}
  else if match reason options with
          | Some r => Nat.eqb (List.length (trim r)) 0
          | None => false
          end
  then {| valid := false; v_error := Some (str "Reason cannot be empty") |}
  else {| valid := true; v_error := None |}.

(** [validation.error!]: the non-null assertion is erased at run time;
    the field is always set when [valid] is false. *)
Definition assert_defined (e : option jsstring) : jsstring :=
  match e with Some s => s | None => [] end.

Definition failure (e : jsstring) : TouchIDResult :=
  {| success := false; error := Some e; data := None |}.

Section Service.
Context {P : Type}.
Variable native : Provider P.
Variable behaviour : Behaviour.
(** The message of the TypeError that the engine throws on reading a
    property of [undefined] or [null]. *)
Variable typeErrorMessage : jsstring.

Local Abbreviation W := (World P).

(** [this.eventEmitter.emit(event, data)] *)
Definition emit_event (d : EventData) : M W unit :=
  fun w =>
    let (c, j) := emit behaviour (event_of d) d (js w) in
    (c, set_js (Some d) j w).

(** [await f(...)] on a member of the native module. *)
Definition await_native {A} (c : ProviderCall)
  (f : P -> Z -> Settled A * P * Z) : M W A :=
  fun w =>
    let '(r, p, t) := f (provider w) (clock w) in
    let w' := set_provider p c t w in
    match r with
    | Resolved a => (Normal a, w')
    | Rejected e => (Throw e, w')
    end.

(** The body of [_init] up to [await import('module')]. *)
Definition _init (import_turns : nat) (load : option Thrown) : M W unit :=
  (startTime <- Date_now ;;
   emit_event (InitializationStart startTime) ;;
   mac <- isMacOs ;;
   if negb mac then
     console_warn (str "Touch ID is only available on macOS - skipping native module load") ;;
     modify (set_nativeModule false) ;;
     modify (set_initialized true) ;;
     now <- Date_now ;;
     emit_event (InitializationError now (str "Touch ID is only available on macOS"))
   else
     modify (set_pending (Some {| startTime := startTime;
                                  turns_left := import_turns;
                                  load_failure := load |}))).

(** The rest of [_init], run when the import has settled. *)
Definition _init_resume (p : PendingInit) : M W unit :=
  try_catch
    (match load_failure p with
     | Some e => throw e
     | None => ret tt
     end ;;
     modify (set_nativeModule true) ;;
     modify (set_initialized true) ;;
     now <- Date_now ;;
     now' <- Date_now ;;
     emit_event (InitializationComplete now (now' - startTime p)))
    (fun error =>
       console_warn (str "Touch ID native module not available:") ;;
       modify (set_nativeModule false) ;;
       modify (set_initialized true) ;;
       now <- Date_now ;;
       emit_event (InitializationError now
                     (message_or error (str "Unknown initialization error")))).

(** One turn of the event loop seen by a caller that polls:
    [await new Promise(resolve => setTimeout(resolve, 10))]. *)
Definition timer_turn : M W unit :=
  (modify (fun w => set_clock (clock w + 10) w) ;;
   p <- gets (@pending P) ;;
   match p with
   | None => ret tt
   | Some i =>
       match turns_left i with
       | O => modify (set_pending None) ;; _init_resume i
       | S n =>
           modify (set_pending (Some {| startTime := startTime i;
                                        turns_left := n;
                                        load_failure := load_failure i |}))
       end
   end).

(** [while (!this.initialized) { await ... }], at most [bound] turns. *)
Fixpoint waitForInit (bound : nat) : M W unit :=
  (ready <- gets (@initialized P) ;;
   if ready then ret tt
   else match bound with
        | O => fun w => (Waiting, w)
        | S b => timer_turn ;; waitForInit b
        end).

Definition isAvailable (bound : nat) : M W bool :=
  (mac <- isMacOs ;;
   if negb mac then
     console_warn (str "Touch ID is only available on macOS") ;;
     now <- Date_now ;;
     emit_event (DeviceUnavailable now (str "Touch ID is only available on macOS")) ;;
     ret false
   else
     waitForInit bound ;;
     loaded <- gets (@nativeModule P) ;;
     if negb loaded then
       now <- Date_now ;;
       emit_event (DeviceUnavailable now (str "Touch ID native module not available")) ;;
       ret false
     else
       try_catch
         (match canPromptTouchID native with
          | Some f =>
              available <- await_native called_canPromptTouchID f ;;
              now <- Date_now ;;
              (if available : bool
               then emit_event (DeviceAvailable now (str "TouchID"))
               else emit_event (DeviceUnavailable now
                                  (str "Touch ID not available on this device"))) ;;
              ret available
          | None =>
              throw (ErrorObject (str "canPromptTouchID function not available"))
          end)
         (fun error =>
            console_error (str "Error checking Touch ID availability:") error ;;
            now <- Date_now ;;
            emit_event (DeviceUnavailable now
                          (message_or error (str "Unknown error"))) ;;
            ret false)).

Definition info_of (available : bool) (type value : jsstring)
  : BiometricInfo :=
  {| bi_biometricsAvailable := available; bi_biometryType := type;
     bi_deviceSerial := value; bi_deviceModel := value;
     bi_systemVersion := value; bi_hardwareUUID := value |}.

Definition service_getBiometricInfo (bound : nat) : M W BiometricInfo :=
  (mac <- isMacOs ;;
   if negb mac then
     console_warn (str "Touch ID is only available on macOS") ;;
     ret (info_of false (str "Unsupported") (str "Unsupported Platform"))
   else
     waitForInit bound ;;
     loaded <- gets (@nativeModule P) ;;
     if negb loaded then ret (info_of false (str "None") [])
     else
       try_catch
         (match getBiometricInfo native with
          | Some f => await_native called_getBiometricInfo f
          | None =>
              throw (ErrorObject (str "getBiometricInfo function not available"))
          end)
         (fun error =>
            console_error (str "Error getting biometric info:") error ;;
            ret (info_of false (str "None") (str "Error")))).

Definition authenticate (bound : nat) (options : TouchIDOptions)
  : M W TouchIDResult :=
  (startTime <- Date_now ;;
   let method :=
     match method options with Some m => m | None => direct end in
   let reason := string_or (reason options) (str "Authenticate with Touch ID") in
   emit_event (AuthenticationStart startTime method reason) ;;
   mac <- isMacOs ;;
   if negb mac then
     console_warn (str "Touch ID is only available on macOS") ;;
     now <- Date_now ;;
     let duration := now - startTime in
     now <- Date_now ;;
     emit_event (AuthenticationFailure now method NOT_AVAILABLE duration) ;;
     ret (failure NOT_AVAILABLE)
   else
     let validation := validateOptions options in
     if negb (valid validation) then
       now <- Date_now ;;
       let duration := now - startTime in
       now <- Date_now ;;
       emit_event (AuthenticationFailure now method
                     (assert_defined (v_error validation)) duration) ;;
       ret (failure (assert_defined (v_error validation)))
     else
       waitForInit bound ;;
       loaded <- gets (@nativeModule P) ;;
       if negb loaded then
         now <- Date_now ;;
         let duration := now - startTime in
         now <- Date_now ;;
         emit_event (AuthenticationFailure now method
                       (str "Touch ID native module not available") duration) ;;
         ret (failure (str "Touch ID native module not available"))
       else
         try_catch
           (let ttl :=
              match ttl options with
              | Some t => if t =? 0 then 30000 else t
              | None => 30000
              end in
            match promptTouchID native with
            | None =>
                throw (ErrorObject (str "promptTouchID function not available"))
            | Some f =>
                let args := {| p_reason := reason; p_method := method;
                               p_ttl := ttl |} in
                result <- await_native (called_promptTouchID args) (f args) ;;
                now <- Date_now ;;
                let duration := now - startTime in
                match result with
                | Nullish => throw (ErrorObject typeErrorMessage)
                | ResultObject r_success r_data r_error =>
                    (if r_success then
                       (match method with
                        | cached =>
                            now <- Date_now ;;
                            emit_event (CacheCreated now ttl)
                        | direct => ret tt
                        end) ;;
                       now <- Date_now ;;
                       emit_event (AuthenticationSuccess now method duration r_data)
                     else
                       now <- Date_now ;;
                       emit_event (AuthenticationFailure now method
                                     (string_or r_error (str "Unknown error"))
                                     duration)) ;;
                    ret {| success := true; error := None; data := r_data |}
                end
            end)
           (fun error =>
              let errorMessage := message_or error (str "Unknown error") in
              mappedError <-
                (if includes errorMessage (str "not available") then
                   ret NOT_AVAILABLE
                 else if includes errorMessage (str "not enrolled") then
                   ret NOT_ENROLLED
                 else if includes errorMessage (str "locked out") then
                   now <- Date_now ;;
                   emit_event (DeviceLockout now 300000 LOCKOUT) ;;
                   ret LOCKOUT
                 else if includes errorMessage (str "cancelled")
                         || includes errorMessage (str "canceled") then
                   now <- Date_now ;;
                   let duration := now - startTime in
                   now <- Date_now ;;
                   emit_event (AuthenticationCancel now method duration) ;;
                   ret USER_CANCEL
                 else if includes errorMessage (str "passcode not set") then
                   ret PASSCODE_NOT_SET
                 else if includes errorMessage (str "not interactive") then
                   ret NOT_INTERACTIVE
                 else ret errorMessage) ;;
              now <- Date_now ;;
              let duration := now - startTime in
              now <- Date_now ;;
              emit_event (AuthenticationFailure now method mappedError duration) ;;
              ret (failure mappedError))).

(** [test()], whose errors are meant for the caller. *)
Definition test (bound : nat) : M W unit :=
  (available <- isAvailable bound ;;
   if available : bool then
     result <- authenticate bound
                 {| reason := Some (str "Test Touch ID authentication");
                    method := None; ttl := None |} ;;
     if negb (success result) then
       throw (ErrorObject
                (str "Touch ID test failed: "
                   ++ match error result with
                      | Some e => e
                      | None => str "undefined"
                      end))
     else ret tt
   else throw (ErrorObject (str "Touch ID is not available on this device"))).

(** [new TouchIDService()]: a fresh emitter, then [this.init()], which
    runs [_init] up to its first [await]. *)
Definition new_TouchIDService (is_darwin : bool) (now : Z) (p : P)
  (import_turns : nat) (load : option Thrown) : W :=
  snd (_init import_turns load
         {| darwin := is_darwin; clock := now; nativeModule := false;
            initialized := false; pending := None; provider := p;
            provider_calls := []; emitted := [];
            js := new_TouchIDEventEmitterImpl |}).
End Service.

(** ** native/touchid.mm *)

(** [double], [NSTimeInterval]: IEEE 754 binary64, with the operations
    the code uses.  An [NSDate] is the double of its seconds since the
    reference date. *)
Definition double := spec_float.

Definition double_of_int (n : Z) : double := binary_normalize 53 1024 n 0 false.
Definition double_sub (a b : double) : double := SFsub 53 1024 a b.
Definition double_div (a b : double) : double := SFdiv 53 1024 a b.
Definition double_lt (a b : double) : bool := SFltb a b.
Definition double_ge (a b : double) : bool := SFleb b a.

(** [[a timeIntervalSinceDate:b]] *)
Definition timeIntervalSinceDate (a b : double) : double := double_sub a b.

(** The largest integer that is not above a finite double. *)
Definition double_floor (d : double) : option Z :=
  match d with
  | S754_zero _ => Some 0
  | S754_finite s m e => Some (Z.shiftl (if s then Zneg m else Zpos m) e)
  | S754_infinity _ | S754_nan => None
  end.

(** A date as it comes back from a property list: [writeToFile:atomically:]
    writes the XML format, whose [<date>] element has the form
    YYYY-MM-DDThh:mm:ssZ, so the fraction of the second is dropped.  (A
    date that is not finite is not a reading of the clock; it is left as
    it is.) *)
Definition plist_date (d : double) : double :=
  match double_floor d with
  | Some n => double_of_int n
  | None => d
  end.

(** The contents of [touchid_cache.plist]: the three keys that
    [saveCache] writes.  A key that is missing reads as [nil], [NO], [0].
    The [<real>] element keeps a double as it is. *)
Record CacheFile := {
  f_lastAuthTime : option double;
  f_isCached : bool;
  f_cacheTTL : double
}.

(** The reply of [evaluatePolicy:localizedReason:reply:]: the [NSError],
    if any, and the time the user took, in milliseconds. *)
Record LAReply := {
  la_error : option jsstring;
  la_elapsed : Z
}.

(** What the machine answers to the native module. *)
Record Device := {
  macos_10_12_2 : bool;
  macos_10_13_2 : bool;
  canEvaluateBiometrics : bool;
  biometryIsTouchID : bool;
  canEvaluateOwner : bool;
  evaluatePolicy : nat -> LAReply;     (* the reply to the n-th prompt *)
  NSDate_date : Z -> double;           (* [NSDate date] when Date.now() is
                                          the given number of milliseconds *)
  deviceData : DeviceData;             (* what the resolve callback collects *)
  collect_elapsed : Z;                 (* the time it takes to collect it *)
  biometricInfo : BiometricInfo        (* what GetBiometricInfo collects *)
}.

(** The globals [lastAuthTime], [isCached], [cacheTTL], the cache file,
    and the number of prompts shown so far. *)
Record NativeState := {
  lastAuthTime : option double;
  isCached : bool;
  cacheTTL : double;
  cacheFile : option CacheFile;
  prompts : nat
}.

(** The globals as the module is loaded, with whatever file a previous
    process left. *)
Definition native_start (file : option CacheFile) : NativeState :=
  {| lastAuthTime := None; isCached := false; cacheTTL := double_of_int 30;
     cacheFile := file; prompts := 0 |}.

(** [Napi::Number::Int32Value]: the number modulo 2^32, as a signed int. *)
Definition Int32Value (n : Z) : Z :=
  let m := n mod 4294967296 in
  if m <? 2147483648 then m else m - 4294967296.

(** [ttl / 1000.0] for an [int ttl]. *)
Definition ttl_seconds (ttl : Z) : double :=
  double_div (double_of_int ttl) (double_of_int 1000).

Definition CanPromptTouchID (dev : Device) : bool :=
  if macos_10_12_2 dev then
    let can_evaluate :=
      if canEvaluateBiometrics dev then
        if macos_10_13_2 dev then biometryIsTouchID dev else true
      else false in
    if negb can_evaluate then canEvaluateOwner dev else can_evaluate
  else false.

(** [loadCache], with [now] the reading of [[NSDate date]]. *)
Definition loadCache (now : double) (s : NativeState) : NativeState :=
  match cacheFile s with
  | None => s
  | Some cacheData =>
      let lastAuthTime := f_lastAuthTime cacheData in
      let isCached := f_isCached cacheData in
      let cacheTTL := f_cacheTTL cacheData in
      match lastAuthTime with
      | Some t =>
          if isCached
             && double_ge (timeIntervalSinceDate now t) cacheTTL
          then {| lastAuthTime := None; isCached := false;
                  cacheTTL := cacheTTL; cacheFile := cacheFile s;
                  prompts := prompts s |}
          else {| lastAuthTime := lastAuthTime; isCached := isCached;
                  cacheTTL := cacheTTL; cacheFile := cacheFile s;
                  prompts := prompts s |}
      | None =>
          {| lastAuthTime := lastAuthTime; isCached := isCached;
             cacheTTL := cacheTTL; cacheFile := cacheFile s;
             prompts := prompts s |}
      end
  end.

(** [saveCache] writes the three globals; the date reads back from the
    file as [plist_date] has it.  With [lastAuthTime] nil the dictionary
    holds an [NSNull], which is not a property list, and nothing is
    written. *)
Definition saveCache (s : NativeState) : NativeState :=
  match lastAuthTime s with
  | Some t =>
      {| lastAuthTime := lastAuthTime s; isCached := isCached s;
         cacheTTL := cacheTTL s;
         cacheFile := Some {| f_lastAuthTime := Some (plist_date t);
                              f_isCached := isCached s;
                              f_cacheTTL := cacheTTL s |};
         prompts := prompts s |}
  | None => s
  end.

(** "Check if we can use cached authentication": the value of [useCache]
    and the globals after the check, with [ttl] the [int] read from the
    options and [now] the reading of [[NSDate date]]. *)
Definition check_cache (method : TouchIDMethod) (ttl : Z) (now : double)
  (s : NativeState) : bool * NativeState :=
  match method with
  | cached =>
      let s1 := {| lastAuthTime := lastAuthTime s; isCached := isCached s;
                   cacheTTL := ttl_seconds ttl; cacheFile := cacheFile s;
                   prompts := prompts s |} in
      match lastAuthTime s1 with
      | Some t =>
          if isCached s1 then
            if double_lt (timeIntervalSinceDate now t) (cacheTTL s1)
            then (true, s1)
            else (false, {| lastAuthTime := lastAuthTime s1; isCached := false;
                            cacheTTL := cacheTTL s1; cacheFile := cacheFile s1;
                            prompts := prompts s1 |})
          else (false, s1)
      | None => (false, s1)
      end
  | direct => (false, s)
  end.

(** "Update cache state on successful authentication", in the resolve
    callback of the prompt, with [now] the reading of [[NSDate date]]. *)
Definition record_success (method : TouchIDMethod) (now : double)
  (s : NativeState) : NativeState :=
  match method with
  | cached =>
      saveCache {| lastAuthTime := Some now; isCached := true;
                   cacheTTL := cacheTTL s; cacheFile := cacheFile s;
                   prompts := prompts s |}
  | direct => s
  end.

Definition count_prompt (s : NativeState) : NativeState :=
  {| lastAuthTime := lastAuthTime s; isCached := isCached s;
     cacheTTL := cacheTTL s; cacheFile := cacheFile s;
     prompts := S (prompts s) |}.

(** [PromptTouchID], called when [Date.now()] is [now]. *)
Definition PromptTouchID (dev : Device) (args : PromptArgs)
  (s : NativeState) (now : Z) : Settled JsResult * NativeState * Z :=
  let method := p_method args in
  let ttl := Int32Value (p_ttl args) in
  let s := loadCache (NSDate_date dev now) s in
  let (useCache, s) := check_cache method ttl (NSDate_date dev now) s in
  if useCache then
    (Resolved (ResultObject true (Some (deviceData dev)) None), s,
     now + collect_elapsed dev)
  else
    let reply := evaluatePolicy dev (prompts s) in
    let s := count_prompt s in
    let now := now + la_elapsed reply in
    match la_error reply with
    | Some err_str => (Rejected (ThrownString err_str), s, now)
    | None =>
        (Resolved (ResultObject true (Some (deviceData dev)) None),
         record_success method (NSDate_date dev now) s,
         now + collect_elapsed dev)
    end.

(** The exports of the native module ([Init]). *)
Definition touchid_native (dev : Device) : Provider NativeState :=
  {| canPromptTouchID :=
       Some (fun s now => (Resolved (CanPromptTouchID dev), s, now));
     promptTouchID := Some (PromptTouchID dev);
     getBiometricInfo :=
       Some (fun s now => (Resolved (biometricInfo dev), s, now)) |}.

(** ** Observations on the emitter *)

(** The listeners that a registry holds for an event. *)
Definition lookup (event : TouchIDEventType) (m : Registry)
  : list EventListener :=
  match Map_get event m with
  | Some eventListeners => eventListeners
  | None => []
  end.

(** The listeners registered for an event, in the order of dispatch. *)
Definition registered (event : TouchIDEventType) (s : JsEnv)
  : list EventListener :=
  lookup event (listeners s).

(** The registry that a call on the emitter leaves. *)
Definition registry_after (c : EmitterCall) (m : Registry) : Registry :=
  listeners (snd (perform c {| listeners := m; invoked := []; console := [] |})).

(** The emitter after one guarded invocation of a listener, in a
    dispatch for [event] with payload [d]: the handler has run on what it
    saw, its calls have been applied, and its error, if any, is on the
    console. *)
Definition handler_step (behaviour : Behaviour) (event : TouchIDEventType)
  (d : EventData) (s : JsEnv) (l : EventListener) : JsEnv :=
  let run := behaviour s (handler l) d in
  {| listeners :=
       fold_left (fun m c => registry_after c m) (emitter_calls run)
         (listeners s);
     invoked := invoked s ++ [(handler l, d)];
     console :=
       console s ++ match throws run with
                    | Some e => [console_handler_error event e]
                    | None => []
                    end |}.

(** The emitter after the dispatch to a snapshot of listeners. *)
Definition dispatch_result (behaviour : Behaviour) (event : TouchIDEventType)
  (d : EventData) (snapshot : list EventListener) (s : JsEnv) : JsEnv :=
  fold_left (handler_step behaviour event d) snapshot s.

(** The emitter as [emit] leaves it before the first handler runs: the
    entry of [event] holds the listeners that are not once-listeners. *)
Definition pruned (event : TouchIDEventType) (s : JsEnv) : JsEnv :=
  set_listeners
    (Map_set event (filter (fun l => negb (once l)) (registered event s))) s.

(** How many times a handler has been invoked. *)
Definition times_invoked (h : HandlerId) (log : list (HandlerId * EventData))
  : nat :=
  List.length (filter (fun x => Nat.eqb (fst x) h) log).

(** How many entries a handler has in a list of listeners. *)
Definition entries_of (h : HandlerId) (l : list EventListener) : nat :=
  List.length (filter (fun x => Nat.eqb (handler x) h) l).

(** A call that adds a listener [h] for [event]. *)
Definition registers (event : TouchIDEventType) (h : HandlerId)
  (c : EmitterCall) : Prop :=
  c = CallOn event h \/ c = CallOnce event h.

(** A call that can remove the registry entry of [event]. *)
Definition may_remove_entry (event : TouchIDEventType) (c : EmitterCall)
  : Prop :=
  (exists h, c = CallOff event h)
  \/ c = CallRemoveAllListeners (Some event)
  \/ c = CallRemoveAllListeners None.

(** ** Observations on the service *)

(** The method, the reason and the ttl that [authenticate] works with:
    [options.method || 'direct'], [options.reason || '...'],
    [options.ttl || 30000]. *)
Definition method_of (options : TouchIDOptions) : TouchIDMethod :=
  match method options with Some m => m | None => direct end.

Definition reason_of (options : TouchIDOptions) : jsstring :=
  string_or (reason options) (str "Authenticate with Touch ID").

Definition ttl_of (options : TouchIDOptions) : Z :=
  match ttl options with
  | Some t => if t =? 0 then 30000 else t
  | None => 30000
  end.

(** The argument object that [authenticate] passes to [promptTouchID]. *)
Definition prompt_args (options : TouchIDOptions) : PromptArgs :=
  {| p_reason := reason_of options; p_method := method_of options;
     p_ttl := ttl_of options |}.

(** The messages of [validateOptions]. *)
Definition TTL_MESSAGE : jsstring :=
  str "TTL must be between 1000 and 300000 milliseconds".

Definition REASON_MESSAGE : jsstring := str "Reason cannot be empty".

(** The two ways the options of a call can be invalid. *)
Definition ttl_out_of_range (options : TouchIDOptions) : Prop :=
  exists t, ttl options = Some t /\ (t < 1000 \/ 300000 < t).

Definition reason_blank (options : TouchIDOptions) : Prop :=
  exists r, reason options = Some r /\ trim r = [].

(** A service that has finished loading its native module on macOS. *)
Definition ready {P} (w : World P) : Prop :=
  darwin w = true /\ initialized w = true /\ nativeModule w = true.

(** The world a call leaves: the platform and the module stay as they
    were; the clock, the provider, the calls made on it, the events
    emitted and the emitter are as given. *)
Definition after {P} (w : World P) (t : Z) (p : P)
  (calls : list ProviderCall) (events : list EventData) (j : JsEnv)
  : World P :=
  {| darwin := darwin w; clock := t; nativeModule := nativeModule w;
     initialized := initialized w; pending := pending w;
     provider := p; provider_calls := provider_calls w ++ calls;
     emitted := emitted w ++ events; js := j |}.

(** The events that a call added to the record of emitted events. *)
Definition new_events {P} (w w' : World P) : list EventData :=
  skipn (List.length (emitted w)) (emitted w').

(** The types of a list of events, in order. *)
Definition event_types (events : list EventData) : list TouchIDEventType :=
  List.map event_of events.

(** Events that are not [cache:*] events. *)
Definition no_cache_events (events : list EventData) : Prop :=
  Forall (fun ev => is_cache_event (event_of ev) = false) events.

(** The error that the [catch] clause of [authenticate] reports for a
    caught value, and the events it emits before
    [authentication:failure]. *)
Definition mapped_error (caught : Thrown) : jsstring :=
  let errorMessage := message_or caught (str "Unknown error") in
  if includes errorMessage (str "not available") then NOT_AVAILABLE
  else if includes errorMessage (str "not enrolled") then NOT_ENROLLED
  else if includes errorMessage (str "locked out") then LOCKOUT
  else if includes errorMessage (str "cancelled")
          || includes errorMessage (str "canceled") then USER_CANCEL
  else if includes errorMessage (str "passcode not set") then PASSCODE_NOT_SET
  else if includes errorMessage (str "not interactive") then NOT_INTERACTIVE
  else errorMessage.

Definition classification_events (caught : Thrown) (m : TouchIDMethod)
  (now duration : Z) : list EventData :=
  let errorMessage := message_or caught (str "Unknown error") in
  if includes errorMessage (str "not available") then []
  else if includes errorMessage (str "not enrolled") then []
  else if includes errorMessage (str "locked out")
  then [DeviceLockout now 300000 LOCKOUT]
  else if includes errorMessage (str "cancelled")
          || includes errorMessage (str "canceled")
  then [AuthenticationCancel now m duration]
  else [].

(** The events of a call of [authenticate] whose prompt settles at [t]. *)
Definition resolved_events (options : TouchIDOptions) (t0 t : Z)
  (r_success : bool) (r_data : option DeviceData) (r_error : option jsstring)
  : list EventData :=
  AuthenticationStart t0 (method_of options) (reason_of options)
  :: (if r_success then
        match method_of options with
        | cached => [CacheCreated t (ttl_of options)]
        | direct => []
        end
        ++ [AuthenticationSuccess t (method_of options) (t - t0) r_data]
      else
        [AuthenticationFailure t (method_of options)
           (string_or r_error (str "Unknown error")) (t - t0)]).

Definition caught_events (options : TouchIDOptions) (t0 t : Z)
  (caught : Thrown) : list EventData :=
  AuthenticationStart t0 (method_of options) (reason_of options)
  :: classification_events caught (method_of options) t (t - t0)
  ++ [AuthenticationFailure t (method_of options) (mapped_error caught)
        (t - t0)].

(** The native module is loaded, or its import settles, before a caller
    has polled [bound] times. *)
Definition due {P} (bound : nat) (w : World P) : Prop :=
  initialized w = true
  \/ exists i, pending w = Some i /\ (turns_left i < bound)%nat.

(** What a world keeps of an earlier one while the service initializes:
    the platform, the provider and the calls made on it; the events
    added are not [cache:*] events. *)
Definition init_step {P} (w w' : World P) : Prop :=
  darwin w' = darwin w /\ provider w' = provider w
  /\ provider_calls w' = provider_calls w
  /\ exists evs, emitted w' = emitted w ++ evs /\ no_cache_events evs.


(** What a call of [authenticate] guarantees, whatever the provider,
    the handlers and the state of the service: the completion [c] and
    the world [w'] it leaves from [w]. *)
Definition authenticate_post {P} (options : TouchIDOptions) (bound : nat)
  (w : World P) (c : Completion TouchIDResult) (w' : World P) : Prop :=
  darwin w' = darwin w
  /\ (exists evs, emitted w' = emitted w ++ evs
                  /\ (method_of options = direct -> no_cache_events evs))
  /\ match c with
     | Normal r =>
         (error r <> None -> success r = false)
         /\ (darwin w = true -> valid (validateOptions options) = true ->
             initialized w' = true)
     | Throw _ => False
     | Waiting => ~ due bound w
     end.

(** What a call of [isAvailable] or of [getBiometricInfo] guarantees. *)
Definition query_post {P A} (bound : nat) (w : World P) (c : Completion A)
  (w' : World P) : Prop :=
  darwin w' = darwin w
  /\ match c with
     | Normal _ => darwin w = true -> initialized w' = true
     | Throw _ => False
     | Waiting => ~ due bound w
     end.

(** ** Concrete inputs *)

(** Handlers that do nothing. *)
Definition quiet : Behaviour :=
  fun _ _ _ => {| emitter_calls := []; throws := None |}.

(** Handler 1 throws, the first time it is invoked; handler 2 registers
    itself again with [once]; handler 3 adds handler 4 and removes
    handler 1; the others do nothing. *)
Definition unruly : Behaviour :=
  fun s h _ =>
    match h with
    | 1%nat => {| emitter_calls := [];
                  throws := match invoked s with
                            | [] => Some (ErrorObject (str "boom"))
                            | _ :: _ => None
                            end |}
    | 2%nat => {| emitter_calls := [CallOnce initialization_complete 2%nat];
                  throws := None |}
    | 3%nat => {| emitter_calls := [CallOn initialization_complete 4%nat;
                                    CallOff initialization_complete 1%nat];
                  throws := None |}
    | _ => {| emitter_calls := []; throws := None |}
    end.

(** An emitter after [on(e, 1)], [once(e, 2)], [on(e, 3)] for
    [e = 'initialization:complete']. *)
Definition three_listeners : JsEnv :=
  snd ((on initialization_complete 1%nat ;;
        once_ initialization_complete 2%nat ;;
        on initialization_complete 3%nat) new_TouchIDEventEmitterImpl).

(** An emitter after [once(e, 5)], [once(e, 6)]. *)
Definition two_once_listeners : JsEnv :=
  snd ((once_ initialization_complete 5%nat ;;
        once_ initialization_complete 6%nat) new_TouchIDEventEmitterImpl).

Definition engine_message : jsstring :=
  str "Cannot read properties of undefined (reading 'success')".

(** A provider stub that always declines: its challenge resolves with
    [{ success: false, error: 'Authentication failed' }]. *)
Definition declining : Provider unit :=
  {| canPromptTouchID := Some (fun s now => (Resolved true, s, now));
     promptTouchID :=
       Some (fun _ s now =>
               (Resolved (ResultObject false None (Some AUTHENTICATION_FAILED)),
                s, now + 1500));
     getBiometricInfo := None |}.

(** A provider whose availability check throws. *)
Definition faulty : Provider unit :=
  {| canPromptTouchID :=
       Some (fun s now =>
               (Rejected (ErrorObject (str "LAContext unavailable")), s, now));
     promptTouchID := None;
     getBiometricInfo := None |}.

(** A service on macOS whose native module has loaded. *)
Definition mac_service {P} (p : P) : World P :=
  snd (waitForInit quiet 1 (new_TouchIDService quiet true 0 p 0 None)).

(** A service on macOS whose native module failed to load. *)
Definition mac_service_without_module {P} (p : P) : World P :=
  snd (waitForInit quiet 1
         (new_TouchIDService quiet true 0 p 0
            (Some (ErrorObject (str "Cannot find module"))))).

(** A service on macOS just constructed: the import is pending. *)
Definition mac_service_loading {P} (p : P) : World P :=
  new_TouchIDService quiet true 0 p 3 None.

(** A service constructed on another platform. *)
Definition linux_service {P} (p : P) : World P :=
  new_TouchIDService quiet false 0 p 0 None.

(** The clock of a Mac as [NSDate] reads it, when [Date.now()] is [ms]:
    the seconds since the first of January 2001, which is 978307200
    seconds after the epoch of [Date.now()]. *)
Definition seconds_since_2001 (ms : Z) : double :=
  double_div (double_of_int (ms - 978307200000)) (double_of_int 1000).

(** A Mac with Touch ID whose user answers the prompt after two
    seconds. *)
Definition a_mac : Device :=
  {| macos_10_12_2 := true; macos_10_13_2 := true;
     canEvaluateBiometrics := true; biometryIsTouchID := true;
     canEvaluateOwner := true;
     evaluatePolicy := fun _ => {| la_error := None; la_elapsed := 2000 |};
     NSDate_date := seconds_since_2001;
     deviceData := {| dd_biometryType := str "TouchID";
                      dd_hardwareUUID := str "UUID";
                      dd_deviceSerial := str "SERIAL";
                      dd_deviceModel := str "Mac";
                      dd_systemVersion := str "14.0" |};
     collect_elapsed := 300;
     biometricInfo := {| bi_biometricsAvailable := true;
                         bi_biometryType := str "TouchID";
                         bi_deviceSerial := str "SERIAL";
                         bi_deviceModel := str "Mac";
                         bi_systemVersion := str "14.0";
                         bi_hardwareUUID := str "UUID" |} |}.

Definition cached_30000 : TouchIDOptions :=
  {| reason := None; method := Some cached; ttl := Some 30000 |}.

Definition direct_only : TouchIDOptions :=
  {| reason := None; method := Some direct; ttl := None |}.

Definition ttl_500 : TouchIDOptions :=
  {| reason := None; method := None; ttl := Some 500 |}.

Definition no_options : TouchIDOptions :=
  {| reason := None; method := None; ttl := None |}.

(** A service on macOS whose native module has loaded, constructed when
    [Date.now()] is [now]. *)
Definition mac_service_at {P} (now : Z) (p : P) : World P :=
  snd (waitForInit quiet 1 (new_TouchIDService quiet true now p 0 None)).

(** A reading of [Date.now()] in November 2023. *)
Definition a_day_in_2023 : Z := 1700000000000.

(** Two cached calls on a Mac without a cache file, the second twenty
    seconds after the service was constructed. *)
Definition first_cached_call
  : Completion TouchIDResult * World NativeState :=
  authenticate (touchid_native a_mac) quiet engine_message 5 cached_30000
    (mac_service_at a_day_in_2023 (native_start None)).

Definition second_cached_call
  : Completion TouchIDResult * World NativeState :=
  authenticate (touchid_native a_mac) quiet engine_message 5 cached_30000
    (set_clock (a_day_in_2023 + 20000) (snd first_cached_call)).

(** The first call succeeds after one prompt, and the second shows no
    further prompt. *)
Definition success_of_first_call_and_hit : Prop :=
  (exists r, fst first_cached_call = Normal r /\ success r = true)
  /\ prompts (provider (snd first_cached_call)) = 1%nat
  /\ prompts (provider (snd second_cached_call)) = 1%nat.

(** The globals as a cached request with [ttl] leaves them on a module
    just loaded without a cache file, before it prompts. *)
Definition cache_state (ttl : Z) : NativeState :=
  snd (check_cache cached ttl (double_of_int 0) (native_start None)).


(** A Mac on which nothing can be evaluated: no biometrics, and no
    other way for the owner to authenticate.  A prompt fails at once. *)
Definition a_mac_unable : Device :=
  {| macos_10_12_2 := true; macos_10_13_2 := true;
     canEvaluateBiometrics := false; biometryIsTouchID := false;
     canEvaluateOwner := false;
     evaluatePolicy :=
       fun _ => {| la_error :=
                     Some (str "Biometry is not available on this device.");
                   la_elapsed := 0 |};
     NSDate_date := seconds_since_2001;
     deviceData := deviceData a_mac;
     collect_elapsed := 300;
     biometricInfo := biometricInfo a_mac |}.

(** The world after [isAvailable] has been called on a service on that
    Mac, and the direct call that follows. *)
Definition unable_after_isAvailable : World NativeState :=
  snd (isAvailable (touchid_native a_mac_unable) quiet 5
         (mac_service (native_start None))).

Definition direct_call_when_unable
  : Completion TouchIDResult * World NativeState :=
  authenticate (touchid_native a_mac_unable) quiet engine_message 5
    direct_only unable_after_isAvailable.


(** * Further code of the library *)

(** ** utils/index.ts *)

(** [value.trim().length > 0] *)
Definition isNotEmpty (value : jsstring) : bool :=
  Nat.ltb 0 (List.length (trim value)).

(** [typeof timeout === 'number' && timeout >= min && timeout <= max];
    the argument is a number by its type here.  The defaults of [min]
    and [max] are 1000 and 300000. *)
Definition isValidTimeout (timeout min max : Z) : bool :=
  true && (timeout >=? min) && (timeout <=? max).

(** What [retryWithBackoff] does to its environment: the calls of
    [operation] and the delays it sleeps, in order. *)
Inductive RetryStep :=
| Attempt (n : nat)
| Delay (ms : Z).

(** The loop of [retryWithBackoff] from [attempt] on, with
    [maxRetries - attempt] given as [remaining].  The [n]-th call of
    [operation] settles as [operation n]. *)
Fixpoint retry_loop {T} (operation : nat -> Settled T) (baseDelay : Z)
  (remaining attempt : nat) : M (list RetryStep) T :=
  try_catch
    (fun log =>
       match operation attempt with
       | Resolved v => (Normal v, log ++ [Attempt attempt])
       | Rejected e => (Throw e, log ++ [Attempt attempt])
       end)
    (fun lastError =>
       match remaining with
       | O => throw lastError
       | S remaining' =>
           let delayMs := baseDelay * 2 ^ Z.of_nat attempt in
           modify (fun log => log ++ [Delay delayMs]) ;;
           retry_loop operation baseDelay remaining' (S attempt)
       end).

(** [retryWithBackoff(operation, maxRetries, baseDelay)], for an integer
    [maxRetries].  When the loop does not run at all, [lastError] is
    still [undefined] at the final [throw]. *)
Definition retryWithBackoff {T} (operation : nat -> Settled T)
  (maxRetries baseDelay : Z) : M (list RetryStep) T :=
  if maxRetries <? 0 then throw ThrownOther
  else retry_loop operation baseDelay (Z.to_nat maxRetries) 0.

(** ** Further observations *)

(** A list of listeners without its first listener for [h]. *)
Fixpoint without_first (h : HandlerId) (l : list EventListener)
  : list EventListener :=
  match l with
  | [] => []
  | x :: r => if Nat.eqb (handler x) h then r else x :: without_first h r
  end.

(** The listeners that are not once-listeners. *)
Definition persistent (l : list EventListener) : list EventListener :=
  filter (fun x => negb (once x)) l.

(** The handlers of a list of listeners paired with a payload: the
    invocations of one dispatch. *)
Definition invocations (l : list EventListener) (d : EventData)
  : list (HandlerId * EventData) :=
  List.map (fun x => (handler x, d)) l.

(** The cache file that holds a success at the date [t0] under the ttl
    [ttl], in seconds. *)
Definition recorded (t0 ttl : double) : CacheFile :=
  {| f_lastAuthTime := Some t0; f_isCached := true; f_cacheTTL := ttl |}.

(** The globals that [PromptTouchID] leaves, and the promise it
    returns. *)
Definition state_after (dev : Device) (args : PromptArgs) (s : NativeState)
  (now : Z) : NativeState :=
  snd (fst (PromptTouchID dev args s now)).

Definition settled_as (dev : Device) (args : PromptArgs) (s : NativeState)
  (now : Z) : Settled JsResult :=
  fst (fst (PromptTouchID dev args s now)).

(** A Mac whose user cancels every prompt after a second. *)
Definition a_mac_cancelling : Device :=
  {| macos_10_12_2 := true; macos_10_13_2 := true;
     canEvaluateBiometrics := true; biometryIsTouchID := true;
     canEvaluateOwner := true;
     evaluatePolicy :=
       fun _ => {| la_error := Some (str "Authentication canceled.");
                   la_elapsed := 1000 |};
     NSDate_date := seconds_since_2001;
     deviceData := deviceData a_mac;
     collect_elapsed := 300;
     biometricInfo := biometricInfo a_mac |}.

(** A Mac without biometrics whose owner can still authenticate with the
    password. *)
Definition a_mac_without_sensor : Device :=
  {| macos_10_12_2 := true; macos_10_13_2 := true;
     canEvaluateBiometrics := false; biometryIsTouchID := false;
     canEvaluateOwner := true;
     evaluatePolicy := evaluatePolicy a_mac;
     NSDate_date := seconds_since_2001;
     deviceData := deviceData a_mac;
     collect_elapsed := 300;
     biometricInfo := biometricInfo a_mac |}.

(** The options that [test()] passes to [authenticate]. *)
Definition test_options : TouchIDOptions :=
  {| reason := Some (str "Test Touch ID authentication");
     method := None; ttl := None |}.

(** The fallback records of [getBiometricInfo]. *)
Definition fallback_info (type value : jsstring) : BiometricInfo :=
  {| bi_biometricsAvailable := false; bi_biometryType := type;
     bi_deviceSerial := value; bi_deviceModel := value;
     bi_systemVersion := value; bi_hardwareUUID := value |}.

(** The ways a call of [getBiometricInfo] on an initialized service can
    go: the record [i] it returns, the calls it makes on the native
    module, and the state [p] and the time [t] it leaves. *)
Definition biometric_info_cases {P} (native : Provider P) (w : World P)
  (i : BiometricInfo) (t : Z) (p : P) (calls : list ProviderCall) : Prop :=
  (darwin w = false /\ calls = [] /\ t = clock w /\ p = provider w
   /\ i = fallback_info (str "Unsupported") (str "Unsupported Platform"))
  \/ (darwin w = true /\ nativeModule w = false
      /\ calls = [] /\ t = clock w /\ p = provider w
      /\ i = fallback_info (str "None") [])
  \/ (ready w /\ getBiometricInfo native = None
      /\ calls = [] /\ t = clock w /\ p = provider w
      /\ i = fallback_info (str "None") (str "Error"))
  \/ (ready w /\ calls = [called_getBiometricInfo]
      /\ exists f,
          getBiometricInfo native = Some f
          /\ ((exists e, f (provider w) (clock w) = (Rejected e, p, t))
              /\ i = fallback_info (str "None") (str "Error")
              \/ f (provider w) (clock w) = (Resolved i, p, t))).

(** What [CanPromptTouchID] answers on a device. *)
Definition can_prompt (dev : Device) : bool :=
  macos_10_12_2 dev
  && (canEvaluateBiometrics dev
      && (negb (macos_10_13_2 dev) || biometryIsTouchID dev)
      || canEvaluateOwner dev).

(** A provider stub whose challenge rejects with an [Error] carrying
    the message [m], a second after it was asked. *)
Definition rejecting (m : jsstring) : Provider unit :=
  {| canPromptTouchID := Some (fun s now => (Resolved true, s, now));
     promptTouchID :=
       Some (fun _ s now => (Rejected (ErrorObject m), s, now + 1000));
     getBiometricInfo := None |}.

(** The events that [authenticate] can emit between
    [authentication:start] and the closing [authentication:success] or
    [authentication:failure]. *)
Definition intermediate_event (e : TouchIDEventType) : Prop :=
  e = cache_created \/ e = device_lockout \/ e = authentication_cancel.

(** The event that closes the initialization when the import of the
    native addon settles at [t], for an [_init] started at [t0]. *)
Definition initialization_outcome (t0 t : Z) (load : option Thrown)
  : EventData :=
  match load with
  | None => InitializationComplete t (t - t0)
  | Some e =>
      InitializationError t (message_or e (str "Unknown initialization error"))
  end.

(** Whether the native module counts as loaded afterwards. *)
Definition loaded (load : option Thrown) : bool :=
  match load with None => true | Some _ => false end.

(** The steps of a run of [retryWithBackoff] that starts at [attempt],
    fails [k] times and makes one more attempt: each failed attempt is
    followed by its delay. *)
Fixpoint retry_trace (baseDelay : Z) (attempt k : nat) : list RetryStep :=
  match k with
  | O => [Attempt attempt]
  | S k' =>
      Attempt attempt :: Delay (baseDelay * 2 ^ Z.of_nat attempt)
      :: retry_trace baseDelay (S attempt) k'
  end.

(** The time slept and the number of calls of the operation in a list
    of steps. *)
Fixpoint total_delay (log : list RetryStep) : Z :=
  match log with
  | [] => 0
  | Delay ms :: r => ms + total_delay r
  | Attempt _ :: r => total_delay r
  end.

Fixpoint attempts (log : list RetryStep) : nat :=
  match log with
  | [] => O
  | Attempt _ :: r => S (attempts r)
  | Delay _ :: r => attempts r
  end.

(** An operation that fails twice and then answers 42, and one that
    always fails. *)
Definition flaky : nat -> Settled Z :=
  fun n => if Nat.ltb n 2 then Rejected (ErrorObject (str "busy"))
           else Resolved 42.

Definition hopeless : nat -> Settled Z :=
  fun n => Rejected (ErrorObject (str "down")).

(** A service on whose emitter handler 1 listens to
    [authentication:start] and handler 2, once, to
    [authentication:success]. *)
Definition listening {P} (w : World P) : World P :=
  set_js None
    (snd ((on authentication_start 1%nat ;;
           once_ authentication_success 2%nat) (js w))) w.

(** * Properties *)

Unset Implicit Arguments.

(** ** The registry as a map *)

Lemma event_eqb_refl a : event_eqb a a = true.
Proof. unfold event_eqb. destruct (TouchIDEventType_eq_dec a a); congruence. Qed.

Lemma event_eqb_neq a b : a <> b -> event_eqb a b = false.
Proof. unfold event_eqb. destruct (TouchIDEventType_eq_dec a b); congruence. Qed.

Lemma event_eqb_eq a b : event_eqb a b = true -> a = b.
Proof.
  unfold event_eqb. destruct (TouchIDEventType_eq_dec a b); congruence.
Qed.

Lemma Map_get_set_same k v m : Map_get k (Map_set k v m) = Some v.
Proof.
  induction m as [|[k' v'] r IH]; simpl.
  - now rewrite event_eqb_refl.
  - destruct (event_eqb k k') eqn:E; simpl.
    + now rewrite event_eqb_refl.
    + now rewrite E.
Qed.

Lemma Map_get_set_other k k' v m :
  k <> k' -> Map_get k' (Map_set k v m) = Map_get k' m.
Proof.
  intros Hne. induction m as [|[k2 v2] r IH]; simpl.
  - rewrite event_eqb_neq; auto.
  - destruct (event_eqb k k2) eqn:E; simpl.
    + apply event_eqb_eq in E. subst k2.
      rewrite (@event_eqb_neq k' k); auto.
    + destruct (event_eqb k' k2); auto.
Qed.

Lemma Map_get_delete_same k m : Map_get k (Map_delete k m) = None.
Proof.
  induction m as [|[k' v'] r IH]; simpl; auto.
  destruct (event_eqb k k') eqn:E; simpl; auto. now rewrite E.
Qed.

Lemma Map_get_delete_other k k' m :
  k <> k' -> Map_get k' (Map_delete k m) = Map_get k' m.
Proof.
  intros Hne. induction m as [|[k2 v2] r IH]; simpl; auto.
  destruct (event_eqb k k2) eqn:E; simpl.
  - apply event_eqb_eq in E. subst k2.
    rewrite (@event_eqb_neq k' k); auto.
  - destruct (event_eqb k' k2); auto.
Qed.

Lemma Map_keys_get k m : In k (Map_keys m) <-> Map_get k m <> None.
Proof.
  induction m as [|[k' v'] r IH]; simpl.
  - split; [tauto | congruence].
  - destruct (event_eqb k k') eqn:E.
    + apply event_eqb_eq in E. subst. split; [congruence | auto].
    + rewrite <- IH. split; [intros [H|H]; auto | auto].
      subst. now rewrite event_eqb_refl in E.
Qed.

(** ** Calls on the emitter *)

Lemma perform_spec c s :
  perform c s
  = (Normal tt, set_listeners (fun _ => registry_after c (listeners s)) s).
Proof.
  destruct s as [m i co].
  destruct c as [e h|e h|e h|[e|]]; unfold registry_after; simpl;
    unfold on, once_, off, removeAllListeners, bind, gets, modify, ret,
      set_listeners; simpl; try reflexivity.
  - destruct (Map_has e m); reflexivity.
  - destruct (Map_has e m); reflexivity.
  - destruct (Map_get e m) as [l|]; simpl; [|reflexivity].
    destruct (Nat.eqb _ 0); reflexivity.
Qed.

Lemma for_of_perform cs : forall s,
  for_of cs perform s
  = (Normal tt,
     set_listeners
       (fun _ => fold_left (fun m c => registry_after c m) cs (listeners s)) s).
Proof.
  induction cs as [|c cs IH]; intros s; simpl.
  - destruct s; reflexivity.
  - unfold bind. rewrite perform_spec, IH. destruct s; reflexivity.
Qed.

(** ** Counting invocations and entries *)

Lemma times_invoked_app h l1 l2 :
  times_invoked h (l1 ++ l2) = (times_invoked h l1 + times_invoked h l2)%nat.
Proof. unfold times_invoked. now rewrite filter_app, length_app. Qed.

Lemma times_invoked_map h d l :
  times_invoked h (List.map (fun x => (handler x, d)) l) = entries_of h l.
Proof.
  unfold times_invoked, entries_of.
  induction l as [|x r IH]; simpl; auto.
  destruct (Nat.eqb (handler x) h); simpl; auto.
Qed.

Lemma entries_of_absent h l :
  (forall x, In x l -> handler x <> h) -> entries_of h l = O.
Proof.
  unfold entries_of. induction l as [|x r IH]; simpl; intros H; auto.
  destruct (Nat.eqb (handler x) h) eqn:E.
  - apply Nat.eqb_eq in E. exfalso. apply (H x); auto.
  - apply IH. intros y Hy. apply H. auto.
Qed.

Lemma In_splice1 {A} (x : A) i : forall l, In x (splice1 i l) -> In x l.
Proof.
  induction i as [|i IH]; intros [|y r]; simpl; auto.
  intros [H|H]; auto.
Qed.

(** ** The registry entry of an event across calls *)

Lemma lookup_set_same k v m : lookup k (Map_set k v m) = v.
Proof. unfold lookup. now rewrite Map_get_set_same. Qed.

Lemma lookup_set_other k k' v m :
  k <> k' -> lookup k' (Map_set k v m) = lookup k' m.
Proof. intros H. unfold lookup. now rewrite Map_get_set_other. Qed.

Lemma lookup_delete_other k k' m :
  k <> k' -> lookup k' (Map_delete k m) = lookup k' m.
Proof. intros H. unfold lookup. now rewrite Map_get_delete_other. Qed.

Lemma lookup_delete_same k m : lookup k (Map_delete k m) = [].
Proof. unfold lookup. now rewrite Map_get_delete_same. Qed.

Lemma registry_after_on e h m :
  registry_after (CallOn e h) m
  = Map_set e (lookup e m ++ [{| handler := h; once := false |}])
      (if Map_has e m then m else Map_set e [] m).
Proof.
  unfold registry_after, lookup, Map_has. simpl.
  unfold on, bind, gets, modify, ret, set_listeners, push_listener, Map_has.
  simpl. destruct (Map_get e m) eqn:E; simpl.
  - now rewrite E.
  - now rewrite Map_get_set_same.
Qed.

Lemma registry_after_once e h m :
  registry_after (CallOnce e h) m
  = Map_set e (lookup e m ++ [{| handler := h; once := true |}])
      (if Map_has e m then m else Map_set e [] m).
Proof.
  unfold registry_after, lookup, Map_has. simpl.
  unfold once_, bind, gets, modify, ret, set_listeners, push_listener, Map_has.
  simpl. destruct (Map_get e m) eqn:E; simpl.
  - now rewrite E.
  - now rewrite Map_get_set_same.
Qed.

Lemma registry_after_off e h m :
  registry_after (CallOff e h) m
  = match Map_get e m with
    | None => m
    | Some l =>
        let l' := match findIndex (fun x => Nat.eqb (handler x) h) l with
                  | Some i => splice1 i l
                  | None => l
                  end in
        if Nat.eqb (List.length l') 0 then Map_delete e (Map_set e l' m)
        else Map_set e l' m
    end.
Proof.
  unfold registry_after. simpl.
  unfold off, bind, gets, modify, ret, set_listeners. simpl.
  destruct (Map_get e m) as [l|]; simpl; auto.
  destruct (Nat.eqb _ 0); reflexivity.
Qed.

Lemma lookup_Map_has_set e k m :
  lookup k (if Map_has e m then m else Map_set e [] m) = lookup k m.
Proof.
  unfold Map_has. destruct (Map_get e m) eqn:E; auto.
  destruct (TouchIDEventType_eq_dec e k) as [->|Hne].
  - rewrite lookup_set_same. unfold lookup. now rewrite E.
  - now rewrite lookup_set_other.
Qed.

(** A listener found after a call was there before, or the call
    registered it. *)
Lemma lookup_registry_after event c m x :
  In x (lookup event (registry_after c m)) ->
  In x (lookup event m) \/ registers event (handler x) c.
Proof.
  unfold registers.
  destruct c as [e h|e h|e h|[e|]].
  - rewrite registry_after_on.
    destruct (TouchIDEventType_eq_dec e event) as [->|Hne].
    + rewrite lookup_set_same. intros H. apply in_app_or in H.
      destruct H as [H|[H|[]]]; auto. subst x. simpl. auto.
    + rewrite lookup_set_other, lookup_Map_has_set; auto.
  - rewrite registry_after_once.
    destruct (TouchIDEventType_eq_dec e event) as [->|Hne].
    + rewrite lookup_set_same. intros H. apply in_app_or in H.
      destruct H as [H|[H|[]]]; auto. subst x. simpl. auto.
    + rewrite lookup_set_other, lookup_Map_has_set; auto.
  - rewrite registry_after_off.
    destruct (Map_get e m) as [l|] eqn:E; auto.
    destruct (TouchIDEventType_eq_dec e event) as [->|Hne].
    + cbv zeta. destruct (Nat.eqb _ 0).
      * rewrite lookup_delete_same. intros [].
      * rewrite lookup_set_same. unfold lookup. rewrite E.
        destruct (findIndex _ l); auto. intros H. left.
        eapply In_splice1; eauto.
    + cbv zeta. destruct (Nat.eqb _ 0).
      * rewrite lookup_delete_other, lookup_set_other; auto.
      * rewrite lookup_set_other; auto.
  - unfold registry_after. simpl.
    destruct (TouchIDEventType_eq_dec e event) as [->|Hne].
    + rewrite lookup_delete_same. intros [].
    + rewrite lookup_delete_other; auto.
  - unfold registry_after. simpl. intros [].
Qed.

Lemma lookup_registry_after_calls event cs : forall m x,
  In x (lookup event (fold_left (fun m c => registry_after c m) cs m)) ->
  In x (lookup event m) \/ exists c, In c cs /\ registers event (handler x) c.
Proof.
  induction cs as [|c cs IH]; intros m x; simpl; auto.
  intros H. apply IH in H. destruct H as [H|[c' [Hin Hr]]].
  - apply lookup_registry_after in H. destruct H; eauto.
  - eauto.
Qed.

Lemma Map_keys_set k v m k' :
  In k' (Map_keys m) -> In k' (Map_keys (Map_set k v m)).
Proof.
  rewrite !Map_keys_get.
  destruct (TouchIDEventType_eq_dec k k') as [->|Hne].
  - rewrite Map_get_set_same. congruence.
  - now rewrite Map_get_set_other.
Qed.

Lemma Map_keys_delete_other k m k' :
  k <> k' -> In k' (Map_keys m) -> In k' (Map_keys (Map_delete k m)).
Proof. intros Hne. rewrite !Map_keys_get. now rewrite Map_get_delete_other. Qed.

(** Only [off] for the event and [removeAllListeners] take a key out of
    the registry. *)
Lemma keys_registry_after event c m :
  In event (Map_keys m) -> ~ may_remove_entry event c ->
  In event (Map_keys (registry_after c m)).
Proof.
  unfold may_remove_entry. intros Hin Hkeep.
  destruct c as [e h|e h|e h|[e|]].
  - rewrite registry_after_on. apply Map_keys_set.
    destruct (Map_has e m); auto. now apply Map_keys_set.
  - rewrite registry_after_once. apply Map_keys_set.
    destruct (Map_has e m); auto. now apply Map_keys_set.
  - assert (Hne : e <> event) by (intros ->; apply Hkeep; eauto).
    rewrite registry_after_off.
    destruct (Map_get e m) as [l|]; auto.
    cbv zeta. destruct (Nat.eqb _ 0).
    + apply Map_keys_delete_other; auto. now apply Map_keys_set.
    + now apply Map_keys_set.
  - assert (Hne : e <> event) by (intros ->; apply Hkeep; auto).
    unfold registry_after. simpl. now apply Map_keys_delete_other.
  - exfalso. apply Hkeep. auto.
Qed.

Lemma keys_registry_after_calls event cs : forall m,
  In event (Map_keys m) ->
  (forall c, In c cs -> ~ may_remove_entry event c) ->
  In event (Map_keys (fold_left (fun m c => registry_after c m) cs m)).
Proof.
  induction cs as [|c cs IH]; intros m Hin Hkeep; simpl; auto.
  apply IH.
  - apply keys_registry_after; auto. apply Hkeep. simpl; auto.
  - intros c' Hc'. apply Hkeep. simpl; auto.
Qed.

Lemma filter_once_all_once (l : list EventListener) :
  forallb once l = true -> filter (fun x => negb (once x)) l = [].
Proof.
  induction l as [|x r IH]; simpl; auto.
  intros H. apply andb_prop in H. destruct H as [Hx Hr].
  rewrite Hx. simpl. auto.
Qed.


(** ** Dispatch *)

Section Dispatch.
Variable behaviour : Behaviour.

Lemma guarded_call_spec event l d s :
try_catch (call_handler behaviour l d)
  (fun err => modify (log_console (console_handler_error event err))) s
= (Normal tt, handler_step behaviour event d s l).
Proof.
unfold try_catch, call_handler, handler_step.
unfold bind at 1, gets. unfold bind at 1, modify at 1.
unfold bind. rewrite for_of_perform.
destruct (throws (behaviour s (handler l) d)) as [e|]; simpl.
- reflexivity.
- now rewrite app_nil_r.
Qed.

Lemma dispatch_spec event d snapshot : forall s,
for_of snapshot (fun listener =>
  try_catch (call_handler behaviour listener d)
    (fun err => modify (log_console (console_handler_error event err)))) s
= (Normal tt, dispatch_result behaviour event d snapshot s).
Proof.
induction snapshot as [|l r IH]; intros s.
- reflexivity.
- cbn [for_of]. unfold bind. rewrite guarded_call_spec, IH. reflexivity.
Qed.

(** [emit] as a function of the state it starts in. *)
Lemma emit_spec event d s :
emit behaviour event d s
= (Normal tt,
   match registered event s with
   | [] => s
   | _ :: _ =>
       dispatch_result behaviour event d (registered event s)
         (pruned event s)
   end).
Proof.
unfold emit, pruned, registered, lookup, bind, gets.
destruct (Map_get event (listeners s)) as [[|l r]|]; try reflexivity.
cbn [List.length Nat.eqb]. unfold modify at 1.
rewrite dispatch_spec. reflexivity.
Qed.

Lemma emit_normal event d s : fst (emit behaviour event d s) = Normal tt.
Proof. now rewrite emit_spec. Qed.

Lemma emit_dispatches event d s :
registered event s <> [] ->
snd (emit behaviour event d s)
= dispatch_result behaviour event d (registered event s) (pruned event s).
Proof.
intros Hne. rewrite emit_spec. cbn [snd].
destruct (registered event s); [congruence | reflexivity].
Qed.

Lemma dispatch_result_app event d l1 l2 s :
dispatch_result behaviour event d (l1 ++ l2) s
= dispatch_result behaviour event d l2
    (dispatch_result behaviour event d l1 s).
Proof. unfold dispatch_result. apply fold_left_app. Qed.

Lemma invoked_dispatch event d snapshot : forall s,
invoked (dispatch_result behaviour event d snapshot s)
= invoked s ++ List.map (fun l => (handler l, d)) snapshot.
Proof.
induction snapshot as [|l r IH]; intros s; simpl.
- now rewrite app_nil_r.
- unfold dispatch_result in *. simpl. rewrite IH. simpl.
  now rewrite <- app_assoc.
Qed.

Lemma emit_invoked event d s :
invoked (snd (emit behaviour event d s))
= invoked s ++ List.map (fun l => (handler l, d)) (registered event s).
Proof.
rewrite emit_spec. cbn [snd].
destruct (registered event s) eqn:E; [now rewrite app_nil_r|].
rewrite invoked_dispatch. reflexivity.
Qed.

(** The console only grows during a dispatch. *)
Lemma console_dispatch event d snapshot : forall s c,
In c (console s) ->
In c (console (dispatch_result behaviour event d snapshot s)).
Proof.
induction snapshot as [|l r IH]; intros s c Hc; simpl; auto.
unfold dispatch_result in *. simpl. apply IH. simpl.
apply in_or_app. auto.
Qed.

(** A listener found after a dispatch was there before, or a handler
  registered it. *)
Lemma lookup_dispatch event ev d snapshot : forall s x,
In x (lookup ev (listeners (dispatch_result behaviour event d snapshot s))) ->
In x (lookup ev (listeners s))
\/ exists s' l c, In l snapshot
               /\ In c (emitter_calls (behaviour s' (handler l) d))
               /\ registers ev (handler x) c.
Proof.
induction snapshot as [|l r IH]; intros s x; simpl; auto.
intros H. unfold dispatch_result in *. simpl in H. apply IH in H.
destruct H as [H|(s' & l' & c & Hl & Hc & Hr)].
- simpl in H. apply lookup_registry_after_calls in H.
  destruct H as [H|(c & Hc & Hr)]; auto.
  right. exists s, l, c. auto.
- right. exists s', l', c. auto.
Qed.

Lemma keys_dispatch event ev d snapshot : forall s,
In ev (Map_keys (listeners s)) ->
(forall s' h c, In c (emitter_calls (behaviour s' h d)) ->
                ~ may_remove_entry ev c) ->
In ev (Map_keys (listeners (dispatch_result behaviour event d snapshot s))).
Proof.
induction snapshot as [|l r IH]; intros s Hin Hkeep; simpl; auto.
unfold dispatch_result in *. simpl. apply IH; auto. simpl.
apply keys_registry_after_calls; auto.
intros c Hc. eapply Hkeep; eauto.
Qed.

Lemma listeners_quiet_dispatch event d snapshot : forall s,
(forall s' l, In l snapshot ->
              emitter_calls (behaviour s' (handler l) d) = []) ->
listeners (dispatch_result behaviour event d snapshot s) = listeners s.
Proof.
induction snapshot as [|l r IH]; intros s Hq; simpl; auto.
unfold dispatch_result in *. simpl. rewrite IH.
- simpl. rewrite (Hq s l) by (simpl; auto). reflexivity.
- intros s' x Hx. apply Hq. simpl; auto.
Qed.
End Dispatch.

(** ** The emitter: claims *)

(** C7.  Handler isolation.  When a listener [x] of the list registered
    for an event throws during its invocation, [emit] still completes
    normally, every listener of the list, those after [x] included, is
    invoked once and in order, and the error is written to the console
    instead of reaching the caller. *)
Theorem emit_isolates_throwing_handler :
  forall (behaviour : Behaviour) (event : TouchIDEventType) (d : EventData)
         (s : JsEnv) (before after : list EventListener)
         (x : EventListener) (e : Thrown),
    registered event s = before ++ x :: after ->
    throws (behaviour (dispatch_result behaviour event d before
                         (pruned event s))
              (handler x) d) = Some e ->
    fst (emit behaviour event d s) = Normal tt
    /\ invoked (snd (emit behaviour event d s))
       = invoked s ++ List.map (fun l => (handler l, d)) before
           ++ (handler x, d) :: List.map (fun l => (handler l, d)) after
    /\ In (console_handler_error event e)
          (console (snd (emit behaviour event d s))).
Proof.
  intros behaviour event d s before after x e Hreg Hthrow.
  split; [apply emit_normal|]. split.
  - rewrite emit_invoked, Hreg, map_app. reflexivity.
  - rewrite emit_dispatches
      by (rewrite Hreg; intros E; apply app_eq_nil in E;
          destruct E; discriminate).
    rewrite Hreg.
    change (before ++ x :: after) with (before ++ [x] ++ after).
    rewrite !dispatch_result_app. apply console_dispatch.
    unfold dispatch_result at 1. cbn [fold_left]. unfold handler_step.
    rewrite Hthrow. cbn [console]. apply in_or_app. right. simpl. auto.
Qed.

Lemma emit_isolates_throwing_handler_witness :
  fst (emit unruly initialization_complete (InitializationComplete 5 2)
         three_listeners) = Normal tt
  /\ invoked (snd (emit unruly initialization_complete
                     (InitializationComplete 5 2) three_listeners))
     = [(1%nat, InitializationComplete 5 2);
        (2%nat, InitializationComplete 5 2);
        (3%nat, InitializationComplete 5 2)].
Proof.
  destruct (emit_isolates_throwing_handler unruly initialization_complete
              (InitializationComplete 5 2) three_listeners []
              [ {| handler := 2%nat; once := true |};
                {| handler := 3%nat; once := false |} ]
              {| handler := 1%nat; once := false |}
              (ErrorObject (str "boom")) eq_refl eq_refl)
    as [Hn [Hi _]].
  split; [exact Hn | exact Hi].
Defined.

(** C6.  Once-semantics.  In every pass, whatever the handlers do, the
    listeners invoked are those registered when [emit] was called, in
    order, and the handlers run on the registry from which the
    once-listeners have already been removed; so a handler registered
    one time, with [once], is invoked exactly once in the pass even if
    it registers itself again, and exactly once across two consecutive
    emits when no handler registers it again. *)
Theorem once_handler_fires_once :
  forall (behaviour : Behaviour) (event : TouchIDEventType)
         (d1 d2 : EventData) (s : JsEnv) (h : HandlerId),
    entries_of h (registered event s) = 1%nat ->
    (forall l, In l (registered event s) -> handler l = h -> once l = true) ->
    (forall d s0,
        invoked (snd (emit behaviour event d s0))
        = invoked s0 ++ List.map (fun l => (handler l, d)) (registered event s0)
        /\ (registered event s0 <> [] ->
            snd (emit behaviour event d s0)
            = dispatch_result behaviour event d (registered event s0)
                (pruned event s0)))
    /\ times_invoked h (invoked (snd (emit behaviour event d1 s)))
       = (times_invoked h (invoked s) + 1)%nat
    /\ ((forall s' h' d' c, In c (emitter_calls (behaviour s' h' d')) ->
                            ~ registers event h c) ->
        times_invoked h
          (invoked (snd (emit behaviour event d2
                           (snd (emit behaviour event d1 s)))))
        = (times_invoked h (invoked s) + 1)%nat).
Proof.
  intros behaviour event d1 d2 s h Hone Honce.
  assert (Hfirst : times_invoked h (invoked (snd (emit behaviour event d1 s)))
                   = (times_invoked h (invoked s) + 1)%nat).
  { rewrite emit_invoked, times_invoked_app, times_invoked_map. now rewrite Hone. }
  split; [|split]; auto.
  - intros d s0. split; [apply emit_invoked | apply emit_dispatches].
  - intros Hno.
    rewrite emit_invoked, times_invoked_app, times_invoked_map, Hfirst.
    rewrite entries_of_absent; [lia|].
    intros x Hx Hh. unfold registered in Hx.
    rewrite emit_dispatches in Hx
      by (intros E; rewrite E in Hone; discriminate).
    apply lookup_dispatch in Hx.
    destruct Hx as [Hx|(s' & l & c & _ & Hc & Hr)].
    + unfold pruned in Hx. cbn [listeners set_listeners] in Hx.
      rewrite lookup_set_same in Hx. apply filter_In in Hx.
      destruct Hx as [Hin Hnot]. rewrite (Honce x Hin Hh) in Hnot.
      discriminate.
    + rewrite Hh in Hr. exact (Hno _ _ _ _ Hc Hr).
Qed.

Lemma once_handler_fires_once_witness :
  times_invoked 5%nat
    (invoked (snd (emit quiet initialization_complete
                     (InitializationComplete 9 4)
                     (snd (emit quiet initialization_complete
                             (InitializationComplete 5 2)
                             two_once_listeners)))))
  = 1%nat.
Proof.
  assert (Hone : entries_of 5%nat (registered initialization_complete
                                     two_once_listeners) = 1%nat)
    by reflexivity.
  assert (Honce : forall l, In l (registered initialization_complete
                                    two_once_listeners) ->
                            handler l = 5%nat -> once l = true).
  { simpl. intros l [H|[H|[]]] _; subst l; reflexivity. }
  destruct (once_handler_fires_once quiet initialization_complete
              (InitializationComplete 5 2) (InitializationComplete 9 4)
              two_once_listeners 5%nat Hone Honce) as [_ [_ Htwice]].
  apply Htwice. intros s' h' d' c Hc. simpl in Hc. destruct Hc.
Defined.

(** A once-handler that registers itself again during its invocation is
    not invoked again in that pass, and is registered for the next. *)
Example reregistering_handler_runs_once_per_pass :
  times_invoked 2%nat
    (invoked (snd (emit unruly initialization_complete
                     (InitializationComplete 5 2) three_listeners)))
  = 1%nat
  /\ registered initialization_complete
       (snd (emit unruly initialization_complete
               (InitializationComplete 5 2) three_listeners))
     = [ {| handler := 3%nat; once := false |};
         {| handler := 2%nat; once := true |};
         {| handler := 4%nat; once := false |} ].
Proof. split; reflexivity. Qed.

(** C10.  After an emit for an event whose listeners were all
    once-listeners (and whose handlers leave the emitter alone), the
    event has no listener but is still among [eventNames]: the entry
    holds an empty list.  From there [off] for the event and
    [removeAllListeners] delete the entry, and no other call, and no emit
    whose handlers make no such call, does. *)
Theorem emit_leaves_empty_entry :
  forall (behaviour : Behaviour) (event : TouchIDEventType) (d : EventData)
         (s s' : JsEnv),
    registered event s <> [] ->
    forallb once (registered event s) = true ->
    (forall s0 l, In l (registered event s) ->
                  emitter_calls (behaviour s0 (handler l) d) = []) ->
    s' = snd (emit behaviour event d s) ->
    listenerCount event s' = 0%nat
    /\ In event (eventNames s')
    /\ Map_get event (listeners s') = Some []
    /\ (forall h, ~ In event (eventNames (snd (off event h s'))))
    /\ ~ In event (eventNames (snd (removeAllListeners (Some event) s')))
    /\ ~ In event (eventNames (snd (removeAllListeners None s')))
    /\ (forall c, ~ may_remove_entry event c ->
                  In event (eventNames (snd (perform c s'))))
    /\ (forall e d',
          (forall s0 h c, In c (emitter_calls (behaviour s0 h d')) ->
                          ~ may_remove_entry event c) ->
          In event (eventNames (snd (emit behaviour e d' s')))).
Proof.
  intros behaviour event d s s' Hne Hall Hquiet ->.
  assert (Hl : listeners (snd (emit behaviour event d s))
               = Map_set event [] (listeners s)).
  { rewrite emit_dispatches, listeners_quiet_dispatch by auto.
    unfold pruned. cbn [listeners set_listeners].
    now rewrite filter_once_all_once. }
  assert (Hget : Map_get event (listeners (snd (emit behaviour event d s)))
                 = Some []).
  { rewrite Hl. apply Map_get_set_same. }
  assert (Hkey : In event (eventNames (snd (emit behaviour event d s)))).
  { unfold eventNames. apply Map_keys_get. rewrite Hget. discriminate. }
  set (s' := snd (emit behaviour event d s)) in *.
  repeat split.
  - unfold listenerCount. now rewrite Hget.
  - exact Hkey.
  - exact Hget.
  - intros h. unfold eventNames.
    change (off event h s') with (perform (CallOff event h) s').
    rewrite perform_spec.
    cbn [snd set_listeners listeners]. rewrite registry_after_off, Hget.
    cbn. rewrite Map_keys_get, Map_get_delete_same. congruence.
  - unfold eventNames. simpl.
    rewrite Map_keys_get, Map_get_delete_same. congruence.
  - unfold eventNames. simpl. tauto.
  - intros c Hc. unfold eventNames. rewrite perform_spec.
    cbn [snd set_listeners listeners]. now apply keys_registry_after.
  - intros e d' Hkeep. unfold eventNames. rewrite emit_spec. cbn [snd].
    destruct (registered e s') eqn:E; [exact Hkey|].
    apply keys_dispatch; auto.
    unfold pruned. cbn [listeners set_listeners].
    apply Map_keys_set. exact Hkey.
Qed.

Lemma emit_leaves_empty_entry_witness :
  listenerCount initialization_complete
    (snd (emit quiet initialization_complete (InitializationComplete 5 2)
            two_once_listeners)) = 0%nat
  /\ In initialization_complete
       (eventNames (snd (emit quiet initialization_complete
                           (InitializationComplete 5 2) two_once_listeners))).
Proof.
  assert (Hne : registered initialization_complete two_once_listeners <> [])
    by discriminate.
  destruct (emit_leaves_empty_entry quiet initialization_complete
              (InitializationComplete 5 2) two_once_listeners _
              Hne eq_refl (fun _ _ _ => eq_refl) eq_refl)
    as [H0 [H1 _]].
  split; [exact H0 | exact H1].
Defined.

(** ** The service *)

Ltac js_simpl :=
  cbn [bind gets modify ret throw try_catch Date_now isMacOs console_warn
         console_error await_native set_js set_clock set_nativeModule
         set_initialized set_pending set_provider darwin clock nativeModule
         initialized pending provider provider_calls emitted js negb orb
         andb fst snd message_or
         after valid v_error failure success error data].

Section ServiceFacts.
Context {P : Type}.
Variable native : Provider P.
Variable behaviour : Behaviour.
Variable typeErrorMessage : jsstring.

Lemma emit_event_spec d (w : World P) :
  emit_event behaviour d w
  = (Normal tt,
     set_js (Some d) (snd (emit behaviour (event_of d) d (js w))) w).
Proof.
  unfold emit_event.
  pose proof (emit_normal behaviour (event_of d) d (js w)) as H.
  destruct (emit behaviour (event_of d) d (js w)) as [c j].
  simpl in *. now subst c.
Qed.

Lemma bind_emit_event {A} d (k : unit -> M (World P) A) w :
  bind (emit_event behaviour d) k w
  = k tt (set_js (Some d) (snd (emit behaviour (event_of d) d (js w))) w).
Proof. unfold bind. now rewrite emit_event_spec. Qed.

Lemma waitForInit_initialized bound (w : World P) :
  initialized w = true -> waitForInit behaviour bound w = (Normal tt, w).
Proof.
  intros H. destruct bound; simpl; unfold bind, gets; rewrite H; reflexivity.
Qed.

Lemma bind_bind {A B C} (c : M (World P) A) (k1 : A -> M (World P) B)
  (k2 : B -> M (World P) C) w :
  bind (bind c k1) k2 w = bind c (fun a => bind (k1 a) k2) w.
Proof. unfold bind. destruct (c w) as [[a|e|] w']; reflexivity. Qed.

Lemma try_catch_bind {A B} (c : M (World P) A) (k : A -> M (World P) B)
  h w :
  try_catch (bind c k) h w
  = match c w with
    | (Normal a, w') => try_catch (k a) h w'
    | (Throw e, w') => h e w'
    | (Waiting, w') => (Waiting, w')
    end.
Proof. unfold try_catch, bind. destruct (c w) as [[a|e|] w']; reflexivity. Qed.

Lemma try_catch_emit_event d (h : Thrown -> M (World P) unit) w :
  try_catch (emit_event behaviour d) h w
  = (Normal tt,
     set_js (Some d) (snd (emit behaviour (event_of d) d (js w))) w).
Proof. unfold try_catch. now rewrite emit_event_spec. Qed.

Lemma await_native_spec {A} c (f : P -> Z -> Settled A * P * Z) w :
  await_native c f w
  = match f (provider w) (clock w) with
    | (Resolved a, p, t) => (Normal a, set_provider p c t w)
    | (Rejected e, p, t) => (Throw e, set_provider p c t w)
    end.
Proof.
  unfold await_native.
  destruct (f (provider w) (clock w)) as [[[a|e] p] t]; reflexivity.
Qed.

Lemma try_catch_await_native {A} c (f : P -> Z -> Settled A * P * Z) h w :
  try_catch (await_native c f) h w
  = match f (provider w) (clock w) with
    | (Resolved a, p, t) => (Normal a, set_provider p c t w)
    | (Rejected e, p, t) => h e (set_provider p c t w)
    end.
Proof.
  unfold try_catch. rewrite await_native_spec.
  destruct (f (provider w) (clock w)) as [[[a|e] p] t]; reflexivity.
Qed.

Ltac js_run :=
  repeat first [ rewrite bind_emit_event | rewrite emit_event_spec
               | rewrite bind_bind | rewrite try_catch_bind
               | rewrite try_catch_emit_event
               | rewrite try_catch_await_native
               | rewrite await_native_spec
               | progress js_simpl ].

Ltac js_done :=
  js_run; unfold ret, set_js, after; js_simpl;
  rewrite ?app_nil_r, <- ?app_assoc; try reflexivity.

Lemma authenticate_off_darwin bound options (w : World P) :
  darwin w = false ->
  exists j,
    authenticate native behaviour typeErrorMessage bound options w
    = (Normal (failure NOT_AVAILABLE),
       after w (clock w) (provider w) []
         [AuthenticationStart (clock w) (method_of options) (reason_of options);
          AuthenticationFailure (clock w) (method_of options)
            NOT_AVAILABLE (clock w - clock w)] j).
Proof.
  intros Hd. destruct w as [dar clk nm ini pend prov calls em j].
  simpl in Hd. subst dar. eexists.
  unfold authenticate, method_of, reason_of. js_done.
Qed.

Lemma authenticate_invalid bound options (w : World P) :
  darwin w = true ->
  valid (validateOptions options) = false ->
  exists j,
    authenticate native behaviour typeErrorMessage bound options w
    = (Normal (failure (assert_defined (v_error (validateOptions options)))),
       after w (clock w) (provider w) []
         [AuthenticationStart (clock w) (method_of options) (reason_of options);
          AuthenticationFailure (clock w) (method_of options)
            (assert_defined (v_error (validateOptions options)))
            (clock w - clock w)] j).
Proof.
  intros Hd Hv. destruct w as [dar clk nm ini pend prov calls em j].
  simpl in Hd. subst dar. eexists.
  unfold authenticate, method_of, reason_of. js_run. rewrite Hv. js_done.
Qed.

Lemma bind_normal {A B} (c : M (World P) A) (k : A -> M (World P) B) w a w' :
  c w = (Normal a, w') -> bind c k w = k a w'.
Proof. unfold bind. now intros ->. Qed.

(** *** Initialization *)

Lemma init_step_refl (w : World P) : init_step w w.
Proof.
  repeat split. exists []. rewrite app_nil_r. split; [reflexivity|].
  constructor.
Qed.

Lemma init_step_trans (w1 w2 w3 : World P) :
  init_step w1 w2 -> init_step w2 w3 -> init_step w1 w3.
Proof.
  intros (Hd & Hp & Hc & e1 & He1 & Hf1) (Hd' & Hp' & Hc' & e2 & He2 & Hf2).
  repeat split; try congruence.
  exists (e1 ++ e2). split.
  - rewrite He2, He1. now rewrite app_assoc.
  - apply Forall_app. auto.
Qed.


Lemma _init_resume_spec i (w : World P) :
  exists w', _init_resume behaviour i w = (Normal tt, w')
             /\ initialized w' = true /\ init_step w w'.
Proof.
  destruct w as [dar clk nm ini pend prov calls em j].
  unfold _init_resume, init_step, no_cache_events.
  destruct (load_failure i) as [e|]; eexists; (split; [js_done|]); js_simpl;
    repeat split; eexists; (split; [reflexivity|]);
    repeat constructor.
Qed.

Lemma timer_turn_spec (w : World P) :
  exists w', timer_turn behaviour w = (Normal tt, w') /\ init_step w w'
    /\ match pending w with
       | None => initialized w' = initialized w /\ pending w' = None
       | Some i =>
           match turns_left i with
           | O => initialized w' = true
           | S n => initialized w' = initialized w
                    /\ exists i', pending w' = Some i' /\ turns_left i' = n
           end
       end.
Proof.
  destruct w as [dar clk nm ini pend prov calls em j].
  unfold timer_turn. js_simpl.
  destruct pend as [i|].
  - destruct (turns_left i) as [|n] eqn:Hn.
    + js_simpl.
      destruct (_init_resume_spec i
                  {| darwin := dar; clock := clk + 10; nativeModule := nm;
                     initialized := ini; pending := None; provider := prov;
                     provider_calls := calls; emitted := em; js := j |})
        as (w' & Hr & Hi & Hs).
      exists w'. split; [exact Hr|]. split; [exact Hs | exact Hi].
    + eexists. split; [reflexivity|]. js_simpl. split.
      * repeat split. exists []. rewrite app_nil_r.
        split; [reflexivity | constructor].
      * split; [reflexivity|]. eexists. split; reflexivity.
  - eexists. split; [reflexivity|]. js_simpl. split.
    + repeat split. exists []. rewrite app_nil_r.
      split; [reflexivity | constructor].
    + split; reflexivity.
Qed.

Lemma waitForInit_polls b (w w1 : World P) :
  initialized w = false ->
  timer_turn behaviour w = (Normal tt, w1) ->
  waitForInit behaviour (S b) w = waitForInit behaviour b w1.
Proof.
  intros Hi Ht. simpl. unfold bind at 1, gets. rewrite Hi.
  now erewrite bind_normal by exact Ht.
Qed.

(** The polling loop never throws, and whenever it returns the
    service is initialized. *)
Lemma waitForInit_outcome bound : forall (w : World P),
  exists w',
    init_step w w'
    /\ (waitForInit behaviour bound w = (Normal tt, w')
          /\ initialized w' = true
        \/ waitForInit behaviour bound w = (Waiting, w')
          /\ initialized w' = false).
Proof.
  induction bound as [|b IH]; intros w.
  - simpl. unfold bind, gets. destruct (initialized w) eqn:Hi.
    + exists w. split; [apply init_step_refl | left; auto].
    + exists w. split; [apply init_step_refl | right; auto].
  - destruct (initialized w) eqn:Hi.
    + exists w. rewrite waitForInit_initialized by exact Hi.
      split; [apply init_step_refl | left; auto].
    + destruct (timer_turn_spec w) as (w1 & Ht & Hs & _).
      rewrite (@waitForInit_polls b w w1 Hi Ht).
      destruct (IH w1) as (w' & Hs' & Hw).
      exists w'. split; [eapply init_step_trans; eauto | exact Hw].
Qed.

(** With the import due within the bound, the loop returns. *)
Lemma waitForInit_returns bound : forall (w : World P),
  due bound w ->
  exists w', waitForInit behaviour bound w = (Normal tt, w')
             /\ initialized w' = true /\ init_step w w'.
Proof.
  unfold due. induction bound as [|b IH]; intros w Hw.
  - destruct Hw as [Hi|(i & _ & Hlt)]; [|lia].
    exists w. rewrite waitForInit_initialized; auto using init_step_refl.
  - destruct (initialized w) eqn:Hi.
    + exists w. rewrite waitForInit_initialized; auto using init_step_refl.
    + destruct Hw as [Hw|(i & Hp & Hlt)]; [discriminate|].
      destruct (timer_turn_spec w) as (w1 & Ht & Hs & Hcase).
      rewrite (@waitForInit_polls b w w1 Hi Ht). rewrite Hp in Hcase.
      destruct (IH w1) as (w' & Hr & Hi' & Hs').
      { destruct (turns_left i) as [|n] eqn:Hn.
        - left. exact Hcase.
        - right. destruct Hcase as (_ & i' & Hp' & Hn').
          exists i'. split; auto. lia. }
      exists w'. split; [exact Hr|]. split; [exact Hi'|].
      eapply init_step_trans; eauto.
Qed.

(** *** The paths of [authenticate] through a loaded module *)

Ltac js_enter w :=
  destruct w as [dar clk nm ini pend prov calls em j];
  unfold ready in *; js_simpl;
  repeat match goal with
         | H : _ /\ _ |- _ => destruct H
         end;
  js_simpl; subst.

Lemma authenticate_no_module bound options (w : World P) :
  darwin w = true -> initialized w = true -> nativeModule w = false ->
  valid (validateOptions options) = true ->
  exists j,
    authenticate native behaviour typeErrorMessage bound options w
    = (Normal (failure (str "Touch ID native module not available")),
       after w (clock w) (provider w) []
         [AuthenticationStart (clock w) (method_of options) (reason_of options);
          AuthenticationFailure (clock w) (method_of options)
            (str "Touch ID native module not available")
            (clock w - clock w)] j).
Proof.
  intros Hd Hi Hn Hv. js_enter w. simpl in *. subst. eexists.
  unfold authenticate, method_of, reason_of. js_run. rewrite Hv. js_run.
  erewrite bind_normal by (apply waitForInit_initialized; reflexivity).
  js_done.
Qed.

Lemma authenticate_resolved bound options (w : World P) f
  r_success r_data r_error p t :
  ready w ->
  valid (validateOptions options) = true ->
  promptTouchID native = Some f ->
  f (prompt_args options) (provider w) (clock w)
  = (Resolved (ResultObject r_success r_data r_error), p, t) ->
  exists j,
    authenticate native behaviour typeErrorMessage bound options w
    = (Normal {| success := true; error := None; data := r_data |},
       after w t p [called_promptTouchID (prompt_args options)]
         (resolved_events options (clock w) t r_success r_data r_error) j).
Proof.
  intros Hr Hv Hf Hp. js_enter w. simpl in *. subst.
  unfold authenticate, resolved_events.
  fold (method_of options) (reason_of options) (ttl_of options).
  fold (prompt_args options).
  js_run. rewrite Hv. js_run.
  erewrite bind_normal by (apply waitForInit_initialized; reflexivity).
  js_run. rewrite Hf. js_run. rewrite Hp. js_run.
  destruct r_success; [destruct (method_of options)|]; eexists; js_done.
Qed.

Ltac js_classify :=
  unfold caught_events, mapped_error, classification_events; js_simpl;
  repeat match goal with
         | |- context [includes ?m ?s] => destruct (includes m s)
         end;
  js_simpl; eexists; js_done.

Lemma authenticate_rejected bound options (w : World P) f e p t :
  ready w ->
  valid (validateOptions options) = true ->
  promptTouchID native = Some f ->
  f (prompt_args options) (provider w) (clock w) = (Rejected e, p, t) ->
  exists j,
    authenticate native behaviour typeErrorMessage bound options w
    = (Normal (failure (mapped_error e)),
       after w t p [called_promptTouchID (prompt_args options)]
         (caught_events options (clock w) t e) j).
Proof.
  intros Hr Hv Hf Hp. js_enter w. simpl in *. subst.
  unfold authenticate.
  fold (method_of options) (reason_of options) (ttl_of options).
  fold (prompt_args options).
  js_run. rewrite Hv. js_run.
  erewrite bind_normal by (apply waitForInit_initialized; reflexivity).
  js_run. rewrite Hf. js_run. rewrite Hp. js_run.
  js_classify.
Qed.

Lemma authenticate_nullish bound options (w : World P) f p t :
  ready w ->
  valid (validateOptions options) = true ->
  promptTouchID native = Some f ->
  f (prompt_args options) (provider w) (clock w) = (Resolved Nullish, p, t) ->
  exists j,
    authenticate native behaviour typeErrorMessage bound options w
    = (Normal (failure (mapped_error (ErrorObject typeErrorMessage))),
       after w t p [called_promptTouchID (prompt_args options)]
         (caught_events options (clock w) t (ErrorObject typeErrorMessage))
         j).
Proof.
  intros Hr Hv Hf Hp. js_enter w. simpl in *. subst.
  unfold authenticate.
  fold (method_of options) (reason_of options) (ttl_of options).
  fold (prompt_args options).
  js_run. rewrite Hv. js_run.
  erewrite bind_normal by (apply waitForInit_initialized; reflexivity).
  js_run. rewrite Hf. js_run. rewrite Hp. js_run.
  js_classify.
Qed.

Lemma authenticate_no_function bound options (w : World P) :
  ready w ->
  valid (validateOptions options) = true ->
  promptTouchID native = None ->
  exists j,
    authenticate native behaviour typeErrorMessage bound options w
    = (Normal (failure NOT_AVAILABLE),
       after w (clock w) (provider w) []
         [AuthenticationStart (clock w) (method_of options) (reason_of options);
          AuthenticationFailure (clock w) (method_of options) NOT_AVAILABLE
            (clock w - clock w)] j).
Proof.
  intros Hr Hv Hf. js_enter w. simpl in *. subst.
  unfold authenticate.
  fold (method_of options) (reason_of options) (ttl_of options).
  js_run. rewrite Hv. js_run.
  erewrite bind_normal by (apply waitForInit_initialized; reflexivity).
  js_run. rewrite Hf. js_run.
  replace (includes (str "promptTouchID function not available")
             (str "not available")) with true by (vm_compute; reflexivity).
  eexists. js_done.
Qed.

Lemma waitForInit_cases bound (w : World P) :
  exists w',
    init_step w w'
    /\ (waitForInit behaviour bound w = (Normal tt, w')
          /\ initialized w' = true
        \/ waitForInit behaviour bound w = (Waiting, w')
          /\ ~ due bound w).
Proof.
  destruct (waitForInit_outcome bound w) as (w' & Hs & [[Hw Hi]|[Hw Hi]]).
  - exists w'. split; [exact Hs | left; auto].
  - exists w'. split; [exact Hs | right]. split; [exact Hw|].
    intros Hdue. destruct (waitForInit_returns bound w Hdue) as (w2 & Hr & _).
    congruence.
Qed.

(** *** Every path of [authenticate] *)

Ltac js_ifs :=
  repeat (match goal with
          | |- context [includes ?m ?s] => destruct (includes m s)
          end; js_run).

Ltac no_cache :=
  unfold no_cache_events in *;
  repeat first [ assumption
               | apply Forall_nil
               | apply Forall_cons; [reflexivity|]
               | apply Forall_app; split ].

Ltac post_leaf :=
  unfold authenticate_post, after, ret, set_js; js_simpl;
  split; [try reflexivity; try assumption|];
  split;
  [ eexists; split;
    [ rewrite <- ?app_assoc; reflexivity
    | intros ?; try congruence; no_cache ]
  | try (split;
         [ intros ?; first [reflexivity | congruence]
         | intros; first [reflexivity | assumption | congruence] ]) ].

Lemma authenticate_outcome bound options (w : World P) :
  authenticate_post options bound w
    (fst (authenticate native behaviour typeErrorMessage bound options w))
    (snd (authenticate native behaviour typeErrorMessage bound options w)).
Proof.
  destruct (darwin w) eqn:Hd.
  2:{ destruct (authenticate_off_darwin bound options w Hd) as [j ->].
      post_leaf. }
  destruct (valid (validateOptions options)) eqn:Hv.
  2:{ destruct (authenticate_invalid bound options w Hd Hv) as [j ->].
      post_leaf. }
  destruct w as [dar clk nm ini pend prov calls em j].
  simpl in Hd. subst dar.
  unfold authenticate.
  fold (method_of options) (reason_of options) (ttl_of options).
  fold (prompt_args options).
  js_run. rewrite Hv. js_run.
  match goal with
  | |- context [bind (waitForInit _ ?b) _ ?w1] =>
      destruct (waitForInit_cases b w1)
        as (w2 & (Hd2 & Hp2 & Hc2 & evs & Hem & Hnc) & [[Hw Hi]|[Hw Hnd]])
  end.
  - erewrite bind_normal by exact Hw. clear Hw.
    destruct w2 as [dar2 clk2 nm2 ini2 pend2 prov2 calls2 em2 j2].
    js_simpl. simpl in Hd2, Hp2, Hc2, Hem, Hi. subst.
    js_run. destruct nm2; js_run; [|post_leaf].
    destruct (promptTouchID native) as [f|]; js_run.
    + destruct (f (prompt_args options) prov clk2) as [[[[|s d e]|e] p] t];
        js_run.
      * js_ifs; post_leaf.
      * destruct s; [destruct (method_of options) eqn:Hm|]; js_run;
          post_leaf.
      * js_ifs; post_leaf.
    + js_ifs; post_leaf.
  - match goal with
    | |- context [bind ?c ?k ?w1] =>
        replace (bind c k w1) with (@Waiting TouchIDResult, w2)
          by (unfold bind; now rewrite Hw)
    end.
    clear Hw. destruct w2 as [dar2 clk2 nm2 ini2 pend2 prov2 calls2 em2 j2].
    simpl in Hd2, Hp2, Hc2, Hem. subst.
    post_leaf. exact Hnd.
Qed.

(** *** [isAvailable] and [getBiometricInfo] *)

Lemma isAvailable_off_darwin bound (w : World P) :
  darwin w = false ->
  exists j,
    isAvailable native behaviour bound w
    = (Normal false,
       after w (clock w) (provider w) []
         [DeviceUnavailable (clock w)
            (str "Touch ID is only available on macOS")] j).
Proof.
  intros Hd. js_enter w. simpl in *. subst. eexists.
  unfold isAvailable. js_done.
Qed.

Lemma isAvailable_no_module bound (w : World P) :
  darwin w = true -> initialized w = true -> nativeModule w = false ->
  exists j,
    isAvailable native behaviour bound w
    = (Normal false,
       after w (clock w) (provider w) []
         [DeviceUnavailable (clock w)
            (str "Touch ID native module not available")] j).
Proof.
  intros Hd Hi Hn. js_enter w. simpl in *. subst. eexists.
  unfold isAvailable. js_run.
  erewrite bind_normal by (apply waitForInit_initialized; reflexivity).
  js_done.
Qed.

Lemma isAvailable_resolved bound (w : World P) f available p t :
  ready w ->
  canPromptTouchID native = Some f ->
  f (provider w) (clock w) = (Resolved available, p, t) ->
  exists j,
    isAvailable native behaviour bound w
    = (Normal available,
       after w t p [called_canPromptTouchID]
         [if available then DeviceAvailable t (str "TouchID")
          else DeviceUnavailable t
                 (str "Touch ID not available on this device")] j).
Proof.
  intros Hr Hf Hp. js_enter w. simpl in *. subst.
  unfold isAvailable. js_run.
  erewrite bind_normal by (apply waitForInit_initialized; reflexivity).
  js_run. rewrite Hf. js_run. rewrite Hp. js_run.
  destruct available; eexists; js_done.
Qed.

Lemma isAvailable_rejected bound (w : World P) f e p t :
  ready w ->
  canPromptTouchID native = Some f ->
  f (provider w) (clock w) = (Rejected e, p, t) ->
  exists j,
    isAvailable native behaviour bound w
    = (Normal false,
       after w t p [called_canPromptTouchID]
         [DeviceUnavailable t (message_or e (str "Unknown error"))] j).
Proof.
  intros Hr Hf Hp. js_enter w. simpl in *. subst.
  unfold isAvailable. js_run.
  erewrite bind_normal by (apply waitForInit_initialized; reflexivity).
  js_run. rewrite Hf. js_run. rewrite Hp. js_run.
  eexists; js_done.
Qed.

Lemma isAvailable_no_function bound (w : World P) :
  ready w ->
  canPromptTouchID native = None ->
  exists j,
    isAvailable native behaviour bound w
    = (Normal false,
       after w (clock w) (provider w) []
         [DeviceUnavailable (clock w)
            (str "canPromptTouchID function not available")] j).
Proof.
  intros Hr Hf. js_enter w. simpl in *. subst.
  unfold isAvailable. js_run.
  erewrite bind_normal by (apply waitForInit_initialized; reflexivity).
  js_run. rewrite Hf. js_run.
  eexists; js_done.
Qed.

Ltac query_leaf :=
  unfold query_post, after, ret, set_js; js_simpl;
  split; [try reflexivity; try assumption|];
  intros; first [reflexivity | assumption | congruence].

Ltac enter_wait Hd2 Hw Hi Hnd w2 :=
  match goal with
  | |- context [bind (waitForInit _ ?b) _ ?w1] =>
      destruct (waitForInit_cases b w1)
        as (w2 & (Hd2 & _ & _ & _) & [[Hw Hi]|[Hw Hnd]])
  end.

Lemma isAvailable_outcome bound (w : World P) :
  query_post bound w (fst (isAvailable native behaviour bound w))
    (snd (isAvailable native behaviour bound w)).
Proof.
  destruct (darwin w) eqn:Hd.
  2:{ destruct (isAvailable_off_darwin bound w Hd) as [j ->]. query_leaf. }
  destruct w as [dar clk nm ini pend prov calls em j].
  simpl in Hd. subst dar. unfold isAvailable. js_run.
  enter_wait Hd2 Hw Hi Hnd w2.
  - erewrite bind_normal by exact Hw. clear Hw.
    destruct w2 as [dar2 clk2 nm2 ini2 pend2 prov2 calls2 em2 j2].
    simpl in Hd2, Hi. subst.
    js_run. destruct nm2; js_run; [|query_leaf].
    destruct (canPromptTouchID native) as [f|]; js_run; [|query_leaf].
    destruct (f prov2 clk2) as [[[[|]|e] p] t]; js_run; query_leaf.
  - match goal with
    | |- context [bind ?c ?k ?w1] =>
        replace (bind c k w1) with (@Waiting bool, w2)
          by (unfold bind; now rewrite Hw)
    end.
    clear Hw. destruct w2 as [dar2 clk2 nm2 ini2 pend2 prov2 calls2 em2 j2].
    simpl in Hd2. subst. query_leaf.
Qed.

Lemma getBiometricInfo_outcome bound (w : World P) :
  query_post bound w
    (fst (service_getBiometricInfo native behaviour bound w))
    (snd (service_getBiometricInfo native behaviour bound w)).
Proof.
  destruct w as [dar clk nm ini pend prov calls em j].
  unfold service_getBiometricInfo. js_run.
  destruct dar; js_run; [|query_leaf].
  enter_wait Hd2 Hw Hi Hnd w2.
  - erewrite bind_normal by exact Hw. clear Hw.
    destruct w2 as [dar2 clk2 nm2 ini2 pend2 prov2 calls2 em2 j2].
    simpl in Hd2, Hi. subst.
    js_run. destruct nm2; js_run; [|query_leaf].
    destruct (getBiometricInfo native) as [f|]; js_run; [|query_leaf].
    destruct (f prov2 clk2) as [[[i|e] p] t]; js_run; query_leaf.
  - match goal with
    | |- context [bind ?c ?k ?w1] =>
        replace (bind c k w1) with (@Waiting BiometricInfo, w2)
          by (unfold bind; now rewrite Hw)
    end.
    clear Hw. destruct w2 as [dar2 clk2 nm2 ini2 pend2 prov2 calls2 em2 j2].
    simpl in Hd2. subst. query_leaf.
Qed.
End ServiceFacts.

(** ** The native cache *)

Lemma Int32Value_small n : 0 <= n < 2147483648 -> Int32Value n = n.
Proof.
  intros H. unfold Int32Value. rewrite Z.mod_small by lia.
  destruct (Z.ltb_spec n 2147483648); lia.
Qed.



Lemma prompts_loadCache now s : prompts (loadCache now s) = prompts s.
Proof.
  unfold loadCache. destruct (cacheFile s) as [f|]; auto.
  destruct (f_lastAuthTime f); auto.
  destruct (f_isCached f && _); auto.
Qed.

Lemma cacheFile_loadCache now s : cacheFile (loadCache now s) = cacheFile s.
Proof.
  unfold loadCache. destruct (cacheFile s) as [f|] eqn:E; auto.
  destruct (f_lastAuthTime f); auto.
  destruct (f_isCached f && _); auto.
Qed.

Lemma prompts_check_cache m ttl now s :
  prompts (snd (check_cache m ttl now s)) = prompts s.
Proof.
  unfold check_cache. destruct m; auto. simpl.
  destruct (lastAuthTime s); auto. destruct (isCached s); auto.
  destruct (double_lt _ _); auto.
Qed.

Lemma cacheFile_check_cache m ttl now s :
  cacheFile (snd (check_cache m ttl now s)) = cacheFile s.
Proof.
  unfold check_cache. destruct m; auto. simpl.
  destruct (lastAuthTime s); auto. destruct (isCached s); auto.
  destruct (double_lt _ _); auto.
Qed.

Lemma cacheTTL_check_cache ttl now s :
  cacheTTL (snd (check_cache cached ttl now s)) = ttl_seconds ttl.
Proof.
  unfold check_cache. simpl.
  destruct (lastAuthTime s); auto. destruct (isCached s); auto.
  destruct (double_lt _ _); auto.
Qed.

(** The check of a cached request, on the globals that [loadCache] takes
    from a file holding a success. *)
Lemma check_of_recorded ttl' now t0 ttl s :
  cacheFile s = Some (recorded t0 ttl) ->
  fst (check_cache cached ttl' now (loadCache now s))
  = negb (double_ge (timeIntervalSinceDate now t0) ttl)
    && double_lt (timeIntervalSinceDate now t0) (ttl_seconds ttl').
Proof.
  intros Hf. unfold loadCache. rewrite Hf.
  cbn [recorded f_lastAuthTime f_isCached f_cacheTTL andb].
  destruct (double_ge (timeIntervalSinceDate now t0) ttl);
    cbn [check_cache lastAuthTime isCached cacheTTL negb andb fst];
    [reflexivity|].
  destruct (double_lt _ _); reflexivity.
Qed.

Lemma cacheFile_record_success now s :
  cacheFile (record_success cached now s)
  = Some (recorded (plist_date now) (cacheTTL s)).
Proof. reflexivity. Qed.

Lemma prompts_record_success m now s :
  prompts (record_success m now s) = prompts s.
Proof. destruct m; reflexivity. Qed.

(** The three ways a cached prompt can end. *)
Lemma PromptTouchID_cached dev args s now :
  p_method args = cached ->
  let reply := evaluatePolicy dev (prompts s) in
  (exists s',
      PromptTouchID dev args s now
      = (Resolved (ResultObject true (Some (deviceData dev)) None), s',
         now + collect_elapsed dev)
      /\ prompts s' = prompts s /\ cacheFile s' = cacheFile s)
  \/ (exists err s',
         PromptTouchID dev args s now
         = (Rejected (ThrownString err), s', now + la_elapsed reply)
         /\ la_error reply = Some err
         /\ prompts s' = S (prompts s) /\ cacheFile s' = cacheFile s)
  \/ (exists s2,
         PromptTouchID dev args s now
         = (Resolved (ResultObject true (Some (deviceData dev)) None),
            record_success cached
              (NSDate_date dev (now + la_elapsed reply)) s2,
            now + la_elapsed reply + collect_elapsed dev)
         /\ la_error reply = None
         /\ cacheTTL s2 = ttl_seconds (Int32Value (p_ttl args))
         /\ prompts s2 = S (prompts s)).
Proof.
  intros Hm reply. unfold PromptTouchID. rewrite Hm.
  pose proof (prompts_check_cache cached (Int32Value (p_ttl args))
                (NSDate_date dev now) (loadCache (NSDate_date dev now) s))
    as Hp.
  pose proof (cacheTTL_check_cache (Int32Value (p_ttl args))
                (NSDate_date dev now) (loadCache (NSDate_date dev now) s))
    as Ht.
  pose proof (cacheFile_check_cache cached (Int32Value (p_ttl args))
                (NSDate_date dev now) (loadCache (NSDate_date dev now) s))
    as Hc.
  rewrite prompts_loadCache in Hp. rewrite cacheFile_loadCache in Hc.
  destruct (check_cache cached (Int32Value (p_ttl args))
              (NSDate_date dev now) (loadCache (NSDate_date dev now) s))
    as [useCache s1].
  cbn [snd] in Hp, Ht, Hc. destruct useCache.
  - left. eexists. split; [reflexivity | split; assumption].
  - rewrite Hp. fold reply. destruct (la_error reply) as [err|] eqn:He.
    + right. left. eexists _, _. split; [reflexivity|].
      split; [reflexivity|]. cbn [count_prompt prompts cacheFile].
      split; [now rewrite Hp | exact Hc].
    + right. right. exists (count_prompt s1). split; [reflexivity|].
      split; [reflexivity|].
      cbn [count_prompt prompts cacheTTL]. rewrite Hp. auto.
Qed.




(** ** The service: claims *)

(** C1.  A challenge that the provider declines.  On a Mac whose native
    module is loaded, with a provider that resolves its challenge with
    [{ success: false, error: 'Authentication failed' }], [authenticate]
    emits [authentication:failure] with the provider's error and then
    returns [{ success: true }] without an error: the result is built
    after the branch on [result.success], with [success: true] written
    in. *)
Theorem authenticate_reports_success_for_declined_challenge :
  fst (authenticate declining quiet engine_message 5 no_options
         (mac_service tt))
  = Normal {| success := true; error := None; data := None |}
  /\ new_events (mac_service tt)
       (snd (authenticate declining quiet engine_message 5 no_options
               (mac_service tt)))
     = [AuthenticationStart 10 direct (str "Authenticate with Touch ID");
        AuthenticationFailure 1510 direct AUTHENTICATION_FAILED 1500].
Proof. split; vm_compute; reflexivity. Qed.

(** The same for every provider, every handler and every loaded
    service: whatever the success flag of the resolved result, the
    result returned has [success = true] and no error. *)
Lemma authenticate_ignores_success_flag
  {P} (native : Provider P) behaviour tem bound options (w : World P)
  f r_success r_data r_error p t :
  ready w ->
  valid (validateOptions options) = true ->
  promptTouchID native = Some f ->
  f (prompt_args options) (provider w) (clock w)
  = (Resolved (ResultObject r_success r_data r_error), p, t) ->
  fst (authenticate native behaviour tem bound options w)
  = Normal {| success := true; error := None; data := r_data |}.
Proof.
  intros Hr Hv Hf Hp.
  destruct (authenticate_resolved native behaviour tem bound options w f
              r_success r_data r_error p t Hr Hv Hf Hp) as [j ->].
  reflexivity.
Qed.

(** In every result that [authenticate] returns, an error comes with
    [success = false]. *)
Lemma authenticate_error_only_on_failure
  {P} (native : Provider P) behaviour tem bound options (w : World P) r :
  fst (authenticate native behaviour tem bound options w) = Normal r ->
  error r <> None -> success r = false.
Proof.
  intros Hr. pose proof (authenticate_outcome native behaviour tem bound
                           options w) as (_ & _ & H).
  rewrite Hr in H. apply H.
Qed.

(** ** Validation *)

Lemma validateOptions_invalid options :
  ttl_out_of_range options \/ reason_blank options ->
  valid (validateOptions options) = false
  /\ (ttl_out_of_range options ->
      v_error (validateOptions options) = Some TTL_MESSAGE)
  /\ (~ ttl_out_of_range options ->
      v_error (validateOptions options) = Some REASON_MESSAGE).
Proof.
  unfold ttl_out_of_range, reason_blank, validateOptions.
  intros H. destruct (ttl options) as [t|] eqn:Ht.
  - destruct ((t <? 1000) || (t >? 300000)) eqn:E.
    + simpl. repeat split; auto.
      intros Hn. exfalso. apply Hn. exists t. split; auto.
      apply orb_true_iff in E. destruct E as [E|E].
      * apply Z.ltb_lt in E. lia.
      * apply Z.gtb_lt in E. lia.
    + apply orb_false_iff in E. destruct E as [E1 E2].
      apply Z.ltb_ge in E1. rewrite Z.gtb_ltb in E2. apply Z.ltb_ge in E2.
      destruct H as [(t' & Ht' & Hr)|(r & Hr & Hb)].
      * inversion Ht'; subst. lia.
      * rewrite Hr, Hb. simpl. repeat split; auto.
        intros (t' & Ht' & Hbad). inversion Ht'; subst. lia.
  - destruct H as [(t' & Ht' & _)|(r & Hr & Hb)]; [discriminate|].
    rewrite Hr, Hb. simpl. repeat split; auto.
    intros (t' & Ht' & _). discriminate.
Qed.

(** C3, as amended.  A call whose options carry a ttl outside
    [1000, 300000] or a reason that is empty after trimming fails without
    any call on the provider.  On macOS the error is the validation
    message (the ttl message when the ttl is out of range, else the
    reason message) and the events are [authentication:start] and
    [authentication:failure]; on another platform the platform check
    comes first and the error is 'Touch ID not available'. *)
Theorem invalid_options_fail_before_provider :
  forall (P : Type) (native : Provider P) (behaviour : Behaviour)
         (tem : jsstring) (bound : nat) (options : TouchIDOptions)
         (w : World P),
    ttl_out_of_range options \/ reason_blank options ->
    exists (msg : jsstring) (j : JsEnv),
      authenticate native behaviour tem bound options w
      = (Normal {| success := false; error := Some msg; data := None |},
         after w (clock w) (provider w) []
           [AuthenticationStart (clock w) (method_of options)
              (reason_of options);
            AuthenticationFailure (clock w) (method_of options) msg
              (clock w - clock w)] j)
      /\ (darwin w = true -> ttl_out_of_range options -> msg = TTL_MESSAGE)
      /\ (darwin w = true -> ~ ttl_out_of_range options ->
          msg = REASON_MESSAGE)
      /\ (darwin w = false -> msg = NOT_AVAILABLE).
Proof.
  intros P native behaviour tem bound options w Hbad.
  destruct (validateOptions_invalid options Hbad) as (Hv & Httl & Hreason).
  destruct (darwin w) eqn:Hd.
  - destruct (authenticate_invalid native behaviour tem bound options w Hd Hv)
      as [j Hj].
    exists (assert_defined (v_error (validateOptions options))), j.
    split; [exact Hj|]. repeat split; intros; try discriminate.
    + rewrite Httl; auto.
    + rewrite Hreason; auto.
  - destruct (authenticate_off_darwin native behaviour tem bound options w Hd)
      as [j Hj].
    exists NOT_AVAILABLE, j. split; [exact Hj|].
    repeat split; intros; try discriminate; try reflexivity.
Qed.

Lemma invalid_options_fail_before_provider_witness :
  exists (msg : jsstring) (j : JsEnv),
    authenticate declining quiet engine_message 5 ttl_500 (mac_service tt)
    = (Normal {| success := false; error := Some msg; data := None |},
       after (mac_service tt) 10 tt []
         [AuthenticationStart 10 direct (str "Authenticate with Touch ID");
          AuthenticationFailure 10 direct msg (10 - 10)] j)
    /\ msg = TTL_MESSAGE.
Proof.
  assert (Hbad : ttl_out_of_range ttl_500 \/ reason_blank ttl_500).
  { left. exists 500. split; [reflexivity | lia]. }
  destruct (invalid_options_fail_before_provider unit declining quiet
              engine_message 5 ttl_500 (mac_service tt) Hbad)
    as (msg & j & Hrun & Httl & _).
  exists msg, j. split; [exact Hrun|].
  apply Httl; [reflexivity|]. exists 500. split; [reflexivity | lia].
Defined.

(** C3 as stated fails off macOS: with [ttl = 500] the error returned is
    'Touch ID not available', not the validation message. *)
Lemma validation_message_counterexample :
  fst (authenticate declining quiet engine_message 5 ttl_500
         (linux_service tt))
  = Normal (failure NOT_AVAILABLE)
  /\ fst (authenticate declining quiet engine_message 5 ttl_500
            (linux_service tt))
     <> Normal (failure TTL_MESSAGE).
Proof. split; vm_compute; [reflexivity | discriminate]. Qed.

(** ** Availability *)

(** C9, as amended.  With [{ method: 'direct' }]: off macOS the call
    returns [{ success: false, error: 'Touch ID not available' }]
    without a call of the provider; on macOS, once the service is
    initialized and the native module did not load, it returns the error
    'Touch ID native module not available', again without a call of the
    provider; [isAvailable] is false in both states.  With the module
    loaded [isAvailable] is false whenever [canPromptTouchID] does not
    resolve with true, but [authenticate] does not consult it: whatever
    it answers, the call asks [promptTouchID] once.  In every state,
    whatever the provider does, the call emits no [cache:*] event. *)
Theorem direct_authentication_when_unavailable :
  forall (P : Type) (native : Provider P) (behaviour : Behaviour)
         (tem : jsstring) (bound : nat) (w : World P),
    (darwin w = false ->
     fst (isAvailable native behaviour bound w) = Normal false
     /\ exists j,
         authenticate native behaviour tem bound direct_only w
         = (Normal {| success := false; error := Some NOT_AVAILABLE;
                      data := None |},
            after w (clock w) (provider w) []
              [AuthenticationStart (clock w) direct
                 (str "Authenticate with Touch ID");
               AuthenticationFailure (clock w) direct NOT_AVAILABLE
                 (clock w - clock w)] j))
    /\ (darwin w = true -> initialized w = true -> nativeModule w = false ->
        fst (isAvailable native behaviour bound w) = Normal false
        /\ exists j,
            authenticate native behaviour tem bound direct_only w
            = (Normal {| success := false;
                         error := Some (str "Touch ID native module not available");
                         data := None |},
               after w (clock w) (provider w) []
                 [AuthenticationStart (clock w) direct
                    (str "Authenticate with Touch ID");
                  AuthenticationFailure (clock w) direct
                    (str "Touch ID native module not available")
                    (clock w - clock w)] j))
    /\ (ready w ->
        (forall g p t, canPromptTouchID native = Some g ->
                       g (provider w) (clock w) <> (Resolved true, p, t)) ->
        fst (isAvailable native behaviour bound w) = Normal false)
    /\ (ready w ->
        forall f, promptTouchID native = Some f ->
        provider_calls
          (snd (authenticate native behaviour tem bound direct_only w))
        = provider_calls w ++ [called_promptTouchID (prompt_args direct_only)])
    /\ (exists evs,
           emitted (snd (authenticate native behaviour tem bound direct_only w))
           = emitted w ++ evs
           /\ no_cache_events evs).
Proof.
  intros P native behaviour tem bound w. split; [|split; [|split; [|split]]].
  - intros Hd. split.
    + destruct (isAvailable_off_darwin native behaviour bound w Hd) as [j ->].
      reflexivity.
    + exact (authenticate_off_darwin native behaviour tem bound direct_only
               w Hd).
  - intros Hd Hi Hn. split.
    + destruct (isAvailable_no_module native behaviour bound w Hd Hi Hn)
        as [j ->].
      reflexivity.
    + exact (authenticate_no_module native behaviour tem bound direct_only
               w Hd Hi Hn eq_refl).
  - intros Hr Hno.
    destruct (canPromptTouchID native) as [g|] eqn:Hg.
    + destruct (g (provider w) (clock w)) as [[[[|]|e] p] t] eqn:Hc.
      * destruct (Hno g p t eq_refl Hc).
      * destruct (isAvailable_resolved native behaviour bound w g false p t
                    Hr Hg Hc) as [j ->].
        reflexivity.
      * destruct (isAvailable_rejected native behaviour bound w g e p t
                    Hr Hg Hc) as [j ->].
        reflexivity.
    + destruct (isAvailable_no_function native behaviour bound w Hr Hg)
        as [j ->].
      reflexivity.
  - intros Hr f Hf.
    destruct (f (prompt_args direct_only) (provider w) (clock w))
      as [[[[|s d e]|e] p] t] eqn:Hc.
    + destruct (authenticate_nullish native behaviour tem bound direct_only
                  w f p t Hr eq_refl Hf Hc) as [j ->].
      reflexivity.
    + destruct (authenticate_resolved native behaviour tem bound direct_only
                  w f s d e p t Hr eq_refl Hf Hc) as [j ->].
      reflexivity.
    + destruct (authenticate_rejected native behaviour tem bound direct_only
                  w f e p t Hr eq_refl Hf Hc) as [j ->].
      reflexivity.
  - destruct (authenticate_outcome native behaviour tem bound direct_only w)
      as (_ & (evs & Hem & Hnc) & _).
    exists evs. split; [exact Hem | apply Hnc; reflexivity].
Qed.

Lemma direct_authentication_when_unavailable_witness :
  (fst (isAvailable declining quiet 5 (linux_service tt)) = Normal false
   /\ fst (authenticate declining quiet engine_message 5 direct_only
             (linux_service tt))
      = Normal {| success := false; error := Some NOT_AVAILABLE;
                  data := None |})
  /\ fst (isAvailable (touchid_native a_mac_unable) quiet 5
            (mac_service (native_start None)))
     = Normal false
  /\ provider_calls
       (snd (authenticate (touchid_native a_mac_unable) quiet engine_message
               5 direct_only (mac_service (native_start None))))
     = provider_calls (mac_service (native_start None))
       ++ [called_promptTouchID (prompt_args direct_only)].
Proof.
  destruct (direct_authentication_when_unavailable unit declining quiet
              engine_message 5 (linux_service tt)) as [Hoff _].
  destruct (Hoff eq_refl) as [Hav [j Hj]].
  destruct (direct_authentication_when_unavailable NativeState
              (touchid_native a_mac_unable) quiet engine_message 5
              (mac_service (native_start None)))
    as (_ & _ & Hfalse & Hcall & _).
  split; [split; [exact Hav | rewrite Hj; reflexivity]|].
  split.
  - apply Hfalse; [repeat split|].
    intros g p t Hg Hc. injection Hg as <-. discriminate.
  - apply (Hcall ltac:(repeat split) (PromptTouchID a_mac_unable) eq_refl).
Defined.

(** C9 as stated fails in two kinds of state.  On a Mac whose native
    module did not load, [isAvailable] is false and the error of the
    direct call is 'Touch ID native module not available'.  On a Mac
    whose module is loaded but which cannot prompt, [isAvailable] is
    false and the direct call that follows still asks [promptTouchID],
    and returns the error of the failed prompt. *)
Lemma unavailable_error_counterexample :
  (fst (isAvailable declining quiet 5 (mac_service_without_module tt))
   = Normal false
   /\ fst (authenticate declining quiet engine_message 5 direct_only
             (mac_service_without_module tt))
      <> Normal {| success := false; error := Some NOT_AVAILABLE;
                   data := None |})
  /\ (fst (isAvailable (touchid_native a_mac_unable) quiet 5
             (mac_service (native_start None)))
      = Normal false
      /\ fst direct_call_when_unable
         <> Normal {| success := false; error := Some NOT_AVAILABLE;
                      data := None |}
      /\ provider_calls (snd direct_call_when_unable)
         = [called_canPromptTouchID;
            called_promptTouchID (prompt_args direct_only)]).
Proof.
  split; [split|split; [|split]]; vm_compute;
    first [reflexivity | discriminate].
Qed.

(** ** Completions of the public operations *)

Lemma operations_never_throw
  {P} (native : Provider P) behaviour tem bound options (w : World P) :
  (forall e,
      fst (authenticate native behaviour tem bound options w) <> Throw e)
  /\ (forall e, fst (isAvailable native behaviour bound w) <> Throw e)
  /\ (forall e,
         fst (service_getBiometricInfo native behaviour bound w) <> Throw e).
Proof.
  pose proof (authenticate_outcome native behaviour tem bound options w)
    as (_ & _ & Ha).
  pose proof (isAvailable_outcome native behaviour bound w) as (_ & Hi).
  pose proof (getBiometricInfo_outcome native behaviour bound w) as (_ & Hg).
  repeat split; intros e He; rewrite He in *; assumption.
Qed.

Lemma operations_return_when_due
  {P} (native : Provider P) behaviour tem bound options (w : World P) :
  due bound w ->
  (exists r w',
      authenticate native behaviour tem bound options w = (Normal r, w'))
  /\ (exists b w', isAvailable native behaviour bound w = (Normal b, w'))
  /\ (exists i w',
         service_getBiometricInfo native behaviour bound w = (Normal i, w')).
Proof.
  intros Hdue.
  pose proof (authenticate_outcome native behaviour tem bound options w)
    as (_ & _ & Ha).
  pose proof (isAvailable_outcome native behaviour bound w) as (_ & Hi).
  pose proof (getBiometricInfo_outcome native behaviour bound w) as (_ & Hg).
  destruct (authenticate native behaviour tem bound options w)
    as [[r|e|] wa];
    destruct (isAvailable native behaviour bound w) as [[b|e'|] wi];
    destruct (service_getBiometricInfo native behaviour bound w)
      as [[i|e''|] wg];
    simpl in Ha, Hi, Hg; try contradiction.
  repeat split; eauto.
Qed.

(** ** Initialization *)

Lemma new_TouchIDService_off_darwin {P} behaviour now (p : P) turns load :
  initialized (new_TouchIDService behaviour false now p turns load) = true.
Proof. reflexivity. Qed.

(** C4, as amended.  [isAvailable] and [getBiometricInfo] on macOS, and
    [authenticate] on macOS with valid options, return only once
    initialization has finished, and they do return when the import of
    the native module settles within the polling bound; off macOS
    initialization has finished when the constructor returns.
    ([authenticate] with invalid options returns its validation failure
    without waiting.) *)
Theorem operations_wait_for_initialization :
  forall (P : Type) (native : Provider P) (behaviour : Behaviour)
         (tem : jsstring) (bound : nat) (options : TouchIDOptions)
         (w : World P),
    (forall r w',
        authenticate native behaviour tem bound options w = (Normal r, w') ->
        darwin w = true -> valid (validateOptions options) = true ->
        initialized w' = true)
    /\ (forall b w',
           isAvailable native behaviour bound w = (Normal b, w') ->
           darwin w = true -> initialized w' = true)
    /\ (forall i w',
           service_getBiometricInfo native behaviour bound w = (Normal i, w') ->
           darwin w = true -> initialized w' = true)
    /\ (due bound w ->
        (exists r w',
            authenticate native behaviour tem bound options w = (Normal r, w'))
        /\ (exists b w', isAvailable native behaviour bound w = (Normal b, w'))
        /\ (exists i w',
               service_getBiometricInfo native behaviour bound w
               = (Normal i, w')))
    /\ (forall now (p : P) turns load,
           initialized (new_TouchIDService behaviour false now p turns load)
           = true).
Proof.
  intros P native behaviour tem bound options w.
  split; [|split; [|split; [|split]]].
  - intros r w' Hrun.
    pose proof (authenticate_outcome native behaviour tem bound options w)
      as (_ & _ & H).
    rewrite Hrun in H. apply H.
  - intros b w' Hrun.
    pose proof (isAvailable_outcome native behaviour bound w) as (_ & H).
    rewrite Hrun in H. apply H.
  - intros i w' Hrun.
    pose proof (getBiometricInfo_outcome native behaviour bound w) as (_ & H).
    rewrite Hrun in H. apply H.
  - apply operations_return_when_due.
  - intros now p turns load. apply new_TouchIDService_off_darwin.
Qed.

Lemma operations_wait_for_initialization_witness :
  exists r w',
    authenticate declining quiet engine_message 5 no_options
      (mac_service_loading tt) = (Normal r, w')
    /\ initialized w' = true.
Proof.
  destruct (operations_wait_for_initialization unit declining quiet
              engine_message 5 no_options (mac_service_loading tt))
    as [Hauth _].
  eexists _, _. split.
  - vm_compute. reflexivity.
  - eapply Hauth; [vm_compute; reflexivity | reflexivity | reflexivity].
Defined.

(** C4 as stated fails for [authenticate] with invalid options on macOS:
    called while the import of the native module is pending, it returns
    its validation failure, and the service is not initialized yet. *)
Lemma returns_before_initialization_counterexample :
  fst (authenticate declining quiet engine_message 5 ttl_500
         (mac_service_loading tt))
  = Normal (failure TTL_MESSAGE)
  /\ initialized
       (snd (authenticate declining quiet engine_message 5 ttl_500
               (mac_service_loading tt))) = false.
Proof. split; vm_compute; reflexivity. Qed.

(** ** The API boundary *)

(** C5.  No public operation throws.  Whatever the provider does
    (resolve with anything, reject with anything, lack the function),
    whatever the handlers do and whatever the state of the service,
    [authenticate], [isAvailable] and [getBiometricInfo] never complete
    by throwing, and they return a value once initialization is due
    within the polling bound.  When the availability check of the
    provider rejects with [e], [isAvailable] returns false and emits
    [device:unavailable] whose reason is the message of [e] ('Unknown
    error' when [e] is not an Error); the same when the module has no
    such function. *)
Theorem public_operations_never_throw :
  forall (P : Type) (native : Provider P) (behaviour : Behaviour)
         (tem : jsstring) (bound : nat) (options : TouchIDOptions)
         (w : World P),
    (forall e,
        fst (authenticate native behaviour tem bound options w) <> Throw e)
    /\ (forall e, fst (isAvailable native behaviour bound w) <> Throw e)
    /\ (forall e,
           fst (service_getBiometricInfo native behaviour bound w) <> Throw e)
    /\ (due bound w ->
        (exists r w',
            authenticate native behaviour tem bound options w = (Normal r, w'))
        /\ (exists b w', isAvailable native behaviour bound w = (Normal b, w'))
        /\ (exists i w',
               service_getBiometricInfo native behaviour bound w
               = (Normal i, w')))
    /\ (ready w ->
        forall f e p t,
          canPromptTouchID native = Some f ->
          f (provider w) (clock w) = (Rejected e, p, t) ->
          exists j,
            isAvailable native behaviour bound w
            = (Normal false,
               after w t p [called_canPromptTouchID]
                 [DeviceUnavailable t (message_or e (str "Unknown error"))] j))
    /\ (ready w ->
        canPromptTouchID native = None ->
        exists j,
          isAvailable native behaviour bound w
          = (Normal false,
             after w (clock w) (provider w) []
               [DeviceUnavailable (clock w)
                  (str "canPromptTouchID function not available")] j)).
Proof.
  intros P native behaviour tem bound options w.
  destruct (operations_never_throw native behaviour tem bound options w)
    as (Ha & Hi & Hg).
  split; [exact Ha|]. split; [exact Hi|]. split; [exact Hg|].
  split; [apply operations_return_when_due|]. split.
  - intros Hr f e p t Hf Hp.
    exact (isAvailable_rejected native behaviour bound w f e p t Hr Hf Hp).
  - intros Hr Hf.
    exact (isAvailable_no_function native behaviour bound w Hr Hf).
Qed.

Lemma public_operations_never_throw_witness :
  (exists r w',
      authenticate faulty quiet engine_message 5 no_options
        (mac_service_loading tt) = (Normal r, w'))
  /\ exists j,
      isAvailable faulty quiet 5 (mac_service tt)
      = (Normal false,
         after (mac_service tt) 10 tt [called_canPromptTouchID]
           [DeviceUnavailable 10 (str "LAContext unavailable")] j).
Proof.
  split.
  - destruct (public_operations_never_throw unit faulty quiet engine_message
                5 no_options (mac_service_loading tt))
      as (_ & _ & _ & Hdue & _).
    assert (Hd : due 5 (mac_service_loading tt)).
    { right. eexists. split; [reflexivity | simpl; lia]. }
    exact (proj1 (Hdue Hd)).
  - destruct (public_operations_never_throw unit faulty quiet engine_message
                5 no_options (mac_service tt))
      as (_ & _ & _ & _ & Hrej & _).
    assert (Hr : ready (mac_service tt)) by (repeat split; reflexivity).
    exact (Hrej Hr _ (ErrorObject (str "LAContext unavailable")) tt 10
             eq_refl eq_refl).
Defined.

(** [test] is the operation that throws: off macOS it raises its
    error. *)
Example test_throws_when_unavailable :
  fst (test declining quiet engine_message 5 (linux_service tt))
  = Throw (ErrorObject (str "Touch ID is not available on this device")).
Proof. vm_compute. reflexivity. Qed.

(** ** Cached authentication *)

(** Whenever a cached call is answered from the native cache (no
    prompt is shown), on any Mac and in any state of the cache, the
    service emits [authentication:start], [cache:created] and
    [authentication:success]: the same events as for a call that
    created the record.  The cache file is left as it was. *)
Lemma every_cached_hit_emits_cache_created
  (dev : Device) (behaviour : Behaviour) (tem : jsstring) (bound : nat)
  (options : TouchIDOptions) (w : World NativeState) :
  ready w ->
  valid (validateOptions options) = true ->
  method_of options = cached ->
  prompts (state_after dev (prompt_args options) (provider w) (clock w))
  = prompts (provider w) ->
  cacheFile (state_after dev (prompt_args options) (provider w) (clock w))
  = cacheFile (provider w)
  /\ exists j,
      authenticate (touchid_native dev) behaviour tem bound options w
      = (Normal {| success := true; error := None;
                   data := Some (deviceData dev) |},
         after w (clock w + collect_elapsed dev)
           (state_after dev (prompt_args options) (provider w) (clock w))
           [called_promptTouchID (prompt_args options)]
           [AuthenticationStart (clock w) cached (reason_of options);
            CacheCreated (clock w + collect_elapsed dev) (ttl_of options);
            AuthenticationSuccess (clock w + collect_elapsed dev) cached
              (clock w + collect_elapsed dev - clock w)
              (Some (deviceData dev))] j).
Proof.
  intros Hr Hv Hm Hhit.
  assert (Ha : p_method (prompt_args options) = cached) by exact Hm.
  assert (Hf : promptTouchID (touchid_native dev) = Some (PromptTouchID dev))
    by reflexivity.
  unfold state_after in *.
  destruct (PromptTouchID_cached dev (prompt_args options) (provider w)
              (clock w) Ha)
    as [(s' & Hnat & Hsame & Hfile)
       | [(err & s' & Hnat & _ & Hp & _) | (s2 & Hnat & _ & _ & Hp)]].
  - rewrite Hnat in *. cbn [fst snd] in *. split; [exact Hfile|].
    destruct (authenticate_resolved (touchid_native dev) behaviour tem bound
                options w _ _ _ _ _ _ Hr Hv Hf Hnat) as [j Hj].
    exists j. rewrite Hj. unfold resolved_events. rewrite Hm. reflexivity.
  - rewrite Hnat in Hhit. cbn [fst snd] in Hhit. lia.
  - rewrite Hnat in Hhit. cbn [fst snd] in Hhit.
    rewrite prompts_record_success in Hhit. lia.
Qed.

(** C2.  On a Mac without a cache file, a first call with
    [method = cached], [ttl = 30000] shows the prompt and succeeds; a
    second such call twenty seconds later is answered from the native
    cache: no prompt is shown and the cache file is left as it was.  The
    events of the second call are [authentication:start],
    [cache:created], [authentication:success]: [cache:created] although
    nothing was created, and no [cache:used]. *)
Theorem cached_hit_emits_cache_created :
  success_of_first_call_and_hit
  /\ cacheFile (provider (snd second_cached_call))
     = cacheFile (provider (snd first_cached_call))
  /\ event_types
       (new_events (set_clock (a_day_in_2023 + 20000) (snd first_cached_call))
          (snd second_cached_call))
     = [authentication_start; cache_created; authentication_success].
Proof.
  split; [|split].
  - unfold success_of_first_call_and_hit. split; [|split].
    + eexists. split; vm_compute; reflexivity.
    + vm_compute. reflexivity.
    + vm_compute. reflexivity.
  - vm_compute. reflexivity.
  - vm_compute. reflexivity.
Qed.


(** * Further properties of the event emitter *)

Lemma snd_perform c s :
  snd (perform c s)
  = set_listeners (fun _ => registry_after c (listeners s)) s.
Proof. now rewrite perform_spec. Qed.

Lemma registered_perform event c s :
  registered event (snd (perform c s))
  = lookup event (registry_after c (listeners s)).
Proof. now rewrite snd_perform. Qed.

Lemma lookup_add event h o m :
  lookup event
    (Map_set event (lookup event m ++ [{| handler := h; once := o |}])
       (if Map_has event m then m else Map_set event [] m))
  = lookup event m ++ [{| handler := h; once := o |}].
Proof. apply lookup_set_same. Qed.

Lemma lookup_add_other event e' h o m :
  e' <> event ->
  lookup e'
    (Map_set event (lookup event m ++ [{| handler := h; once := o |}])
       (if Map_has event m then m else Map_set event [] m))
  = lookup e' m.
Proof.
  intros Hne. rewrite lookup_set_other by congruence.
  destruct (Map_has event m); [reflexivity|].
  apply lookup_set_other. congruence.
Qed.

Lemma splice1_findIndex h l :
  match findIndex (fun x => Nat.eqb (handler x) h) l with
  | Some i => splice1 i l
  | None => l
  end = without_first h l.
Proof.
  induction l as [|x r IH]; simpl; [reflexivity|].
  destruct (Nat.eqb (handler x) h); [reflexivity|].
  destruct (findIndex _ r) as [i|]; simpl; now rewrite <- IH.
Qed.

Lemma length_zero_nil {A} (l : list A) :
  Nat.eqb (List.length l) 0 = true <-> l = [].
Proof.
  destruct l; simpl; split; intros H; try reflexivity; discriminate.
Qed.

Lemma lookup_off event h m :
  lookup event (registry_after (CallOff event h) m)
  = without_first h (lookup event m).
Proof.
  rewrite registry_after_off. unfold lookup at 2.
  destruct (Map_get event m) as [l|] eqn:E.
  - cbv zeta. rewrite splice1_findIndex.
    destruct (Nat.eqb (List.length (without_first h l)) 0) eqn:L.
    + rewrite lookup_delete_same. apply length_zero_nil in L. now rewrite L.
    + apply lookup_set_same.
  - unfold lookup. now rewrite E.
Qed.

Lemma lookup_off_other event e' h m :
  e' <> event ->
  lookup e' (registry_after (CallOff event h) m) = lookup e' m.
Proof.
  intros Hne. rewrite registry_after_off.
  destruct (Map_get event m) as [l|] eqn:E; [|reflexivity].
  cbv zeta. destruct (Nat.eqb _ 0).
  - rewrite lookup_delete_other by congruence.
    apply lookup_set_other. congruence.
  - apply lookup_set_other. congruence.
Qed.

Lemma keys_off event h m :
  In event (Map_keys (registry_after (CallOff event h) m))
  <-> without_first h (lookup event m) <> [].
Proof.
  rewrite Map_keys_get, registry_after_off. unfold lookup.
  destruct (Map_get event m) as [l|] eqn:E.
  - cbv zeta. rewrite splice1_findIndex.
    destruct (Nat.eqb (List.length (without_first h l)) 0) eqn:L.
    + rewrite Map_get_delete_same. apply length_zero_nil in L.
      split; congruence.
    + rewrite Map_get_set_same. split; [|congruence].
      intros _ H. apply length_zero_nil in H. congruence.
  - rewrite E. simpl. split; congruence.
Qed.

Lemma without_first_app h l x :
  without_first h (l ++ [x])
  = match entries_of h l with
    | O => if Nat.eqb (handler x) h then l else l ++ [x]
    | S _ => without_first h l ++ [x]
    end.
Proof.
  unfold entries_of. induction l as [|y r IH]; simpl.
  - destruct (Nat.eqb (handler x) h); reflexivity.
  - destruct (Nat.eqb (handler y) h); simpl; [reflexivity|].
    rewrite IH. destruct (List.length _); [|reflexivity].
    destruct (Nat.eqb (handler x) h); reflexivity.
Qed.

(** X1. [on] and [once] append the new listener after the listeners
    already registered for the event, whether or not the handler is
    registered already; the listeners of the other events stay as they
    are, the count of the event grows by one and the event is listed by
    [eventNames]. *)
Theorem registration_appends (o : bool) event h s :
  let s' := snd ((if o then once_ event h else on event h) s) in
  registered event s'
  = registered event s ++ [{| handler := h; once := o |}]
  /\ (forall e', e' <> event -> registered e' s' = registered e' s)
  /\ listenerCount event s' = S (listenerCount event s)
  /\ In event (eventNames s')
  /\ invoked s' = invoked s.
Proof.
  cbv zeta.
  assert (E : (if o then once_ event h else on event h) s
              = perform (if o then CallOnce event h else CallOn event h) s)
    by (destruct o; reflexivity).
  rewrite E, snd_perform. clear E.
  assert (R : registry_after (if o then CallOnce event h else CallOn event h)
                (listeners s)
              = Map_set event
                  (lookup event (listeners s)
                   ++ [{| handler := h; once := o |}])
                  (if Map_has event (listeners s) then listeners s
                   else Map_set event [] (listeners s))).
  { destruct o; [apply registry_after_once | apply registry_after_on]. }
  unfold registered, listenerCount, eventNames. cbn [set_listeners listeners invoked].
  rewrite R. clear R.
  split; [apply lookup_add|].
  split; [intros e' Hne; now apply lookup_add_other|].
  split.
  - rewrite Map_get_set_same, length_app. cbn [List.length].
    unfold lookup. destruct (Map_get event (listeners s)); simpl; lia.
  - split; [|reflexivity].
    apply Map_keys_get. rewrite Map_get_set_same. congruence.
Qed.

Lemma without_first_absent h l :
  entries_of h l = O -> without_first h l = l.
Proof.
  unfold entries_of. induction l as [|x r IH]; simpl; [reflexivity|].
  destruct (Nat.eqb (handler x) h); [discriminate|].
  intros H. now rewrite IH.
Qed.

Lemma Map_set_same k v m : Map_get k m = Some v -> Map_set k v m = m.
Proof.
  induction m as [|[k' v'] r IH]; simpl; [discriminate|].
  destruct (event_eqb k k') eqn:E.
  - intros H. injection H as ->. apply event_eqb_eq in E. now subst.
  - intros H. now rewrite IH.
Qed.

Lemma keys_off_other event e' h m :
  e' <> event ->
  In e' (Map_keys (registry_after (CallOff event h) m))
  <-> In e' (Map_keys m).
Proof.
  intros Hne. rewrite !Map_keys_get, registry_after_off.
  destruct (Map_get event m) as [l|] eqn:E; [|reflexivity].
  cbv zeta. destruct (Nat.eqb _ 0).
  - rewrite Map_get_delete_other, Map_get_set_other by congruence.
    reflexivity.
  - rewrite Map_get_set_other by congruence. reflexivity.
Qed.

Lemma off_absent_handler event h m :
  entries_of h (lookup event m) = O ->
  lookup event m <> [] \/ ~ In event (Map_keys m) ->
  registry_after (CallOff event h) m = m.
Proof.
  intros H0 Hor. rewrite registry_after_off.
  unfold lookup in *. rewrite Map_keys_get in Hor.
  destruct (Map_get event m) as [l|] eqn:E; [|reflexivity].
  cbv zeta. rewrite splice1_findIndex, (without_first_absent h l H0).
  destruct l as [|x r].
  - destruct Hor as [Hor|Hor]; [congruence|]. destruct Hor. congruence.
  - cbn [List.length Nat.eqb]. now apply Map_set_same.
Qed.

(** X2. [off] removes the first listener of the event registered for
    the handler: later registrations of the same handler, the other
    listeners and the other events stay.  Afterwards the event is
    listed by [eventNames] exactly when it still has listeners, so [off]
    also drops an entry of the event that was empty already, whatever
    the handler; the listing of the other events is not touched.  Apart
    from that, a handler that is not registered changes nothing: the
    lists of listeners stay, and when the event has listeners, or has no
    entry, the emitter is left as it was. *)
Theorem off_removes_first_registration event h s :
  let s' := snd (off event h s) in
  registered event s' = without_first h (registered event s)
  /\ (forall e', e' <> event -> registered e' s' = registered e' s)
  /\ (In event (eventNames s') <-> registered event s' <> [])
  /\ (forall e', e' <> event ->
                 In e' (eventNames s') <-> In e' (eventNames s))
  /\ (entries_of h (registered event s) = O ->
      registered event s' = registered event s)
  /\ (entries_of h (registered event s) = O ->
      registered event s <> [] \/ ~ In event (eventNames s) ->
      s' = s)
  /\ invoked s' = invoked s.
Proof.
  cbv zeta. change (off event h s) with (perform (CallOff event h) s).
  rewrite snd_perform.
  unfold registered, eventNames. cbn [set_listeners listeners invoked].
  rewrite lookup_off.
  split; [reflexivity|].
  split; [intros e' Hne; now apply lookup_off_other|].
  split; [apply keys_off|].
  split; [intros e' Hne; now apply keys_off_other|].
  split; [apply without_first_absent|].
  split; [|reflexivity].
  intros H0 Hor. rewrite (off_absent_handler event h _ H0 Hor).
  destruct s; reflexivity.
Qed.

(** X3. [off] directly after [on] (or [once]) for the same handler
    restores the listeners of every event when the handler was not
    registered for the event before.  When it was, the earlier
    registration is the one removed and the new one stays, at the end
    of the list. *)
Theorem off_after_on (o : bool) event h s :
  let s' := snd (off event h
                   (snd ((if o then once_ event h else on event h) s))) in
  registered event s'
  = match entries_of h (registered event s) with
    | O => registered event s
    | S _ => without_first h (registered event s)
             ++ [{| handler := h; once := o |}]
    end
  /\ forall e', e' <> event -> registered e' s' = registered e' s.
Proof.
  cbv zeta.
  assert (E : (if o then once_ event h else on event h) s
              = perform (if o then CallOnce event h else CallOn event h) s)
    by (destruct o; reflexivity).
  rewrite E. clear E.
  change (off event h ?x) with (perform (CallOff event h) x).
  rewrite !snd_perform.
  assert (R : registry_after (if o then CallOnce event h else CallOn event h)
                (listeners s)
              = Map_set event
                  (lookup event (listeners s)
                   ++ [{| handler := h; once := o |}])
                  (if Map_has event (listeners s) then listeners s
                   else Map_set event [] (listeners s))).
  { destruct o; [apply registry_after_once | apply registry_after_on]. }
  unfold registered. cbn [set_listeners listeners].
  rewrite R. clear R. split.
  - rewrite lookup_off, lookup_add, without_first_app.
    cbn [handler]. now rewrite Nat.eqb_refl.
  - intros e' Hne. rewrite lookup_off_other by assumption.
    now apply lookup_add_other.
Qed.

(** X4. [emit] invokes exactly the listeners that were registered for
    the event when it was called, each once, in the order of their
    registration and with the payload of the call, whatever the
    handlers do: a handler that throws, or that registers or removes
    listeners while it runs, does not change who is invoked in this
    pass.  [emit] itself returns normally. *)
Theorem emit_invokes_snapshot behaviour event d s :
  fst (emit behaviour event d s) = Normal tt
  /\ invoked (snd (emit behaviour event d s))
     = invoked s ++ invocations (registered event s) d.
Proof.
  split; [apply emit_normal | apply emit_invoked].
Qed.

Lemma registered_quiet_emit behaviour event d s :
  (forall s0 l, In l (registered event s) ->
                emitter_calls (behaviour s0 (handler l) d) = []) ->
  listeners (snd (emit behaviour event d s))
  = match registered event s with
    | [] => listeners s
    | _ :: _ => Map_set event (persistent (registered event s)) (listeners s)
    end.
Proof.
  intros Hq. rewrite emit_spec. cbn [snd].
  destruct (registered event s) as [|x r] eqn:E; [reflexivity|].
  rewrite listeners_quiet_dispatch by exact Hq.
  unfold pruned. rewrite E. reflexivity.
Qed.

(** X5. When the handlers of an event leave the registry alone, [emit]
    removes the once-listeners of the event and keeps its other
    listeners in order, and the listeners of the other events; a second
    [emit] invokes the listeners that were kept, and only them. *)
Theorem persistent_listeners_survive_emit behaviour event d1 d2 s :
  (forall s0 l d, In l (registered event s) ->
                  emitter_calls (behaviour s0 (handler l) d) = []) ->
  let s1 := snd (emit behaviour event d1 s) in
  registered event s1 = persistent (registered event s)
  /\ (forall e', e' <> event -> registered e' s1 = registered e' s)
  /\ invoked (snd (emit behaviour event d2 s1))
     = invoked s ++ invocations (registered event s) d1
       ++ invocations (persistent (registered event s)) d2.
Proof.
  intros Hq. cbv zeta.
  assert (L := registered_quiet_emit behaviour event d1 s
                 (fun s0 l => Hq s0 l d1)).
  assert (R : registered event (snd (emit behaviour event d1 s))
              = persistent (registered event s)).
  { unfold registered at 1. rewrite L.
    destruct (registered event s) eqn:E; [exact E|].
    apply lookup_set_same. }
  split; [exact R|]. split.
  - intros e' Hne. unfold registered at 1. rewrite L.
    destruct (registered event s); [reflexivity|].
    apply lookup_set_other. congruence.
  - rewrite emit_invoked, R, emit_invoked. unfold invocations.
    now rewrite app_assoc.
Qed.

Lemma persistent_listeners_survive_emit_witness :
  let d1 := InitializationComplete 1 1 in
  let d2 := InitializationComplete 2 2 in
  let s1 := snd (emit quiet initialization_complete d1 three_listeners) in
  registered initialization_complete s1
  = persistent (registered initialization_complete three_listeners)
  /\ (forall e', e' <> initialization_complete ->
                 registered e' s1 = registered e' three_listeners)
  /\ invoked (snd (emit quiet initialization_complete d2 s1))
     = invoked three_listeners
       ++ invocations (registered initialization_complete three_listeners) d1
       ++ invocations
            (persistent (registered initialization_complete three_listeners))
            d2.
Proof.
  apply (persistent_listeners_survive_emit quiet initialization_complete
           (InitializationComplete 1 1) (InitializationComplete 2 2)
           three_listeners).
  intros s0 l d _. reflexivity.
Defined.

Lemma emit_without_listeners behaviour event d s :
  registered event s = [] -> emit behaviour event d s = (Normal tt, s).
Proof. intros H. rewrite emit_spec, H. reflexivity. Qed.

(** X6. [removeAllListeners(event)] leaves the event without listeners
    and unlisted, so that a later [emit] of it changes nothing, and
    keeps the listeners and the listing of every other event;
    [removeAllListeners()] does so for all events at once. *)
Theorem removeAllListeners_silences behaviour event d s :
  (let s' := snd (removeAllListeners (Some event) s) in
   emit behaviour event d s' = (Normal tt, s')
   /\ listenerCount event s' = O
   /\ ~ In event (eventNames s')
   /\ forall e', e' <> event ->
        registered e' s' = registered e' s
        /\ (In e' (eventNames s') <-> In e' (eventNames s)))
  /\ (let s' := snd (removeAllListeners None s) in
      eventNames s' = []
      /\ forall e, listenerCount e s' = O
                   /\ emit behaviour e d s' = (Normal tt, s')).
Proof.
  split; cbv zeta.
  - unfold removeAllListeners, modify. cbn [snd].
    split; [apply emit_without_listeners; unfold registered;
            cbn [set_listeners listeners]; apply lookup_delete_same|].
    split; [unfold listenerCount; cbn [set_listeners listeners];
            now rewrite Map_get_delete_same|].
    split.
    + unfold eventNames. cbn [set_listeners listeners].
      rewrite Map_keys_get, Map_get_delete_same. congruence.
    + intros e' Hne. unfold registered, eventNames.
      cbn [set_listeners listeners]. split.
      * apply lookup_delete_other. congruence.
      * rewrite !Map_keys_get, Map_get_delete_other by congruence.
        reflexivity.
  - unfold removeAllListeners, modify. cbn [snd].
    split; [reflexivity|]. intros e. split; [reflexivity|].
    apply emit_without_listeners. reflexivity.
Qed.


(** * Further properties of the native module *)

(** X7. A cached request is decided by the cache file: when the file
    holds a success at the date [t0] under [ttl], the request is served
    from the cache, without asking the system to authenticate the user,
    exactly when the time since [t0] is not at or above [ttl] and is
    below the ttl of the request, as the code computes and compares
    them (in seconds, as doubles).  Being served does not renew the
    record: the file stays as it was. *)
Theorem cached_prompt_served_from_file dev args s now t0 ttl :
  p_method args = cached ->
  cacheFile s = Some (recorded t0 ttl) ->
  let elapsed := timeIntervalSinceDate (NSDate_date dev now) t0 in
  (prompts (state_after dev args s now) = prompts s
   <-> double_ge elapsed ttl = false
       /\ double_lt elapsed (ttl_seconds (Int32Value (p_ttl args))) = true)
  /\ (prompts (state_after dev args s now) = prompts s ->
      PromptTouchID dev args s now
      = (Resolved (ResultObject true (Some (deviceData dev)) None),
         state_after dev args s now, now + collect_elapsed dev)
      /\ cacheFile (state_after dev args s now) = cacheFile s).
Proof.
  intros Hm Hf. cbv zeta.
  pose proof (check_of_recorded (Int32Value (p_ttl args))
                (NSDate_date dev now) t0 ttl s Hf) as Hcheck.
  pose proof (prompts_check_cache cached (Int32Value (p_ttl args))
                (NSDate_date dev now) (loadCache (NSDate_date dev now) s))
    as Hp.
  pose proof (cacheFile_check_cache cached (Int32Value (p_ttl args))
                (NSDate_date dev now) (loadCache (NSDate_date dev now) s))
    as Hc.
  rewrite prompts_loadCache in Hp. rewrite cacheFile_loadCache in Hc.
  unfold state_after, PromptTouchID. rewrite Hm.
  destruct (check_cache cached (Int32Value (p_ttl args))
              (NSDate_date dev now) (loadCache (NSDate_date dev now) s))
    as [useCache s1].
  cbn [fst snd] in Hcheck, Hp, Hc.
  destruct (double_ge (timeIntervalSinceDate (NSDate_date dev now) t0) ttl);
    destruct (double_lt (timeIntervalSinceDate (NSDate_date dev now) t0)
                (ttl_seconds (Int32Value (p_ttl args))));
    cbn [negb andb] in Hcheck; subst useCache;
    try (cbn [fst snd]; rewrite Hp;
         split; [split; [intros _; split; reflexivity | reflexivity]
                | intros _; split; [reflexivity | exact Hc]]);
    rewrite Hp;
    destruct (la_error (evaluatePolicy dev (prompts s)));
    cbn [fst snd]; rewrite ?prompts_record_success;
    cbn [count_prompt prompts]; rewrite Hp;
    (split; [split; [intros H; lia | intros [H1 H2]; discriminate]
            | intros H; lia]).
Qed.

Lemma cached_prompt_served_from_file_witness :
  let s := record_success cached (seconds_since_2001 1700000002010)
             (cache_state 30000) in
  let args := prompt_args cached_30000 in
  let t0 := plist_date (seconds_since_2001 1700000002010) in
  let elapsed :=
    timeIntervalSinceDate (NSDate_date a_mac 1700000020000) t0 in
  (prompts (state_after a_mac args s 1700000020000) = prompts s
   <-> double_ge elapsed (ttl_seconds 30000) = false
       /\ double_lt elapsed (ttl_seconds (Int32Value (p_ttl args))) = true)
  /\ (prompts (state_after a_mac args s 1700000020000) = prompts s ->
      PromptTouchID a_mac args s 1700000020000
      = (Resolved (ResultObject true (Some (deviceData a_mac)) None),
         state_after a_mac args s 1700000020000,
         1700000020000 + collect_elapsed a_mac)
      /\ cacheFile (state_after a_mac args s 1700000020000) = cacheFile s).
Proof.
  apply (cached_prompt_served_from_file a_mac (prompt_args cached_30000)
           (record_success cached (seconds_since_2001 1700000002010)
              (cache_state 30000))
           1700000020000
           (plist_date (seconds_since_2001 1700000002010))
           (ttl_seconds 30000));
    reflexivity.
Defined.

(** X8. The native module writes the cache file exactly when a cached
    request was passed on to the system and the authentication
    succeeded.  The file then holds the date at which the authentication
    ended, without the fraction of its second, and the ttl of the
    request.  A direct request, a failed authentication and a request
    served from the cache leave the file as it was. *)
Theorem cache_file_written_on_cached_success dev args s now :
  let reply := evaluatePolicy dev (prompts s) in
  let s' := state_after dev args s now in
  cacheFile s'
  = match p_method args, Nat.eqb (prompts s') (prompts s), la_error reply with
    | cached, false, None =>
        Some (recorded
                (plist_date (NSDate_date dev (now + la_elapsed reply)))
                (ttl_seconds (Int32Value (p_ttl args))))
    | _, _, _ => cacheFile s
    end.
Proof.
  cbv zeta. unfold state_after, PromptTouchID.
  pose proof (prompts_check_cache (p_method args) (Int32Value (p_ttl args))
                (NSDate_date dev now) (loadCache (NSDate_date dev now) s))
    as Hp.
  pose proof (cacheFile_check_cache (p_method args)
                (Int32Value (p_ttl args))
                (NSDate_date dev now) (loadCache (NSDate_date dev now) s))
    as Hc.
  rewrite prompts_loadCache in Hp. rewrite cacheFile_loadCache in Hc.
  destruct (p_method args) eqn:Hm.
  - cbn [check_cache] in *. rewrite prompts_loadCache.
    destruct (la_error (evaluatePolicy dev (prompts s)));
      cbn [fst snd record_success count_prompt cacheFile];
      rewrite cacheFile_loadCache; reflexivity.
  - pose proof (cacheTTL_check_cache (Int32Value (p_ttl args))
                  (NSDate_date dev now) (loadCache (NSDate_date dev now) s))
      as Ht.
    destruct (check_cache cached (Int32Value (p_ttl args))
                (NSDate_date dev now) (loadCache (NSDate_date dev now) s))
      as [useCache s1].
    cbn [snd] in Hp, Ht, Hc. destruct useCache.
    + cbn [fst snd]. rewrite Hp, Nat.eqb_refl. exact Hc.
    + rewrite Hp.
      destruct (la_error (evaluatePolicy dev (prompts s))) eqn:He;
        cbn [fst snd].
      * cbn [count_prompt prompts cacheFile]. rewrite Hp, Hc.
        destruct (Nat.eqb _ _); reflexivity.
      * rewrite prompts_record_success. cbn [count_prompt prompts].
        rewrite Hp.
        replace (Nat.eqb (S (prompts s)) (prompts s)) with false
          by (symmetry; apply Nat.eqb_neq; lia).
        rewrite cacheFile_record_success.
        cbn [count_prompt cacheTTL]. now rewrite Ht.
Qed.

(** X9. A direct request always asks the system to authenticate the
    user ([evaluatePolicy]), also while the cache holds a valid record,
    and settles as that request does: rejected with the description of
    the error as a plain string, or resolved with [success: true] and
    the device data. *)
Theorem direct_request_always_prompts dev why t s now :
  let args := {| p_reason := why; p_method := direct; p_ttl := t |} in
  let reply := evaluatePolicy dev (prompts s) in
  prompts (state_after dev args s now) = S (prompts s)
  /\ settled_as dev args s now
     = match la_error reply with
       | Some err_str => Rejected (ThrownString err_str)
       | None => Resolved (ResultObject true (Some (deviceData dev)) None)
       end.
Proof.
  cbv zeta. unfold state_after, settled_as, PromptTouchID.
  cbn [p_method check_cache]. rewrite prompts_loadCache.
  destruct (la_error (evaluatePolicy dev (prompts s)));
    cbn [fst snd record_success count_prompt prompts];
    now rewrite prompts_loadCache.
Qed.


(** * Further properties of the service *)

Ltac svc_run :=
  repeat first [ rewrite bind_emit_event | rewrite emit_event_spec
               | rewrite bind_bind | rewrite try_catch_bind
               | rewrite try_catch_emit_event
               | rewrite try_catch_await_native
               | rewrite await_native_spec
               | progress js_simpl ].

Ltac svc_done :=
  svc_run; unfold ret, set_js, after; js_simpl;
  rewrite ?app_nil_r, <- ?app_assoc; try reflexivity.

(** X10. [validateOptions] accepts exactly the options that the
    validators of the utilities accept: a ttl, if given, that
    [isValidTimeout] accepts with its default bounds, and a reason, if
    given, that [isNotEmpty] accepts.  When both are wrong the message
    is the one about the ttl. *)
Theorem validateOptions_agrees_with_validators options :
  let ttl_ok := match ttl options with
                | Some t => isValidTimeout t 1000 300000
                | None => true
                end in
  let reason_ok := match reason options with
                   | Some r => isNotEmpty r
                   | None => true
                   end in
  valid (validateOptions options) = ttl_ok && reason_ok
  /\ v_error (validateOptions options)
     = if negb ttl_ok then Some TTL_MESSAGE
       else if negb reason_ok then Some REASON_MESSAGE
       else None.
Proof.
  cbv zeta. unfold validateOptions, isValidTimeout, isNotEmpty.
  destruct (ttl options) as [t|]; destruct (reason options) as [r|];
    rewrite ?Z.geb_leb, ?Z.gtb_ltb;
    try (destruct (Z.ltb_spec t 1000); destruct (Z.ltb_spec 300000 t);
         destruct (Z.leb_spec 1000 t); destruct (Z.leb_spec t 300000);
         try lia);
    cbn [orb andb negb valid v_error];
    try destruct (List.length (trim r)); split; reflexivity.
Qed.

Section ServiceMore.
Context {P : Type}.
Variable native : Provider P.
Variable behaviour : Behaviour.
Variable typeErrorMessage : jsstring.

(** X11. On an initialized service [isAvailable] emits exactly one
    event, [device:available] when it answers true and
    [device:unavailable] when it answers false.  It asks the native
    module at most once, and it answers true only when
    [canPromptTouchID] resolved with true. *)
Theorem isAvailable_reports_one_device_event bound (w : World P) :
  initialized w = true ->
  exists b t p calls ev j,
    isAvailable native behaviour bound w
    = (Normal b, after w t p calls [ev] j)
    /\ event_of ev = (if b then device_available else device_unavailable)
    /\ (calls = [] \/ calls = [called_canPromptTouchID])
    /\ (b = true ->
        ready w
        /\ exists f, canPromptTouchID native = Some f
                     /\ f (provider w) (clock w) = (Resolved true, p, t)).
Proof.
  intros Hi. destruct (darwin w) eqn:Hd.
  2:{ destruct (isAvailable_off_darwin native behaviour bound w Hd) as [j E].
      eexists false, (clock w), (provider w), [], _, j.
      split; [exact E|]. split; [reflexivity|].
      split; [now left | discriminate]. }
  destruct (nativeModule w) eqn:Hn.
  2:{ destruct (isAvailable_no_module native behaviour bound w Hd Hi Hn)
        as [j E].
      eexists false, (clock w), (provider w), [], _, j.
      split; [exact E|]. split; [reflexivity|].
      split; [now left | discriminate]. }
  assert (Hr : ready w) by (unfold ready; auto).
  destruct (canPromptTouchID native) as [f|] eqn:Hf.
  2:{ destruct (isAvailable_no_function native behaviour bound w Hr Hf)
        as [j E].
      eexists false, (clock w), (provider w), [], _, j.
      split; [exact E|]. split; [reflexivity|].
      split; [now left | discriminate]. }
  destruct (f (provider w) (clock w)) as [[[b|e] p] t] eqn:Hc.
  - destruct (isAvailable_resolved native behaviour bound w f b p t Hr Hf Hc)
      as [j E].
    eexists b, t, p, [called_canPromptTouchID], _, j.
    split; [exact E|]. split; [destruct b; reflexivity|].
    split; [now right|]. intros ->. split; [exact Hr|].
    exists f. split; [reflexivity | exact Hc].
  - destruct (isAvailable_rejected native behaviour bound w f e p t Hr Hf Hc)
      as [j E].
    eexists false, t, p, [called_canPromptTouchID], _, j.
    split; [exact E|]. split; [reflexivity|].
    split; [now right | discriminate].
Qed.

(** X12. On an initialized service [getBiometricInfo] returns a record
    and emits no event.  The record is the one the native module
    resolved with, or a fallback with [biometricsAvailable: false]:
    'Unsupported Platform' off macOS, empty strings without a native
    module, and 'Error' when the module has no such function or its
    call fails. *)
Theorem getBiometricInfo_returns_info_or_fallback bound (w : World P) :
  initialized w = true ->
  exists i t p calls j,
    service_getBiometricInfo native behaviour bound w
    = (Normal i, after w t p calls [] j)
    /\ biometric_info_cases native w i t p calls.
Proof.
  intros Hi. unfold biometric_info_cases, ready.
  destruct w as [dar clk nm ini pend prov calls em j].
  cbn [initialized] in Hi. subst ini.
  unfold service_getBiometricInfo. svc_run.
  destruct dar; svc_run.
  2:{ eexists _, clk, prov, [], _. split; [svc_done|].
      left. repeat split; reflexivity. }
  erewrite bind_normal
    by (apply waitForInit_initialized; reflexivity).
  svc_run. destruct nm; svc_run.
  2:{ eexists _, clk, prov, [], _. split; [svc_done|].
      right; left. repeat split; reflexivity. }
  destruct (getBiometricInfo native) as [f|] eqn:Hf; svc_run.
  2:{ eexists _, clk, prov, [], _. split; [svc_done|].
      right; right; left. repeat split; reflexivity. }
  destruct (f prov clk) as [[[i|e] p] t] eqn:Hc; svc_run.
  - exists i, t, p, [called_getBiometricInfo]. eexists.
    split; [svc_done|].
    right; right; right. split; [auto|]. split; [reflexivity|].
    exists f. split; [reflexivity|]. right. exact Hc.
  - eexists _, t, p, [called_getBiometricInfo], _.
    split; [svc_done|].
    right; right; right. split; [auto|]. split; [reflexivity|].
    exists f. split; [reflexivity|]. left. split; [|reflexivity].
    exists e. exact Hc.
Qed.
End ServiceMore.

Lemma isAvailable_reports_one_device_event_witness :
  exists b t p calls ev j,
    isAvailable faulty quiet 5 (mac_service tt)
    = (Normal b, after (mac_service tt) t p calls [ev] j)
    /\ event_of ev = (if b then device_available else device_unavailable)
    /\ (calls = [] \/ calls = [called_canPromptTouchID])
    /\ (b = true ->
        ready (mac_service tt)
        /\ exists f, canPromptTouchID faulty = Some f
                     /\ f (provider (mac_service tt)) (clock (mac_service tt))
                        = (Resolved true, p, t)).
Proof.
  apply (isAvailable_reports_one_device_event faulty quiet 5 (mac_service tt)).
  reflexivity.
Defined.

Lemma getBiometricInfo_returns_info_or_fallback_witness :
  exists i t p calls j,
    service_getBiometricInfo (touchid_native a_mac) quiet 5
      (linux_service (native_start None))
    = (Normal i, after (linux_service (native_start None)) t p calls [] j)
    /\ biometric_info_cases (touchid_native a_mac)
         (linux_service (native_start None)) i t p calls.
Proof.
  apply (getBiometricInfo_returns_info_or_fallback (touchid_native a_mac)
           quiet 5 (linux_service (native_start None))).
  reflexivity.
Defined.

Lemma CanPromptTouchID_can_prompt dev : CanPromptTouchID dev = can_prompt dev.
Proof.
  unfold CanPromptTouchID, can_prompt.
  destruct (macos_10_12_2 dev), (canEvaluateBiometrics dev),
    (macos_10_13_2 dev), (biometryIsTouchID dev), (canEvaluateOwner dev);
    reflexivity.
Qed.

Lemma isAvailable_native behaviour dev bound (w : World NativeState) :
  ready w ->
  exists j,
    isAvailable (touchid_native dev) behaviour bound w
    = (Normal (can_prompt dev),
       after w (clock w) (provider w) [called_canPromptTouchID]
         [if can_prompt dev then DeviceAvailable (clock w) (str "TouchID")
          else DeviceUnavailable (clock w)
                 (str "Touch ID not available on this device")] j).
Proof.
  intros Hr. rewrite <- CanPromptTouchID_can_prompt.
  eapply isAvailable_resolved; [exact Hr | reflexivity | reflexivity].
Qed.

(** X13. With the native module loaded, [isAvailable] answers true on
    macOS 10.12.2 or later when biometrics can be evaluated (and, from
    10.13.2 on, are Touch ID), and also when they cannot but the owner
    can authenticate otherwise: the fallback of [CanPromptTouchID].  In
    that case it still emits [device:available] with biometry type
    'TouchID'.  The native module is asked once and its state is left as
    it was. *)
Theorem isAvailable_with_native_module behaviour dev bound
  (w : World NativeState) :
  ready w ->
  exists j,
    isAvailable (touchid_native dev) behaviour bound w
    = (Normal (can_prompt dev),
       after w (clock w) (provider w) [called_canPromptTouchID]
         [if can_prompt dev then DeviceAvailable (clock w) (str "TouchID")
          else DeviceUnavailable (clock w)
                 (str "Touch ID not available on this device")] j).
Proof. apply isAvailable_native. Qed.

Lemma isAvailable_with_native_module_witness :
  can_prompt a_mac_without_sensor = true
  /\ exists j,
      isAvailable (touchid_native a_mac_without_sensor) quiet 5
        (mac_service (native_start None))
      = (Normal (can_prompt a_mac_without_sensor),
         after (mac_service (native_start None))
           (clock (mac_service (native_start None)))
           (provider (mac_service (native_start None)))
           [called_canPromptTouchID]
           [if can_prompt a_mac_without_sensor
            then DeviceAvailable (clock (mac_service (native_start None)))
                   (str "TouchID")
            else DeviceUnavailable (clock (mac_service (native_start None)))
                   (str "Touch ID not available on this device")] j).
Proof.
  split; [reflexivity|].
  apply (isAvailable_with_native_module quiet a_mac_without_sensor 5
           (mac_service (native_start None))).
  repeat split.
Defined.

Lemma PromptTouchID_rejects_with_string dev args s now e p t :
  PromptTouchID dev args s now = (Rejected e, p, t) ->
  exists err_str, e = ThrownString err_str.
Proof.
  unfold PromptTouchID.
  destruct (check_cache _ _ _ _) as [[|] s1]; [discriminate|].
  destruct (la_error _) as [err|]; [|discriminate].
  intros H. injection H as <- _ _. now exists err.
Qed.

Lemma mapped_error_string err_str :
  mapped_error (ThrownString err_str) = str "Unknown error".
Proof. reflexivity. Qed.

Lemma classification_events_string err_str m now duration :
  classification_events (ThrownString err_str) m now duration = [].
Proof. reflexivity. Qed.

Lemma authenticate_native_rejected behaviour typeErrorMessage dev bound
  options (w : World NativeState) e p t :
  ready w ->
  valid (validateOptions options) = true ->
  PromptTouchID dev (prompt_args options) (provider w) (clock w)
  = (Rejected e, p, t) ->
  exists j,
    authenticate (touchid_native dev) behaviour typeErrorMessage bound
      options w
    = (Normal (failure (str "Unknown error")),
       after w t p [called_promptTouchID (prompt_args options)]
         [AuthenticationStart (clock w) (method_of options)
            (reason_of options);
          AuthenticationFailure t (method_of options) (str "Unknown error")
            (t - clock w)] j).
Proof.
  intros Hr Hv Hp.
  destruct (PromptTouchID_rejects_with_string _ _ _ _ _ _ _ Hp) as [m ->].
  destruct (authenticate_rejected (touchid_native dev) behaviour
              typeErrorMessage bound options w (PromptTouchID dev)
              (ThrownString m) p t Hr Hv eq_refl Hp) as [j E].
  exists j. rewrite E. unfold caught_events.
  rewrite mapped_error_string, classification_events_string. reflexivity.
Qed.

(** X14. With the native module, every failed prompt is reported as
    'Unknown error': the module rejects with a plain string, which is
    not an [Error], so the description of the failure is not read and
    none of the classified errors is returned.  In particular a
    cancelled prompt or a lockout emits neither [authentication:cancel]
    nor [device:lockout]: the events are [authentication:start] and
    [authentication:failure] only. *)
Theorem native_failure_is_unknown_error behaviour typeErrorMessage dev bound
  options (w : World NativeState) e p t :
  ready w ->
  valid (validateOptions options) = true ->
  PromptTouchID dev (prompt_args options) (provider w) (clock w)
  = (Rejected e, p, t) ->
  exists j,
    authenticate (touchid_native dev) behaviour typeErrorMessage bound
      options w
    = (Normal (failure (str "Unknown error")),
       after w t p [called_promptTouchID (prompt_args options)]
         [AuthenticationStart (clock w) (method_of options)
            (reason_of options);
          AuthenticationFailure t (method_of options) (str "Unknown error")
            (t - clock w)] j).
Proof. apply authenticate_native_rejected. Qed.

Lemma native_failure_is_unknown_error_witness :
  let w := mac_service (native_start None) in
  exists j,
    authenticate (touchid_native a_mac_cancelling) quiet engine_message 5
      direct_only w
    = (Normal (failure (str "Unknown error")),
       after w 1010 (count_prompt (native_start None))
         [called_promptTouchID (prompt_args direct_only)]
         [AuthenticationStart (clock w) (method_of direct_only)
            (reason_of direct_only);
          AuthenticationFailure 1010 (method_of direct_only)
            (str "Unknown error") (1010 - clock w)] j).
Proof.
  apply (native_failure_is_unknown_error quiet engine_message
           a_mac_cancelling 5 direct_only (mac_service (native_start None))
           (ThrownString (str "Authentication canceled."))
           (count_prompt (native_start None)) 1010).
  - repeat split.
  - reflexivity.
  - reflexivity.
Defined.

Section Classification.
Context {P : Type}.
Variable native : Provider P.
Variable behaviour : Behaviour.
Variable typeErrorMessage : jsstring.

(** X15. When the prompt rejects with an [Error] whose message
    contains 'locked out' (and neither 'not available' nor 'not
    enrolled', which are tested first), [authenticate] returns the
    failure 'Touch ID is locked out' and emits [device:lockout] with a
    duration of 300000 between [authentication:start] and
    [authentication:failure]. *)
Theorem lockout_emits_device_lockout bound options (w : World P) f m p t :
  ready w ->
  valid (validateOptions options) = true ->
  promptTouchID native = Some f ->
  f (prompt_args options) (provider w) (clock w)
  = (Rejected (ErrorObject m), p, t) ->
  includes m (str "not available") = false ->
  includes m (str "not enrolled") = false ->
  includes m (str "locked out") = true ->
  exists j,
    authenticate native behaviour typeErrorMessage bound options w
    = (Normal (failure LOCKOUT),
       after w t p [called_promptTouchID (prompt_args options)]
         [AuthenticationStart (clock w) (method_of options)
            (reason_of options);
          DeviceLockout t 300000 LOCKOUT;
          AuthenticationFailure t (method_of options) LOCKOUT
            (t - clock w)] j).
Proof.
  intros Hr Hv Hf Hc H1 H2 H3.
  destruct (authenticate_rejected native behaviour typeErrorMessage bound
              options w f (ErrorObject m) p t Hr Hv Hf Hc) as [j E].
  exists j. rewrite E.
  unfold caught_events, mapped_error, classification_events.
  cbn [message_or]. rewrite H1, H2, H3. reflexivity.
Qed.

(** X16. When the prompt rejects with an [Error] whose message
    contains 'cancelled' or 'canceled' (and none of 'not available',
    'not enrolled', 'locked out'), [authenticate] returns the failure
    'User cancelled authentication' and emits [authentication:cancel]
    between [authentication:start] and [authentication:failure]. *)
Theorem cancel_emits_authentication_cancel bound options (w : World P)
  f m p t :
  ready w ->
  valid (validateOptions options) = true ->
  promptTouchID native = Some f ->
  f (prompt_args options) (provider w) (clock w)
  = (Rejected (ErrorObject m), p, t) ->
  includes m (str "not available") = false ->
  includes m (str "not enrolled") = false ->
  includes m (str "locked out") = false ->
  includes m (str "cancelled") || includes m (str "canceled") = true ->
  exists j,
    authenticate native behaviour typeErrorMessage bound options w
    = (Normal (failure USER_CANCEL),
       after w t p [called_promptTouchID (prompt_args options)]
         [AuthenticationStart (clock w) (method_of options)
            (reason_of options);
          AuthenticationCancel t (method_of options) (t - clock w);
          AuthenticationFailure t (method_of options) USER_CANCEL
            (t - clock w)] j).
Proof.
  intros Hr Hv Hf Hc H1 H2 H3 H4.
  destruct (authenticate_rejected native behaviour typeErrorMessage bound
              options w f (ErrorObject m) p t Hr Hv Hf Hc) as [j E].
  exists j. rewrite E.
  unfold caught_events, mapped_error, classification_events.
  cbn [message_or]. rewrite H1, H2, H3, H4. reflexivity.
Qed.
End Classification.

Lemma lockout_emits_device_lockout_witness :
  let w := mac_service tt in
  exists j,
    authenticate (rejecting (str "Biometry is locked out.")) quiet
      engine_message 5 no_options w
    = (Normal (failure LOCKOUT),
       after w 1010 tt [called_promptTouchID (prompt_args no_options)]
         [AuthenticationStart (clock w) (method_of no_options)
            (reason_of no_options);
          DeviceLockout 1010 300000 LOCKOUT;
          AuthenticationFailure 1010 (method_of no_options) LOCKOUT
            (1010 - clock w)] j).
Proof.
  apply (lockout_emits_device_lockout
           (rejecting (str "Biometry is locked out.")) quiet engine_message 5
           no_options (mac_service tt)
           (fun _ s now =>
              (Rejected (ErrorObject (str "Biometry is locked out.")), s,
               now + 1000))
           (str "Biometry is locked out.") tt 1010).
  - repeat split.
  - reflexivity.
  - reflexivity.
  - reflexivity.
  - reflexivity.
  - reflexivity.
  - reflexivity.
Defined.

Lemma cancel_emits_authentication_cancel_witness :
  let w := mac_service tt in
  exists j,
    authenticate (rejecting (str "Authentication canceled.")) quiet
      engine_message 5 no_options w
    = (Normal (failure USER_CANCEL),
       after w 1010 tt [called_promptTouchID (prompt_args no_options)]
         [AuthenticationStart (clock w) (method_of no_options)
            (reason_of no_options);
          AuthenticationCancel 1010 (method_of no_options) (1010 - clock w);
          AuthenticationFailure 1010 (method_of no_options) USER_CANCEL
            (1010 - clock w)] j).
Proof.
  apply (cancel_emits_authentication_cancel
           (rejecting (str "Authentication canceled.")) quiet engine_message 5
           no_options (mac_service tt)
           (fun _ s now =>
              (Rejected (ErrorObject (str "Authentication canceled.")), s,
               now + 1000))
           (str "Authentication canceled.") tt 1010).
  - repeat split.
  - reflexivity.
  - reflexivity.
  - reflexivity.
  - reflexivity.
  - reflexivity.
  - reflexivity.
  - reflexivity.
Defined.

Lemma valid_prompt_args options :
  valid (validateOptions options) = true ->
  1000 <= p_ttl (prompt_args options) <= 300000
  /\ isNotEmpty (p_reason (prompt_args options)) = true.
Proof.
  unfold validateOptions, prompt_args, ttl_of, reason_of, isNotEmpty.
  cbn [p_ttl p_reason]. intros Hv. split.
  - destruct (ttl options) as [t|]; [|lia].
    rewrite Z.gtb_ltb in Hv.
    destruct (Z.ltb_spec t 1000); [discriminate|].
    destruct (Z.ltb_spec 300000 t); [discriminate|].
    destruct (Z.eqb_spec t 0); lia.
  - destruct (match ttl options with
              | Some t => (t <? 1000) || (t >? 300000)
              | None => false
              end); [discriminate|].
    destruct (reason options) as [r|]; [|reflexivity].
    destruct (List.length (trim r)) eqn:L; [discriminate|].
    destruct r as [|c r']; [discriminate|].
    cbn [string_or truthy_string]. now rewrite L.
Qed.

Section AuthenticateCases.
Context {P : Type}.
Variable native : Provider P.
Variable behaviour : Behaviour.
Variable typeErrorMessage : jsstring.

Lemma intermediate_classification e m now duration :
  Forall (fun ev => intermediate_event (event_of ev))
    (classification_events e m now duration).
Proof.
  unfold classification_events.
  repeat match goal with
         | |- context [includes ?a ?b] => destruct (includes a b)
         end; cbn [orb];
    repeat first [apply Forall_nil | apply Forall_cons];
    unfold intermediate_event; cbn [event_of]; auto.
Qed.

Lemma authenticate_initialized bound options (w : World P) :
  initialized w = true ->
  exists r t p calls mid last j,
    authenticate native behaviour typeErrorMessage bound options w
    = (Normal r,
       after w t p calls
         (AuthenticationStart (clock w) (method_of options)
            (reason_of options) :: mid ++ [last]) j)
    /\ (calls = [] /\ success r = false
        \/ calls = [called_promptTouchID (prompt_args options)]
           /\ ready w /\ valid (validateOptions options) = true)
    /\ (event_of last = authentication_success
        \/ event_of last = authentication_failure)
    /\ (success r = false -> event_of last = authentication_failure)
    /\ Forall (fun ev => intermediate_event (event_of ev)) mid.
Proof.
  intros Hi. destruct (darwin w) eqn:Hd.
  2:{ destruct (authenticate_off_darwin native behaviour typeErrorMessage
                  bound options w Hd) as [j E].
      eexists _, _, _, [], [], _, j. split; [exact E|].
      split; [left; split; reflexivity|].
      split; [right; reflexivity|]. split; [reflexivity | constructor]. }
  destruct (valid (validateOptions options)) eqn:Hv.
  2:{ destruct (authenticate_invalid native behaviour typeErrorMessage
                  bound options w Hd Hv) as [j E].
      eexists _, _, _, [], [], _, j. split; [exact E|].
      split; [left; split; reflexivity|].
      split; [right; reflexivity|]. split; [reflexivity | constructor]. }
  destruct (nativeModule w) eqn:Hn.
  2:{ destruct (authenticate_no_module native behaviour typeErrorMessage
                  bound options w Hd Hi Hn Hv) as [j E].
      eexists _, _, _, [], [], _, j. split; [exact E|].
      split; [left; split; reflexivity|].
      split; [right; reflexivity|]. split; [reflexivity | constructor]. }
  assert (Hr : ready w) by (unfold ready; auto).
  destruct (promptTouchID native) as [f|] eqn:Hf.
  2:{ destruct (authenticate_no_function native behaviour typeErrorMessage
                  bound options w Hr Hv Hf) as [j E].
      eexists _, _, _, [], [], _, j. split; [exact E|].
      split; [left; split; reflexivity|].
      split; [right; reflexivity|]. split; [reflexivity | constructor]. }
  destruct (f (prompt_args options) (provider w) (clock w))
    as [[[[|s d e]|e] p] t] eqn:Hc.
  - destruct (authenticate_nullish native behaviour typeErrorMessage bound
                options w f p t Hr Hv Hf Hc) as [j E].
    eexists _, t, p, _, _, _, j. split; [exact E|].
    split; [right; auto|].
    split; [right; reflexivity|].
    split; [reflexivity | apply intermediate_classification].
  - destruct (authenticate_resolved native behaviour typeErrorMessage bound
                options w f s d e p t Hr Hv Hf Hc) as [j E].
    rewrite E. unfold resolved_events. destruct s.
    + destruct (method_of options).
      * eexists _, t, p, _, [], _, j. split; [reflexivity|].
        split; [right; auto|]. split; [left; reflexivity|].
        split; [discriminate | constructor].
      * eexists _, t, p, _, [_], _, j. split; [reflexivity|].
        split; [right; auto|]. split; [left; reflexivity|].
        split; [discriminate|].
        apply Forall_cons; [|apply Forall_nil].
        unfold intermediate_event. cbn [event_of]. auto.
    + eexists _, t, p, _, [], _, j. split; [reflexivity|].
      split; [right; auto|]. split; [right; reflexivity|].
      split; [reflexivity | constructor].
  - destruct (authenticate_rejected native behaviour typeErrorMessage bound
                options w f e p t Hr Hv Hf Hc) as [j E].
    eexists _, t, p, _, _, _, j. split; [exact E|].
    split; [right; auto|].
    split; [right; reflexivity|].
    split; [reflexivity | apply intermediate_classification].
Qed.

(** X17. On an initialized service [authenticate] calls the native
    module at most once, and only [promptTouchID].  It does so only on
    macOS with the module loaded and with arguments that passed the
    validation: a ttl between 1000 and 300000 and a reason that is
    not blank.  A call that does not reach the module returns a
    failure.  The platform, the module and the initialization state
    are left as they were. *)
Theorem authenticate_prompts_at_most_once bound options (w : World P) :
  initialized w = true ->
  exists r t p calls evs j,
    authenticate native behaviour typeErrorMessage bound options w
    = (Normal r, after w t p calls evs j)
    /\ (calls = [] \/ calls = [called_promptTouchID (prompt_args options)])
    /\ (calls <> [] ->
        ready w
        /\ 1000 <= p_ttl (prompt_args options) <= 300000
        /\ isNotEmpty (p_reason (prompt_args options)) = true)
    /\ (calls = [] -> success r = false).
Proof.
  intros Hi.
  destruct (authenticate_initialized bound options w Hi)
    as (r & t & p & calls & mid & last & j & E & Hc & _).
  eexists r, t, p, calls, _, j. split; [exact E|].
  destruct Hc as [[-> Hs]|(-> & Hr & Hv)].
  - split; [now left|]. split; [congruence | auto].
  - split; [now right|]. split; [|discriminate].
    intros _. split; [exact Hr|]. now apply valid_prompt_args.
Qed.

(** X18. On an initialized service every call of [authenticate] emits
    [authentication:start] first, with the time of the call, and
    closes with exactly one [authentication:success] or
    [authentication:failure]; between the two there are only
    [cache:created], [device:lockout] and [authentication:cancel]
    events.  A result with [success: false] always comes with
    [authentication:failure]. *)
Theorem authenticate_event_bracket bound options (w : World P) :
  initialized w = true ->
  exists r w' mid last,
    authenticate native behaviour typeErrorMessage bound options w
    = (Normal r, w')
    /\ emitted w'
       = emitted w
         ++ AuthenticationStart (clock w) (method_of options)
              (reason_of options) :: mid ++ [last]
    /\ (event_of last = authentication_success
        \/ event_of last = authentication_failure)
    /\ (success r = false -> event_of last = authentication_failure)
    /\ Forall (fun ev => intermediate_event (event_of ev)) mid.
Proof.
  intros Hi.
  destruct (authenticate_initialized bound options w Hi)
    as (r & t & p & calls & mid & last & j & E & _ & Hl & Hs & Hm).
  eexists r, _, mid, last. split; [exact E|].
  split; [reflexivity|]. auto.
Qed.
End AuthenticateCases.

Lemma authenticate_prompts_at_most_once_witness :
  let w := mac_service (native_start None) in
  exists r t p calls evs j,
    authenticate (touchid_native a_mac) quiet engine_message 5 cached_30000 w
    = (Normal r, after w t p calls evs j)
    /\ (calls = []
        \/ calls = [called_promptTouchID (prompt_args cached_30000)])
    /\ (calls <> [] ->
        ready w
        /\ 1000 <= p_ttl (prompt_args cached_30000) <= 300000
        /\ isNotEmpty (p_reason (prompt_args cached_30000)) = true)
    /\ (calls = [] -> success r = false).
Proof.
  apply (authenticate_prompts_at_most_once (touchid_native a_mac) quiet
           engine_message 5 cached_30000 (mac_service (native_start None))).
  reflexivity.
Defined.

Lemma authenticate_event_bracket_witness :
  let w := mac_service (native_start None) in
  exists r w' mid last,
    authenticate (touchid_native a_mac) quiet engine_message 5 cached_30000 w
    = (Normal r, w')
    /\ emitted w'
       = emitted w
         ++ AuthenticationStart (clock w) (method_of cached_30000)
              (reason_of cached_30000) :: mid ++ [last]
    /\ (event_of last = authentication_success
        \/ event_of last = authentication_failure)
    /\ (success r = false -> event_of last = authentication_failure)
    /\ Forall (fun ev => intermediate_event (event_of ev)) mid.
Proof.
  apply (authenticate_event_bracket (touchid_native a_mac) quiet
           engine_message 5 cached_30000 (mac_service (native_start None))).
  reflexivity.
Defined.

Lemma PromptTouchID_direct dev args s now :
  p_method args = direct ->
  PromptTouchID dev args s now
  = match la_error (evaluatePolicy dev (prompts s)) with
    | Some err_str =>
        (Rejected (ThrownString err_str), count_prompt (loadCache (NSDate_date dev now) s),
         now + la_elapsed (evaluatePolicy dev (prompts s)))
    | None =>
        (Resolved (ResultObject true (Some (deviceData dev)) None),
         count_prompt (loadCache (NSDate_date dev now) s),
         now + la_elapsed (evaluatePolicy dev (prompts s))
         + collect_elapsed dev)
    end.
Proof.
  intros Hm. unfold PromptTouchID. rewrite Hm. cbn [check_cache].
  rewrite prompts_loadCache.
  destruct (la_error (evaluatePolicy dev (prompts s))); reflexivity.
Qed.

(** X19. With the native module loaded, [test()] returns normally
    exactly when [canPromptTouchID] answers true and the prompt then
    succeeds.  When the device cannot prompt it throws 'Touch ID is not
    available on this device' without showing a prompt; when the prompt
    fails it throws 'Touch ID test failed: Unknown error', whatever the
    failure was. *)
Theorem test_with_native_module behaviour typeErrorMessage dev bound
  (w : World NativeState) :
  ready w ->
  let reply := evaluatePolicy dev (prompts (provider w)) in
  let run := test (touchid_native dev) behaviour typeErrorMessage bound w in
  fst run
  = (if can_prompt dev then
       match la_error reply with
       | None => Normal tt
       | Some _ =>
           Throw (ErrorObject (str "Touch ID test failed: Unknown error"))
       end
     else Throw (ErrorObject (str "Touch ID is not available on this device")))
  /\ prompts (provider (snd run))
     = (if can_prompt dev then S (prompts (provider w))
        else prompts (provider w)).
Proof.
  intros Hr. cbv zeta. unfold test.
  destruct (isAvailable_native behaviour dev bound w Hr) as [j E].
  erewrite bind_normal by exact E. clear E.
  destruct (can_prompt dev); [|split; reflexivity].
  cbv beta iota.
  match goal with
  | |- context [bind (authenticate _ _ _ _ ?o) _ ?w1] =>
      set (w1' := w1); change o with test_options
  end.
  assert (Hr1 : ready w1').
  { destruct Hr as (? & ? & ?). repeat split; assumption. }
  assert (Hv : valid (validateOptions test_options) = true) by reflexivity.
  pose proof (PromptTouchID_direct dev (prompt_args test_options)
                (provider w1') (clock w1') eq_refl) as Hp.
  change (provider w1') with (provider w) in Hp.
  destruct (la_error (evaluatePolicy dev (prompts (provider w)))) as [err|].
  - destruct (authenticate_native_rejected behaviour typeErrorMessage dev
                bound test_options w1' _ _ _ Hr1 Hv Hp) as [j2 E2].
    erewrite bind_normal by exact E2.
    split; [reflexivity|]. cbn. now rewrite prompts_loadCache.
  - destruct (authenticate_resolved (touchid_native dev) behaviour
                typeErrorMessage bound test_options w1' (PromptTouchID dev)
                true _ None _ _ Hr1 Hv eq_refl Hp) as [j2 E2].
    erewrite bind_normal by exact E2.
    split; [reflexivity|]. cbn. now rewrite prompts_loadCache.
Qed.

Lemma test_with_native_module_witness :
  let w := mac_service (native_start None) in
  let reply := evaluatePolicy a_mac_cancelling (prompts (provider w)) in
  let run := test (touchid_native a_mac_cancelling) quiet engine_message 5 w in
  fst run
  = (if can_prompt a_mac_cancelling then
       match la_error reply with
       | None => Normal tt
       | Some _ =>
           Throw (ErrorObject (str "Touch ID test failed: Unknown error"))
       end
     else Throw (ErrorObject (str "Touch ID is not available on this device")))
  /\ prompts (provider (snd run))
     = (if can_prompt a_mac_cancelling then S (prompts (provider w))
        else prompts (provider w)).
Proof.
  apply (test_with_native_module quiet engine_message a_mac_cancelling 5
           (mac_service (native_start None))).
  repeat split.
Defined.

Section Initialization.
Context {P : Type}.
Variable behaviour : Behaviour.

Lemma _init_resume_run t0 n load (w : World P) :
  exists j,
    _init_resume behaviour
      {| startTime := t0; turns_left := n; load_failure := load |} w
    = (Normal tt,
       {| darwin := darwin w; clock := clock w;
          nativeModule := loaded load; initialized := true;
          pending := pending w; provider := provider w;
          provider_calls := provider_calls w;
          emitted := emitted w ++ [initialization_outcome t0 (clock w) load];
          js := j |}).
Proof.
  destruct w as [dar clk nm ini pend prov calls em j].
  unfold _init_resume, initialization_outcome, loaded.
  cbn [load_failure startTime].
  destruct load as [e|]; eexists; svc_done.
Qed.

Lemma waitForInit_countdown : forall n (w : World P) t0 load,
  initialized w = false ->
  pending w = Some {| startTime := t0; turns_left := n;
                      load_failure := load |} ->
  exists j,
    waitForInit behaviour (S n) w
    = (Normal tt,
       {| darwin := darwin w; clock := clock w + 10 * (Z.of_nat n + 1);
          nativeModule := loaded load; initialized := true;
          pending := None; provider := provider w;
          provider_calls := provider_calls w;
          emitted :=
            emitted w
            ++ [initialization_outcome t0
                  (clock w + 10 * (Z.of_nat n + 1)) load];
          js := j |}).
Proof.
  induction n as [|n IH]; intros w t0 load Hi Hp;
    destruct w as [dar clk nm ini pend prov calls em j];
    cbn [initialized pending] in Hi, Hp; subst ini pend;
    cbn [darwin clock provider provider_calls emitted].
  - replace (clk + 10 * (Z.of_nat 0 + 1)) with (clk + 10) by lia.
    match goal with
    | |- context [waitForInit _ _ ?w0] =>
        destruct (_init_resume_run t0 O load
                    (set_pending None (set_clock (clk + 10) w0)))
          as [j' E];
        exists j';
        rewrite (waitForInit_polls behaviour O w0 _ eq_refl E)
    end.
    reflexivity.
  - replace (clk + 10 * (Z.of_nat (S n) + 1))
      with (clk + 10 + 10 * (Z.of_nat n + 1)) by lia.
    erewrite waitForInit_polls; [ | reflexivity | reflexivity ].
    match goal with
    | |- context [waitForInit _ _ ?w1] =>
        destruct (IH w1 t0 load eq_refl eq_refl) as [j' E]
    end.
    exists j'. rewrite E. reflexivity.
Qed.

(** X20. Initialization always comes to an end.  On macOS, when the
    import of the native addon settles during the [n+1]-th timer turn
    of a polling caller, [waitForInit] returns after [n+1] turns of
    10 ms with the service initialized: the module is loaded exactly
    when loading did not throw, and the service has emitted
    [initialization:start] followed by one [initialization:complete],
    or by one [initialization:error] with the message of the error.
    Off macOS the constructor itself leaves the service initialized,
    without a module, having emitted [initialization:start] and
    [initialization:error]. *)
Theorem initialization_completes now (p : P) n load :
  (exists j,
      waitForInit behaviour (S n)
        (new_TouchIDService behaviour true now p n load)
      = (Normal tt,
         {| darwin := true; clock := now + 10 * (Z.of_nat n + 1);
            nativeModule := loaded load; initialized := true;
            pending := None; provider := p; provider_calls := [];
            emitted :=
              [InitializationStart now;
               initialization_outcome now
                 (now + 10 * (Z.of_nat n + 1)) load];
            js := j |}))
  /\ (exists j,
         new_TouchIDService behaviour false now p n load
         = {| darwin := false; clock := now; nativeModule := false;
              initialized := true; pending := None; provider := p;
              provider_calls := [];
              emitted :=
                [InitializationStart now;
                 InitializationError now
                   (str "Touch ID is only available on macOS")];
              js := j |}).
Proof.
  split.
  - unfold new_TouchIDService, _init. svc_run.
    match goal with
    | |- context [waitForInit _ _ ?w1] =>
        destruct (waitForInit_countdown n w1 now load eq_refl eq_refl)
          as [j E]
    end.
    exists j. rewrite E. reflexivity.
  - unfold new_TouchIDService, _init. svc_run.
    eexists. unfold set_js. reflexivity.
Qed.
End Initialization.

Lemma trimStart_nil s :
  trimStart s = [] <-> forallb isWhiteSpace s = true.
Proof.
  induction s as [|c r IH]; cbn [trimStart forallb]; [tauto|].
  destruct (isWhiteSpace c); cbn [andb]; [exact IH|].
  split; discriminate.
Qed.

Lemma trimStart_head s c r : trimStart s = c :: r -> isWhiteSpace c = false.
Proof.
  induction s as [|x s IH]; cbn [trimStart]; [discriminate|].
  destruct (isWhiteSpace x) eqn:E; [exact IH|].
  intros H. injection H as -> _. exact E.
Qed.

Lemma forallb_rev {A} (f : A -> bool) l :
  forallb f (rev l) = forallb f l.
Proof.
  induction l as [|x l IH]; [reflexivity|].
  cbn [rev forallb]. rewrite forallb_app, IH. cbn [forallb].
  rewrite andb_true_r. apply andb_comm.
Qed.

Lemma trim_nil s : trim s = [] <-> forallb isWhiteSpace s = true.
Proof.
  unfold trim, trimEnd. split.
  - intros H. apply (f_equal (@rev N)) in H. rewrite rev_involutive in H.
    cbn [rev] in H. apply trimStart_nil in H. rewrite forallb_rev in H.
    destruct (trimStart s) as [|c r] eqn:E; [now apply trimStart_nil|].
    apply trimStart_head in E. cbn [forallb] in H. rewrite E in H.
    discriminate.
  - intros H. apply trimStart_nil in H. rewrite H. reflexivity.
Qed.

(** X23. A reason is blank for [validateOptions] and for [isNotEmpty]
    exactly when all its characters are white space or line
    terminators: with a valid or absent ttl, such a reason is rejected
    with 'Reason cannot be empty', and any reason with one other
    character is accepted. *)
Theorem blank_reason_is_all_white_space r m :
  let options := {| reason := Some r; method := m; ttl := None |} in
  isNotEmpty r = negb (forallb isWhiteSpace r)
  /\ valid (validateOptions options) = negb (forallb isWhiteSpace r)
  /\ (forallb isWhiteSpace r = true ->
      v_error (validateOptions options) = Some REASON_MESSAGE).
Proof.
  cbv zeta. unfold isNotEmpty, validateOptions. cbn [ttl reason].
  pose proof (trim_nil r) as H.
  destruct (forallb isWhiteSpace r).
  - rewrite (proj2 H eq_refl). repeat split.
  - destruct (trim r) as [|c t];
      [pose proof (proj1 H eq_refl); discriminate|].
    repeat split. discriminate.
Qed.

Section Delivery.
Context {P : Type}.
Variable native : Provider P.
Variable behaviour : Behaviour.
Variable typeErrorMessage : jsstring.

(** X24. The events of the service reach the listeners registered on
    its emitter.  In a direct authentication that the provider
    resolves with [success: true], the listeners registered for
    [authentication:start] are invoked with the time of the call, the
    method and the reason, and then the listeners registered for
    [authentication:success] with the duration and the data of the
    provider; no other handler is invoked.  (The handlers of
    [authentication:start] are assumed to leave the registry alone.) *)
Theorem listeners_receive_authentication_events bound options
  (w : World P) f d e p t :
  ready w ->
  valid (validateOptions options) = true ->
  promptTouchID native = Some f ->
  f (prompt_args options) (provider w) (clock w)
  = (Resolved (ResultObject true d e), p, t) ->
  method_of options = direct ->
  let started :=
    AuthenticationStart (clock w) direct (reason_of options) in
  let succeeded := AuthenticationSuccess t direct (t - clock w) d in
  (forall s0 l, In l (registered authentication_start (js w)) ->
                emitter_calls (behaviour s0 (handler l) started) = []) ->
  invoked (js (snd (authenticate native behaviour typeErrorMessage bound
                      options w)))
  = invoked (js w)
    ++ invocations (registered authentication_start (js w)) started
    ++ invocations (registered authentication_success (js w)) succeeded.
Proof.
  intros Hr Hv Hf Hp Hm. cbv zeta. intros Hq.
  destruct w as [dar clk nm ini pend prov calls em j].
  unfold ready in Hr.
  cbn [darwin initialized nativeModule provider clock js] in *.
  destruct Hr as (-> & -> & ->).
  unfold authenticate.
  fold (method_of options) (reason_of options) (ttl_of options).
  fold (prompt_args options).
  rewrite Hm in *.
  svc_run. rewrite Hv. svc_run.
  erewrite bind_normal by (apply waitForInit_initialized; reflexivity).
  svc_run. rewrite Hf. svc_run. rewrite Hp. svc_run.
  unfold ret. cbn [snd js set_js event_of].
  rewrite !emit_invoked. unfold invocations. rewrite <- app_assoc.
  do 2 f_equal.
  unfold registered at 1.
  rewrite (registered_quiet_emit behaviour authentication_start _ j Hq).
  destruct (registered authentication_start j); [reflexivity|].
  apply (f_equal (List.map _)). apply lookup_set_other. discriminate.
Qed.

(** X25. When the prompt rejects with an [Error] whose message
    contains none of the phrases that [authenticate] looks for, the
    message is returned as it is, as the error of a failure, and only
    [authentication:start] and [authentication:failure] are
    emitted. *)
Theorem unclassified_error_passes_through bound options (w : World P)
  f m p t :
  ready w ->
  valid (validateOptions options) = true ->
  promptTouchID native = Some f ->
  f (prompt_args options) (provider w) (clock w)
  = (Rejected (ErrorObject m), p, t) ->
  forallb (fun phrase => negb (includes m phrase))
    [str "not available"; str "not enrolled"; str "locked out";
     str "cancelled"; str "canceled"; str "passcode not set";
     str "not interactive"] = true ->
  exists j,
    authenticate native behaviour typeErrorMessage bound options w
    = (Normal (failure m),
       after w t p [called_promptTouchID (prompt_args options)]
         [AuthenticationStart (clock w) (method_of options)
            (reason_of options);
          AuthenticationFailure t (method_of options) m (t - clock w)] j).
Proof.
  intros Hr Hv Hf Hc Hn.
  destruct (authenticate_rejected native behaviour typeErrorMessage bound
              options w f (ErrorObject m) p t Hr Hv Hf Hc) as [j E].
  exists j. rewrite E.
  unfold caught_events, mapped_error, classification_events.
  cbn [message_or]. cbn [forallb] in Hn.
  repeat match type of Hn with
         | negb ?b && _ = true =>
             apply andb_prop in Hn; destruct Hn as [?H Hn]
         end.
  repeat match goal with
         | H : negb ?b = true |- _ =>
             apply negb_true_iff in H; rewrite H
         end.
  reflexivity.
Qed.
End Delivery.

Lemma listeners_receive_authentication_events_witness :
  let w := listening (mac_service (native_start None)) in
  let started :=
    AuthenticationStart (clock w) direct (reason_of direct_only) in
  let succeeded :=
    AuthenticationSuccess 2310 direct (2310 - clock w)
      (Some (deviceData a_mac)) in
  invoked (js (snd (authenticate (touchid_native a_mac) quiet engine_message
                      5 direct_only w)))
  = invoked (js w)
    ++ invocations (registered authentication_start (js w)) started
    ++ invocations (registered authentication_success (js w)) succeeded.
Proof.
  apply (listeners_receive_authentication_events (touchid_native a_mac) quiet
           engine_message 5 direct_only
           (listening (mac_service (native_start None)))
           (PromptTouchID a_mac) (Some (deviceData a_mac)) None
           (count_prompt (native_start None)) 2310).
  - repeat split.
  - reflexivity.
  - reflexivity.
  - reflexivity.
  - reflexivity.
  - intros s0 l _. reflexivity.
Defined.

Lemma unclassified_error_passes_through_witness :
  let w := mac_service tt in
  exists j,
    authenticate (rejecting (str "Authentication failed")) quiet
      engine_message 5 no_options w
    = (Normal (failure (str "Authentication failed")),
       after w 1010 tt [called_promptTouchID (prompt_args no_options)]
         [AuthenticationStart (clock w) (method_of no_options)
            (reason_of no_options);
          AuthenticationFailure 1010 (method_of no_options)
            (str "Authentication failed") (1010 - clock w)] j).
Proof.
  apply (unclassified_error_passes_through
           (rejecting (str "Authentication failed")) quiet engine_message 5
           no_options (mac_service tt)
           (fun _ s now =>
              (Rejected (ErrorObject (str "Authentication failed")), s,
               now + 1000))
           (str "Authentication failed") tt 1010).
  - repeat split.
  - reflexivity.
  - reflexivity.
  - reflexivity.
  - reflexivity.
Defined.


(** * Properties of the utilities *)

Section Retry.
Context {T : Type}.
Variable operation : nat -> Settled T.
Variable baseDelay : Z.

Lemma retry_loop_success : forall k remaining attempt log v,
  (k <= remaining)%nat ->
  (forall i, (i < k)%nat -> exists e, operation (attempt + i) = Rejected e) ->
  operation (attempt + k) = Resolved v ->
  retry_loop operation baseDelay remaining attempt log
  = (Normal v, log ++ retry_trace baseDelay attempt k).
Proof.
  induction k as [|k IH]; intros remaining attempt log v Hle Hfail Hok.
  - rewrite Nat.add_0_r in Hok.
    destruct remaining; cbn [retry_loop retry_trace]; unfold try_catch;
      rewrite Hok; reflexivity.
  - destruct remaining as [|r]; [lia|].
    destruct (Hfail O ltac:(lia)) as [e He]. rewrite Nat.add_0_r in He.
    cbn [retry_loop retry_trace]. unfold try_catch at 1. rewrite He.
    unfold bind, modify.
    rewrite (IH r (S attempt) _ v).
    + now rewrite <- !app_assoc.
    + lia.
    + intros i Hi. destruct (Hfail (S i) ltac:(lia)) as [e' He'].
      exists e'. now rewrite <- He', Nat.add_succ_r.
    + now rewrite <- Hok, Nat.add_succ_r.
Qed.

Lemma retry_loop_failure : forall remaining attempt log,
  (forall i, (i <= remaining)%nat ->
             exists e, operation (attempt + i) = Rejected e) ->
  exists e,
    operation (attempt + remaining) = Rejected e
    /\ retry_loop operation baseDelay remaining attempt log
       = (Throw e, log ++ retry_trace baseDelay attempt remaining).
Proof.
  induction remaining as [|r IH]; intros attempt log Hfail.
  - destruct (Hfail O ltac:(lia)) as [e He]. exists e. split; [exact He|].
    rewrite Nat.add_0_r in He.
    cbn [retry_loop retry_trace]. unfold try_catch. rewrite He.
    reflexivity.
  - destruct (Hfail O ltac:(lia)) as [e0 He0].
    rewrite Nat.add_0_r in He0.
    destruct (IH (S attempt)
                ((log ++ [Attempt attempt])
                 ++ [Delay (baseDelay * 2 ^ Z.of_nat attempt)]))
      as (e & He & Hrun).
    { intros i Hi. destruct (Hfail (S i) ltac:(lia)) as [e' He'].
      exists e'. now rewrite <- He', Nat.add_succ_r. }
    exists e. split; [now rewrite <- He, Nat.add_succ_r|].
    cbn [retry_loop retry_trace]. unfold try_catch at 1. rewrite He0.
    unfold bind, modify. rewrite Hrun. now rewrite <- !app_assoc.
Qed.

Lemma total_delay_retry_trace : forall k attempt,
  total_delay (retry_trace baseDelay attempt k)
  = baseDelay * 2 ^ Z.of_nat attempt * (2 ^ Z.of_nat k - 1).
Proof.
  induction k as [|k IH]; intros attempt; cbn [retry_trace total_delay].
  - cbn. lia.
  - rewrite IH, !Nat2Z.inj_succ, !Z.pow_succ_r by lia.
    set (a := 2 ^ Z.of_nat attempt). set (b := 2 ^ Z.of_nat k). ring.
Qed.

Lemma attempts_retry_trace : forall k attempt,
  attempts (retry_trace baseDelay attempt k) = S k.
Proof.
  induction k as [|k IH]; intros attempt; cbn [retry_trace attempts];
    [reflexivity | now rewrite IH].
Qed.

(** X21. [retryWithBackoff] returns the value of the first attempt
    that succeeds, when it is among the first [maxRetries + 1]: having
    failed [k] times it has called the operation [k + 1] times and
    slept after each failure, [baseDelay * 2^i] after the failure of
    attempt [i], which is [baseDelay * (2^k - 1)] in all. *)
Theorem retryWithBackoff_first_success maxRetries k v :
  Z.of_nat k <= maxRetries ->
  (forall i, (i < k)%nat -> exists e, operation i = Rejected e) ->
  operation k = Resolved v ->
  retryWithBackoff operation maxRetries baseDelay []
  = (Normal v, retry_trace baseDelay 0 k)
  /\ attempts (retry_trace baseDelay 0 k) = S k
  /\ total_delay (retry_trace baseDelay 0 k)
     = baseDelay * (2 ^ Z.of_nat k - 1).
Proof.
  intros Hle Hfail Hok. unfold retryWithBackoff.
  destruct (Z.ltb_spec maxRetries 0); [lia|].
  split; [|split].
  - apply (retry_loop_success k (Z.to_nat maxRetries) O [] v);
      [lia | exact Hfail | exact Hok].
  - apply attempts_retry_trace.
  - rewrite total_delay_retry_trace. cbn [Z.of_nat]. rewrite Z.pow_0_r. lia.
Qed.

(** X22. When the first [maxRetries + 1] attempts all fail,
    [retryWithBackoff] throws the error of the last of them, after
    [maxRetries + 1] calls of the operation and [maxRetries] delays:
    it does not sleep after the last failure.  With a negative
    [maxRetries] it calls nothing and throws [undefined]. *)
Theorem retryWithBackoff_exhausted (retries : nat) (p : positive) log :
  (forall i, (i <= retries)%nat -> exists e, operation i = Rejected e) ->
  (exists e,
      operation retries = Rejected e
      /\ retryWithBackoff operation (Z.of_nat retries) baseDelay []
         = (Throw e, retry_trace baseDelay 0 retries))
  /\ attempts (retry_trace baseDelay 0 retries) = S retries
  /\ total_delay (retry_trace baseDelay 0 retries)
     = baseDelay * (2 ^ Z.of_nat retries - 1)
  /\ retryWithBackoff operation (Z.neg p) baseDelay log
     = (Throw ThrownOther, log).
Proof.
  intros Hfail. split; [|split; [|split]].
  - unfold retryWithBackoff.
    destruct (Z.ltb_spec (Z.of_nat retries) 0); [lia|].
    rewrite Nat2Z.id.
    destruct (retry_loop_failure retries O [] Hfail) as (e & He & Hrun).
    exists e. split; [exact He | exact Hrun].
  - apply attempts_retry_trace.
  - rewrite total_delay_retry_trace. cbn [Z.of_nat]. rewrite Z.pow_0_r. lia.
  - reflexivity.
Qed.
End Retry.

Lemma retryWithBackoff_first_success_witness :
  retryWithBackoff flaky 3 1000 [] = (Normal 42, retry_trace 1000 0 2)
  /\ attempts (retry_trace 1000 0 2) = 3%nat
  /\ total_delay (retry_trace 1000 0 2) = 1000 * (2 ^ Z.of_nat 2 - 1).
Proof.
  apply (retryWithBackoff_first_success flaky 1000 3 2 42).
  - simpl. lia.
  - intros i Hi. exists (ErrorObject (str "busy")).
    destruct i as [|[|i]]; [reflexivity | reflexivity | lia].
  - reflexivity.
Defined.

Lemma retryWithBackoff_exhausted_witness :
  (exists e,
      hopeless 3 = Rejected e
      /\ retryWithBackoff hopeless (Z.of_nat 3) 1000 []
         = (Throw e, retry_trace 1000 0 3))
  /\ attempts (retry_trace 1000 0 3) = 4%nat
  /\ total_delay (retry_trace 1000 0 3) = 1000 * (2 ^ Z.of_nat 3 - 1)
  /\ retryWithBackoff hopeless (Z.neg 1) 1000 [] = (Throw ThrownOther, []).
Proof.
  apply (retryWithBackoff_exhausted hopeless 1000 3 1%positive []).
  intros i _. exists (ErrorObject (str "down")). reflexivity.
Defined.
